(** * The multi-determinant Slater wavefunction of pyqmc/jax/slater.py

    A shallow embedding of the determinant evaluation code
    (compute_determinants, evaluate_expansion, testvalue_up/down,
    _sherman_morrison_row, the _parameterMap container and the JAXSlater
    object) together with the properties its specification states.

    Numbers are modelled in exact arithmetic: a floating point value is an
    extended real (a real number, one of the two infinities, or NaN), so
    that the values the code produces at a wavefunction node (sign 0,
    log-magnitude -inf, NaN after inf - inf) are data of the model.
    Arrays are lists (rows of a matrix are its elements); an exception is
    a value of the result type.  Linear algebra facts are proved on
    MathComp matrices over the real field and transported to the lists. *)

From HB Require Import structures.
From Stdlib Require Import Reals Lra ClassicalEpsilon FunctionalExtensionality.
From Stdlib Require Import String ZArith Lia.
From mathcomp Require Import ssreflect ssrfun ssrbool eqtype ssrnat seq choice.
From mathcomp Require Import fintype bigop finfun fingroup perm ssralg matrix.

Set Implicit Arguments.
Unset Strict Implicit.
Unset Printing Implicit Defensive.

Delimit Scope R_scope with Re.

(** ** The real numbers as a MathComp field *)

Definition eqr (x y : R) : bool := if Req_EM_T x y then true else false.

Lemma eqrP : Equality.axiom eqr.
Proof. by move=> x y; rewrite /eqr; case: Req_EM_T => h; constructor. Qed.

HB.instance Definition _ := hasDecEq.Build R eqrP.

Definition findr (P : pred R) (n : nat) : option R :=
  if excluded_middle_informative (exists x, P x)
  then Some (epsilon (inhabits R0) (fun x => is_true (P x))) else None.

Lemma findr_correct (P : pred R) n x : findr P n = Some x -> P x.
Proof.
rewrite /findr; case: excluded_middle_informative => // ex [<-].
exact: (epsilon_spec (inhabits R0) (fun x => is_true (P x)) ex).
Qed.

Lemma findr_complete (P : pred R) : (exists x, P x) -> exists n, findr P n.
Proof.
by move=> ex; exists 0%N; rewrite /findr; case: excluded_middle_informative.
Qed.

Lemma findr_ext (P Q : pred R) : P =1 Q -> findr P =1 findr Q.
Proof. by move=> /functional_extensionality ->. Qed.

HB.instance Definition _ :=
  hasChoice.Build R findr_correct findr_complete findr_ext.

Lemma RplusA : associative Rplus.
Proof. by move=> x y z; rewrite Rplus_assoc. Qed.

Lemma Rplus_oppl : left_inverse R0 Ropp Rplus.
Proof. by move=> x; rewrite Rplus_opp_l. Qed.

HB.instance Definition _ :=
  GRing.isZmodule.Build R RplusA Rplus_comm Rplus_0_l Rplus_oppl.

Lemma RmultA : associative Rmult.
Proof. by move=> x y z; rewrite Rmult_assoc. Qed.

Lemma R1_neq0 : R1 != R0.
Proof. by apply/eqP; exact: R1_neq_R0. Qed.

HB.instance Definition _ := GRing.Zmodule_isComNzRing.Build R
  RmultA Rmult_comm Rmult_1_l Rmult_plus_distr_r R1_neq0.

Lemma Rinv_mulVf (x : R) : x != R0 -> Rmult (Rinv x) x = R1.
Proof. by move/eqP => h; rewrite Rinv_l. Qed.

HB.instance Definition _ := GRing.ComNzRing_isField.Build R Rinv_mulVf Rinv_0.

(** ** Scalars: extended reals with the IEEE special values *)

Inductive xreal : Type :=
  | Fin (r : R)
  | PInf
  | NInf
  | NaN.

Definition Rltb (x y : R) : bool := if Rlt_dec x y then true else false.

(** [jnp.sign] on a real number. *)
Definition Rsgn (r : R) : R :=
  if Rltb 0 r then 1%Re else if Rltb r 0 then (-1)%Re else 0%Re.

Definition xinf (positive : bool) : xreal := if positive then PInf else NInf.

Definition xadd (x y : xreal) : xreal :=
  match x, y with
  | NaN, _ | _, NaN => NaN
  | Fin a, Fin b => Fin (a + b)%Re
  | PInf, NInf | NInf, PInf => NaN
  | PInf, _ | _, PInf => PInf
  | NInf, _ | _, NInf => NInf
  end.

Definition xopp (x : xreal) : xreal :=
  match x with
  | Fin a => Fin (- a)%Re
  | PInf => NInf
  | NInf => PInf
  | NaN => NaN
  end.

Definition xsub (x y : xreal) : xreal := xadd x (xopp y).

Definition xmul (x y : xreal) : xreal :=
  match x, y with
  | NaN, _ | _, NaN => NaN
  | Fin a, Fin b => Fin (a * b)%Re
  | Fin a, PInf | PInf, Fin a => if a == R0 then NaN else xinf (Rltb 0 a)
  | Fin a, NInf | NInf, Fin a => if a == R0 then NaN else xinf (Rltb a 0)
  | PInf, PInf | NInf, NInf => PInf
  | PInf, NInf | NInf, PInf => NInf
  end.

(** Signed zeros are not represented: a zero denominator counts as +0. *)
Definition xdiv (x y : xreal) : xreal :=
  match x, y with
  | NaN, _ | _, NaN => NaN
  | Fin a, Fin b =>
      if b == R0 then (if a == R0 then NaN else xinf (Rltb 0 a))
      else Fin (a / b)%Re
  | Fin _, (PInf | NInf) => Fin 0
  | PInf, Fin b => xinf (~~ Rltb b 0)
  | NInf, Fin b => xinf (Rltb b 0)
  | (PInf | NInf), (PInf | NInf) => NaN
  end.

Definition xexp (x : xreal) : xreal :=
  match x with
  | Fin a => Fin (exp a)
  | PInf => PInf
  | NInf => Fin 0
  | NaN => NaN
  end.

Definition xlog (x : xreal) : xreal :=
  match x with
  | Fin a => if a == R0 then NInf else if Rltb a 0 then NaN else Fin (ln a)
  | PInf => PInf
  | NInf | NaN => NaN
  end.

Definition xabs (x : xreal) : xreal :=
  match x with
  | Fin a => Fin (Rabs a)
  | PInf | NInf => PInf
  | NaN => NaN
  end.

Definition xsign (x : xreal) : xreal :=
  match x with
  | Fin a => Fin (Rsgn a)
  | PInf => Fin 1
  | NInf => Fin (-1)
  | NaN => NaN
  end.

(** [jnp.max] propagates NaN. *)
Definition xmax (x y : xreal) : xreal :=
  match x, y with
  | NaN, _ | _, NaN => NaN
  | PInf, _ | _, PInf => PInf
  | NInf, z | z, NInf => z
  | Fin a, Fin b => Fin (Rmax a b)
  end.

Arguments xadd : simpl nomatch.
Arguments xmul : simpl nomatch.
Arguments xdiv : simpl nomatch.
Arguments xlog : simpl nomatch.
Arguments xmax : simpl nomatch.

(** The pair [jnp.linalg.slogdet] returns for a determinant of value [d]. *)
Definition sign_logabs (d : R) : xreal * xreal :=
  (Fin (Rsgn d), xlog (xabs (Fin d))).

Definition is_fin (x : xreal) : bool := if x is Fin _ then true else false.

Definition fin_val (x : xreal) : R := if x is Fin r then r else R0.

(** ** Exceptions *)

Inductive exn : Type :=
  | ShapeError            (* incompatible array shapes *)
  | ValueError            (* reduction of an empty array *)
  | IndexError            (* index into an axis of size 0 *)
  | KeyError
  | TypeError
  | AttributeError
  | NotImplementedError (msg : string).

Inductive res (A : Type) : Type :=
  | Ok (a : A)
  | Raise (e : exn).

Arguments Ok {A} a.
Arguments Raise {A} e.

Definition bind {A B : Type} (x : res A) (f : A -> res B) : res B :=
  match x with
  | Ok a => f a
  | Raise e => Raise e
  end.

Notation "x <- c1 ;; c2" := (bind c1 (fun x => c2))
  (at level 61, c1 at next level, right associativity).

Notation "' pat <- c1 ;; c2" := (bind c1 (fun x => match x with pat => c2 end))
  (at level 61, pat pattern, c1 at next level, right associativity).

Definition raises {A : Type} (x : res A) : bool :=
  if x is Raise _ then true else false.

(** [jax.vmap] of a function that may fail, over one mapped argument. *)
Fixpoint mapM {A B : Type} (f : A -> res B) (s : seq A) : res (seq B) :=
  match s with
  | [::] => Ok [::]
  | a :: s' => b <- f a ;; bs <- mapM f s' ;; Ok (b :: bs)
  end.

(** ** Arrays *)

Definition vec : Type := seq xreal.
Definition mat : Type := seq vec.

Definition zipwith {A B C : Type} (f : A -> B -> C) (a : seq A) (b : seq B)
  : seq C := [seq f p.1 p.2 | p <- zip a b].

(** Elementwise binary operation on two one-dimensional arrays, with the
    NumPy broadcasting rule: equal lengths, or one of them of length 1. *)
Definition bcast2 (f : xreal -> xreal -> xreal) (a b : vec) : res vec :=
  if size a == size b then Ok (zipwith f a b)
  else if size a == 1%N then Ok [seq f (head NaN a) y | y <- b]
  else if size b == 1%N then Ok [seq f x (head NaN b) | x <- a]
  else Raise ShapeError.

(** [jnp.take(a, idx)] on a one-dimensional float array: an index out of
    bounds yields NaN (mode "fill"). *)
Definition jnp_take (a : vec) (idx : seq nat) : vec :=
  [seq nth NaN a i | i <- idx].

(** [jnp.take(m, idx, axis=1)]. *)
Definition jnp_take_cols (m : mat) (idx : seq nat) : mat :=
  [seq jnp_take r idx | r <- m].

Definition xsum (a : vec) : xreal := foldr xadd (Fin 0) a.

(** [jnp.max] of a one-dimensional array; an empty array has no maximum. *)
Definition jnp_max (a : vec) : res xreal :=
  match a with
  | [::] => Raise ValueError
  | x :: a' => Ok (foldl xmax x a')
  end.

(** Indexing [a[i]] with an integer along one axis: a negative index
    counts from the end, and the result is clamped into the axis. *)
Definition clamp_index (n : nat) (i : Z) : nat :=
  let j := (if (i <? 0)%Z then i + Z.of_nat n else i)%Z in
  Z.to_nat (Z.max 0 (Z.min j (Z.of_nat n - 1))).

Definition jnp_index (a : vec) (i : Z) : res xreal :=
  if a is [::] then Raise IndexError
  else Ok (nth NaN a (clamp_index (size a) i)).

Definition ncols (m : mat) : nat := size (head [::] m).

(** [m[:, e]]: column [e] of a matrix.  A matrix without rows is the
    0 x 0 matrix: its second axis has size 0, and every index into it
    raises. *)
Definition column (m : mat) (e : Z) : res vec :=
  if m is [::] then Raise IndexError else mapM (fun r => jnp_index r e) m.

Definition col_nat (m : mat) (j : nat) : vec := [seq nth NaN r j | r <- m].

(** [a @ b] for two one-dimensional arrays. *)
Definition dotv (a b : vec) : res xreal :=
  if size a == size b then Ok (xsum (zipwith xmul a b)) else Raise ShapeError.

(** [jnp.einsum("k,kj->j", v, m)], also [jnp.dot(v, m)]. *)
Definition vecmat (v : vec) (m : mat) : res vec :=
  if size v == size m
  then Ok [seq xsum (zipwith xmul v (col_nat m j)) | j <- iota 0 (ncols m)]
  else Raise ShapeError.

(** [jnp.dot(a, b)] for two matrices. *)
Definition jnp_dot (a b : mat) : res mat := mapM (fun r => vecmat r b) a.

(** [jnp.outer(a, b)]. *)
Definition outer (a b : vec) : mat := [seq [seq xmul x y | y <- b] | x <- a].

(** Elementwise difference of two matrices of the same shape. *)
Definition mat_sub (a b : mat) : res mat :=
  if (size a == size b) && all (fun p => size p.1 == size p.2) (zip a b)
  then Ok (zipwith (zipwith xsub) a b)
  else Raise ShapeError.

(** [m.at[:, e].set(v)]: column [e] replaced by [v]; an index out of
    bounds drops the update. *)
Definition set_nth_col (r : vec) (j : nat) (x : xreal) : vec :=
  if (j < size r)%N then set_nth NaN r j x else r.

Definition norm_index (n : nat) (i : Z) : option nat :=
  let j := (if (i <? 0)%Z then i + Z.of_nat n else i)%Z in
  if ((0 <=? j) && (j <? Z.of_nat n))%Z then Some (Z.to_nat j) else None.

Definition at_col_set (m : mat) (e : Z) (v : vec) : res mat :=
  if (size v == size m) || (size v == 1%N) then
    let v' := if size v == size m then v else nseq (size m) (head NaN v) in
    Ok (zipwith (fun r x =>
                   if norm_index (size r) e is Some j
                   then set_nth_col r j x else r) m v')
  else Raise ShapeError.

(** [jax.vmap] over two mapped arguments: the mapped axes must agree. *)
Definition mapM2 {A B C : Type} (f : A -> B -> res C) (a : seq A) (b : seq B)
  : res (seq C) :=
  if size a == size b then mapM (fun p => f p.1 p.2) (zip a b)
  else Raise ShapeError.

(** ** The linear algebra routines of the library

    [jnp.linalg.slogdet] and [jnp.linalg.inv] are library code.  They are
    modelled by what they compute in exact arithmetic: the sign and the
    logarithm of the absolute value of the determinant, and the inverse
    matrix.  Neither raises on a singular matrix: [slogdet] returns
    (0, -inf).  What [inv] returns on a singular matrix, and what either
    returns on a matrix with an entry that is not finite, depends on the
    elimination steps of the library.  A 1 x 1 matrix needs none: its
    determinant is its entry and its inverse the reciprocal of the
    entry.  For larger matrices the model fixes NaN. *)

Definition is_square (m : mat) : bool := all (fun r => size r == size m) m.

Definition all_finite (m : mat) : bool := all (all is_fin) m.

Definition mx_of (n : nat) (m : mat) : 'M[R]_n :=
  \matrix_(i, j) fin_val (nth NaN (nth [::] m i) j).

Definition mat_of_mx (n : nat) (A : 'M[R]_n) : mat :=
  [seq [seq Fin (A i j) | j <- enum 'I_n] | i <- enum 'I_n].

Definition slogdet_degenerate (m : mat) : xreal * xreal :=
  if m is [:: [:: x]] then (xsign x, xlog (xabs x)) else (NaN, NaN).

Definition inv_degenerate (m : mat) : mat :=
  if m is [:: [:: x]] then [:: [:: xdiv (Fin 1) x]]
  else nseq (size m) (nseq (size m) NaN).

Definition linalg_slogdet (m : mat) : res (xreal * xreal) :=
  if ~~ is_square m then Raise ShapeError
  else if all_finite m then
    Ok (sign_logabs (\det (mx_of (size m) m))%R)
  else Ok (slogdet_degenerate m).

Definition linalg_inv (m : mat) : res mat :=
  if ~~ is_square m then Raise ShapeError
  else
    let A := mx_of (size m) m in
    if all_finite m && (\det A != 0)%R then Ok (mat_of_mx (invmx A))
    else Ok (inv_degenerate m).

Arguments bcast2 : simpl never.
Arguments jnp_max : simpl never.
Arguments jnp_index : simpl never.
Arguments column : simpl never.
Arguments dotv : simpl never.
Arguments vecmat : simpl never.
Arguments mat_sub : simpl never.
Arguments at_col_set : simpl never.
Arguments mapM2 : simpl never.
Arguments linalg_slogdet : simpl never.
Arguments linalg_inv : simpl never.

(** ** Data storage tuples *)

Record SlaterState : Type := mkSlaterState {
  mo_values : mat;            (* Nelec, norbs *)
  sign : vec;                 (* one per determinant *)
  logabsdet : vec;            (* one per determinant *)
  inverse : seq mat           (* one nelec_s x nelec_s matrix per determinant *)
}.

Record DeterminantParameters : Type := mkDeterminantParameters {
  ci_coeff : vec;
  mo_coeff_alpha : mat;
  mo_coeff_beta : mat
}.

Record DeterminantExpansion : Type := mkDeterminantExpansion {
  mapping_up : seq nat;
  mapping_down : seq nat;
  determinants_up : seq (seq nat);
  determinants_down : seq (seq nat)
}.

(** ** Evaluating the determinant *)

Definition _compute_one_determinant (mos : mat) (det : seq nat)
  : res (xreal * xreal) :=
  linalg_slogdet (jnp_take_cols mos det).

Definition vmap_determinants (mos : mat) (dets : seq (seq nat))
  : res (seq (xreal * xreal)) :=
  mapM (_compute_one_determinant mos) dets.

Definition _compute_inverse (mos : mat) (det : seq nat) : res mat :=
  linalg_inv (jnp_take_cols mos det).

Definition vmap_inverse (mos : mat) (dets : seq (seq nat)) : res (seq mat) :=
  mapM (_compute_inverse mos) dets.

Definition compute_determinants (mo_coeff : mat) (gto_evaluator : mat -> mat)
    (determinants : seq (seq nat)) (xyz : mat) : res SlaterState :=
  let aos := gto_evaluator xyz in
  mos <- jnp_dot aos mo_coeff ;;
  dets <- vmap_determinants mos determinants ;;
  inverses <- vmap_inverse mos determinants ;;
  Ok (mkSlaterState mos [seq d.1 | d <- dets] [seq d.2 | d <- dets] inverses).

Definition evaluate_expansion (gto_evaluator : mat -> mat)
    (expansion : DeterminantExpansion) (nelec : nat * nat)
    (det_params : DeterminantParameters) (xyz : mat)
  : res (xreal * xreal * SlaterState * SlaterState) :=
  dets_up <- compute_determinants (mo_coeff_alpha det_params) gto_evaluator
               (determinants_up expansion) (take nelec.1 xyz) ;;
  dets_down <- compute_determinants (mo_coeff_beta det_params) gto_evaluator
               (determinants_down expansion) (drop nelec.1 xyz) ;;
  logdets <- bcast2 xadd
               (jnp_take (logabsdet dets_up) (mapping_up expansion))
               (jnp_take (logabsdet dets_down) (mapping_down expansion)) ;;
  signdets <- bcast2 xmul
               (jnp_take (sign dets_up) (mapping_up expansion))
               (jnp_take (sign dets_down) (mapping_down expansion)) ;;
  ref <- jnp_max logdets ;;
  weighted <- bcast2 xmul (ci_coeff det_params) signdets ;;
  terms <- bcast2 xmul weighted [seq xexp (xsub l ref) | l <- logdets] ;;
  let values := xsum terms in
  Ok (xsign values, xadd (xlog (xabs values)) ref, dets_up, dets_down).

(** The local variables of [evaluate_expansion] at its return statement:
    [logdets], [signdets], [ref] and the shifted log-magnitudes
    [logdets - ref] that are exponentiated. *)
Record expansion_locals : Type := mk_expansion_locals {
  l_logdets : vec;
  l_signdets : vec;
  l_ref : xreal;
  l_shifted : vec
}.

(** [evaluate_expansion], returning its local variables beside its
    result. *)
Definition evaluate_expansion_locals (gto_evaluator : mat -> mat)
    (expansion : DeterminantExpansion) (nelec : nat * nat)
    (det_params : DeterminantParameters) (xyz : mat)
  : res (xreal * xreal * SlaterState * SlaterState * expansion_locals) :=
  dets_up <- compute_determinants (mo_coeff_alpha det_params) gto_evaluator
               (determinants_up expansion) (take nelec.1 xyz) ;;
  dets_down <- compute_determinants (mo_coeff_beta det_params) gto_evaluator
               (determinants_down expansion) (drop nelec.1 xyz) ;;
  logdets <- bcast2 xadd
               (jnp_take (logabsdet dets_up) (mapping_up expansion))
               (jnp_take (logabsdet dets_down) (mapping_down expansion)) ;;
  signdets <- bcast2 xmul
               (jnp_take (sign dets_up) (mapping_up expansion))
               (jnp_take (sign dets_down) (mapping_down expansion)) ;;
  ref <- jnp_max logdets ;;
  let shifted := [seq xsub l ref | l <- logdets] in
  weighted <- bcast2 xmul (ci_coeff det_params) signdets ;;
  terms <- bcast2 xmul weighted [seq xexp d | d <- shifted] ;;
  let values := xsum terms in
  Ok (xsign values, xadd (xlog (xabs values)) ref, dets_up, dets_down,
      mk_expansion_locals logdets signdets ref shifted).

(** ** Single-electron update formulas *)

Definition _determinant_lemma (mos : vec) (inv : mat) (det : seq nat) (e : Z)
  : res xreal :=
  c <- column inv e ;;
  dotv (jnp_take mos det) c.

Definition vmap_lemma (mos : vec) (inverses : seq mat) (dets : seq (seq nat))
    (e : Z) : res vec :=
  mapM2 (fun inv det => _determinant_lemma mos inv det e) inverses dets.

(** [testvalue_up] at a basis evaluator that returns the basis values at
    one position (the instance behind [JAXSlater.testvalue]); with the
    gradient or the Hessian of the evaluator the same code runs once per
    derivative component. *)
Definition testvalue_up (gto_evaluator : vec -> vec)
    (expansion : DeterminantExpansion) (det_params : DeterminantParameters)
    (dets_up dets_down : SlaterState) (e : Z) (xyz : vec)
  : res (xreal * vec) :=
  let aos := gto_evaluator xyz in
  mos <- vecmat aos (mo_coeff_alpha det_params) ;;
  ratios <- vmap_lemma mos (inverse dets_up) (determinants_up expansion) e ;;
  newsigns <- bcast2 xmul [seq xsign r | r <- ratios] (sign dets_up) ;;
  newlogabs <- bcast2 xadd (logabsdet dets_up)
                 [seq xlog (xabs r) | r <- ratios] ;;
  logdets <- bcast2 xadd
               (jnp_take newlogabs (mapping_up expansion))
               (jnp_take (logabsdet dets_down) (mapping_down expansion)) ;;
  signdets <- bcast2 xmul
               (jnp_take newsigns (mapping_up expansion))
               (jnp_take (sign dets_down) (mapping_down expansion)) ;;
  logdets_old <- bcast2 xadd
               (jnp_take (logabsdet dets_up) (mapping_up expansion))
               (jnp_take (logabsdet dets_down) (mapping_down expansion)) ;;
  signdets_old <- bcast2 xmul
               (jnp_take (sign dets_up) (mapping_up expansion))
               (jnp_take (sign dets_down) (mapping_down expansion)) ;;
  ref <- jnp_max (logdets ++ logdets_old) ;;
  weighted <- bcast2 xmul (ci_coeff det_params) signdets ;;
  terms <- bcast2 xmul weighted [seq xexp (xsub l ref) | l <- logdets] ;;
  let values := xsum terms in
  weighted_old <- bcast2 xmul (ci_coeff det_params) signdets_old ;;
  terms_old <- bcast2 xmul weighted_old
                 [seq xexp (xsub l ref) | l <- logdets_old] ;;
  let values_old := xsum terms_old in
  let ratio := xdiv values values_old in
  Ok (ratio, mos).

Definition testvalue_down (gto_evaluator : vec -> vec)
    (expansion : DeterminantExpansion) (det_params : DeterminantParameters)
    (dets_up dets_down : SlaterState) (e : Z) (xyz : vec)
  : res (xreal * vec) :=
  let aos := gto_evaluator xyz in
  mos <- vecmat aos (mo_coeff_beta det_params) ;;
  ratios <- vmap_lemma mos (inverse dets_down)
              (determinants_down expansion) e ;;
  newsigns <- bcast2 xmul [seq xsign r | r <- ratios] (sign dets_down) ;;
  newlogabs <- bcast2 xadd (logabsdet dets_down)
                 [seq xlog (xabs r) | r <- ratios] ;;
  logdets <- bcast2 xadd
               (jnp_take (logabsdet dets_up) (mapping_up expansion))
               (jnp_take newlogabs (mapping_down expansion)) ;;
  signdets <- bcast2 xmul
               (jnp_take (sign dets_up) (mapping_up expansion))
               (jnp_take newsigns (mapping_down expansion)) ;;
  logdets_old <- bcast2 xadd
               (jnp_take (logabsdet dets_up) (mapping_up expansion))
               (jnp_take (logabsdet dets_down) (mapping_down expansion)) ;;
  signdets_old <- bcast2 xmul
               (jnp_take (sign dets_up) (mapping_up expansion))
               (jnp_take (sign dets_down) (mapping_down expansion)) ;;
  ref <- jnp_max (logdets ++ logdets_old) ;;
  weighted <- bcast2 xmul (ci_coeff det_params) signdets ;;
  terms <- bcast2 xmul weighted [seq xexp (xsub l ref) | l <- logdets] ;;
  let values := xsum terms in
  weighted_old <- bcast2 xmul (ci_coeff det_params) signdets_old ;;
  terms_old <- bcast2 xmul weighted_old
                 [seq xexp (xsub l ref) | l <- logdets_old] ;;
  let values_old := xsum terms_old in
  let ratio := xdiv values values_old in
  Ok (ratio, mos).

(** ** Sherman-Morrison update formulas *)

Definition _sherman_morrison_row (e : Z) (inv : mat) (mos : vec)
    (determinant : seq nat) : res (xreal * mat) :=
  let vec := jnp_take mos determinant in
  tmp <- vecmat vec inv ;;
  ratio <- jnp_index tmp e ;;
  c <- column inv e ;;
  let inv_ratio := [seq xdiv x ratio | x <- c] in
  invnew <- mat_sub inv (outer inv_ratio tmp) ;;
  invnew <- at_col_set invnew e inv_ratio ;;
  Ok (ratio, invnew).

(** ** The parameter container *)

(** An array of rank one, two or three; the parameters are of rank one
    or two. *)
Inductive ndarray : Type :=
  | Arr1 (v : vec)
  | Arr2 (m : mat)
  | Arr3 (t : seq mat).

(** A Python dictionary with string keys: insertion ordered, one entry
    per key. *)
Definition dict : Type := seq (string * ndarray).

Fixpoint dict_get (d : dict) (k : string) : option ndarray :=
  match d with
  | [::] => None
  | (k', v) :: d' => if String.eqb k' k then Some v else dict_get d' k
  end.

Fixpoint dict_set (d : dict) (k : string) (v : ndarray) : dict :=
  match d with
  | [::] => [:: (k, v)]
  | (k', v') :: d' =>
      if String.eqb k' k then (k', v) :: d' else (k', v') :: dict_set d' k v
  end.

(** [d[k]]. *)
Definition dict_item (d : dict) (k : string) : res ndarray :=
  if dict_get d k is Some v then Ok v else Raise KeyError.

(** The object [_parameterMap]: the tuple handed to the compiled
    evaluators and the dictionary shown to the caller. *)
Record _parameterMap : Type := mk_parameterMap {
  jax_parameters : ndarray * ndarray * ndarray;
  pm_parameters : dict
}.

Definition pm_init (jax_parameters : ndarray * ndarray * ndarray)
  : _parameterMap :=
  mk_parameterMap jax_parameters
    [:: ("det_coeff"%string, jax_parameters.1.1);
        ("mo_coeff_alpha"%string, jax_parameters.1.2);
        ("mo_coeff_beta"%string, jax_parameters.2)].

(** A method of the container: the outcome and the object afterwards. *)
Definition pm_method (A : Type) : Type := _parameterMap -> res A * _parameterMap.

Definition pm_setitem (key : string) (item : ndarray) : pm_method unit :=
  fun self =>
    let self1 := mk_parameterMap (jax_parameters self)
                   (dict_set (pm_parameters self) key item) in
    match dict_item (pm_parameters self1) "det_coeff",
          dict_item (pm_parameters self1) "mo_coeff_alpha",
          dict_item (pm_parameters self1) "mo_coeff_beta" with
    | Ok c, Ok a, Ok b =>
        (Ok tt, mk_parameterMap (c, a, b) (pm_parameters self1))
    | Raise e, _, _ | Ok _, Raise e, _ | Ok _, Ok _, Raise e =>
        (Raise e, self1)
    end.

Definition pm_getitem (key : string) : pm_method ndarray :=
  fun self => (dict_item (pm_parameters self) key, self).

Definition pm_len : pm_method nat :=
  fun self => (Ok (size (pm_parameters self)), self).

Definition pm_delitem (key : string) : pm_method unit :=
  fun self => (Raise (NotImplementedError "Cannot delete parameters"), self).

Definition pm_clear : pm_method unit :=
  fun self => (Raise (NotImplementedError "Cannot clear parameters"), self).

Definition pm_copy : pm_method dict :=
  fun self => (Ok (pm_parameters self), self).

Definition pm_has_key (k : string) : pm_method bool :=
  fun self => (Ok (isSome (dict_get (pm_parameters self) k)), self).

Definition pm_update (args : seq dict) (kwargs : dict) : pm_method unit :=
  fun self => (Raise (NotImplementedError "Cannot update parameters"), self).

Definition pm_keys : pm_method (seq string) :=
  fun self => (Ok [seq kv.1 | kv <- pm_parameters self], self).

Definition pm_values : pm_method (seq ndarray) :=
  fun self => (Ok [seq kv.2 | kv <- pm_parameters self], self).

(** ** The wavefunction object *)

(** The compiled evaluators are built for a coefficient vector and two
    orbital matrices; only these ranks are given a meaning here. *)
Definition as_det_params (p : ndarray * ndarray * ndarray)
  : res DeterminantParameters :=
  match p with
  | (Arr1 c, Arr2 a, Arr2 b) => Ok (mkDeterminantParameters c a b)
  | _ => Raise ShapeError
  end.

(** What [recompute] stores: one entry per configuration in each field. *)
Record Cache : Type := mkCache {
  _sign : vec;
  _logabs : vec;
  _dets_up : seq SlaterState;
  _dets_down : seq SlaterState
}.

Record JAXSlater : Type := mkJAXSlater {
  gto_1e : vec -> vec;                 (* captured by the evaluators *)
  expansion : DeterminantExpansion;
  _nelec : nat * nat;
  parameters : _parameterMap;
  cache : option Cache                 (* absent before the first recompute *)
}.

Definition method (A : Type) : Type := JAXSlater -> res A * JAXSlater.

(** [jax.vmap(gto_1e)]: the basis evaluator over the electrons. *)
Definition gto_ne (gto : vec -> vec) (xyz : mat) : mat := [seq gto p | p <- xyz].

(** [self._recompute]: [evaluate_expansion] mapped over the configurations. *)
Definition _recompute (self : JAXSlater) (p : ndarray * ndarray * ndarray)
    (xyz : seq mat) : res Cache :=
  det_params <- as_det_params p ;;
  out <- mapM (evaluate_expansion (gto_ne (gto_1e self)) (expansion self)
                 (_nelec self) det_params) xyz ;;
  Ok (mkCache [seq o.1.1.1 | o <- out] [seq o.1.1.2 | o <- out]
              [seq o.1.2 | o <- out] [seq o.2 | o <- out]).

Definition recompute (configs : seq mat) : method (vec * vec) :=
  fun self =>
    match _recompute self (jax_parameters (parameters self)) configs with
    | Ok c =>
        (Ok (_sign c, _logabs c),
         mkJAXSlater (gto_1e self) (expansion self) (_nelec self)
                     (parameters self) (Some c))
    | Raise e => (Raise e, self)
    end.

(** [int(e >= self._nelec[0])] and [e - self._nelec[0]*spin]. *)
Definition spin_of (self : JAXSlater) (e : Z) : bool :=
  (Z.of_nat (_nelec self).1 <=? e)%Z.

Definition local_index (self : JAXSlater) (e : Z) : Z :=
  (e - Z.of_nat (_nelec self).1 * (if spin_of self e then 1 else 0))%Z.

(** [updateinternals]: its guard is [if True or saved_values is None], so
    the body is [self.recompute(configs); return]; the statements after
    the guard are never reached and neither [mask] nor [saved_values] is
    read. *)
Definition updateinternals (e : Z) (epos : seq vec) (configs : seq mat)
    (mask : option (seq bool)) (saved_values : option (seq vec))
  : method unit :=
  fun self =>
    let spin := spin_of self e in
    let e := local_index self e in
    match recompute configs self with
    | (Ok _, self') => (Ok tt, self')
    | (Raise err, self') => (Raise err, self')
    end.

(** [jax.vmap] over three mapped arguments. *)
Fixpoint mapM3 {A B C D : Type} (f : A -> B -> C -> res D)
    (a : seq A) (b : seq B) (c : seq C) : res (seq D) :=
  match a, b, c with
  | [::], [::], [::] => Ok [::]
  | x :: a', y :: b', z :: c' =>
      d <- f x y z ;; ds <- mapM3 f a' b' c' ;; Ok (d :: ds)
  | _, _, _ => Raise ShapeError
  end.

(** [self._testvalue[spin]]. *)
Definition _testvalue (self : JAXSlater) (spin : bool)
    (p : ndarray * ndarray * ndarray) (dets_up dets_down : seq SlaterState)
    (e : Z) (xyz : seq vec) : res (vec * seq vec) :=
  det_params <- as_det_params p ;;
  out <- mapM3 (fun up down pos =>
                  (if spin then testvalue_down else testvalue_up)
                    (gto_1e self) (expansion self) det_params up down e pos)
               dets_up dets_down xyz ;;
  Ok ([seq o.1 | o <- out], [seq o.2 | o <- out]).

(** The positions handed to [testvalue]: one per configuration, or
    several candidates per configuration. *)
Inductive positions : Type :=
  | Pos2 (xyz : seq vec)
  | Pos3 (xyz : seq (seq vec)).

(** [a[mask]] with a boolean mask; [a[None]] adds a leading axis. *)
Definition mask_select {A : Type} (mask : seq bool) (a : seq A) : res (seq A) :=
  if size mask == size a then Ok (seq.mask mask a) else Raise IndexError.

Definition transpose (m : mat) : mat :=
  [seq col_nat m j | j <- iota 0 (ncols m)].

(** [testvalue].  The message printed in the branch for several
    candidate positions is console output, which the model does not
    represent. *)
Definition testvalue (e : Z) (epos : positions) (mask : option (seq bool))
  : method (ndarray * option (seq vec)) :=
  fun self =>
    let spin := spin_of self e in
    let e := local_index self e in
    let r :=
      match cache self with
      | None => Raise AttributeError
      | Some c =>
          let p := jax_parameters (parameters self) in
          match epos with
          | Pos3 xyz =>
              allvals <- mapM (fun i =>
                  out <- _testvalue self spin p (_dets_up c) (_dets_down c)
                           e [seq nth [::] cfg i | cfg <- xyz] ;;
                  Ok out.1)
                (iota 0 (size (head [::] xyz))) ;;
              match mask with
              | Some m => sel <- mask_select m (transpose allvals) ;;
                          Ok (Arr2 sel, None)
              | None => Ok (Arr3 [:: transpose allvals], None)
              end
          | Pos2 xyz =>
              out <- _testvalue self spin p (_dets_up c) (_dets_down c) e xyz ;;
              match mask with
              | Some m => sel <- mask_select m out.1 ;; Ok (Arr1 sel, Some out.2)
              | None => Ok (Arr2 [:: out.1], Some out.2)
              end
          end
      end in
    (r, self).

(** * Properties *)

(** ** The parameter container *)

Definition known_keys : seq string :=
  [:: "det_coeff"; "mo_coeff_alpha"; "mo_coeff_beta"]%string.

(** The tuple of the container is built from the three current entries. *)
Definition pm_consistent (pm : _parameterMap) : Prop :=
  exists c a b,
    [/\ dict_get (pm_parameters pm) "det_coeff" = Some c,
        dict_get (pm_parameters pm) "mo_coeff_alpha" = Some a,
        dict_get (pm_parameters pm) "mo_coeff_beta" = Some b
      & jax_parameters pm = (c, a, b)].

(** The calls a client can make on the container. *)
Inductive pm_call : Type :=
  | CallSetitem (key : string) (item : ndarray)
  | CallGetitem (key : string)
  | CallLen
  | CallDelitem (key : string)
  | CallClear
  | CallCopy
  | CallHasKey (key : string)
  | CallUpdate (args : seq dict) (kwargs : dict)
  | CallKeys
  | CallValues.

Definition pm_step (pm : _parameterMap) (c : pm_call) : _parameterMap :=
  match c with
  | CallSetitem k v => (pm_setitem k v pm).2
  | CallGetitem k => (pm_getitem k pm).2
  | CallLen => (pm_len pm).2
  | CallDelitem k => (pm_delitem k pm).2
  | CallClear => (pm_clear pm).2
  | CallCopy => (pm_copy pm).2
  | CallHasKey k => (pm_has_key k pm).2
  | CallUpdate args kwargs => (pm_update args kwargs pm).2
  | CallKeys => (pm_keys pm).2
  | CallValues => (pm_values pm).2
  end.

(** The container of a wavefunction object after any history of calls. *)
Definition pm_after (jp : ndarray * ndarray * ndarray) (calls : seq pm_call)
  : _parameterMap := foldl pm_step (pm_init jp) calls.

Lemma dict_get_set_eq (d : dict) (k : string) (v : ndarray) :
  dict_get (dict_set d k v) k = Some v.
Proof.
elim: d => [|[k' v'] d IH] /=; first by rewrite String.eqb_refl.
by case E: (String.eqb k' k) => /=; rewrite E.
Qed.

Lemma dict_get_set_neq (d : dict) (k k' : string) (v : ndarray) :
  k <> k' -> dict_get (dict_set d k v) k' = dict_get d k'.
Proof.
move=> ne; elim: d => [|[k0 v0] d IH] /=.
  by case E: (String.eqb k k') => //; move/String.eqb_eq: E.
case E: (String.eqb k0 k) => /=; last by rewrite IH.
move/String.eqb_eq: E => E; subst k0.
by case E': (String.eqb k k') => //; move/String.eqb_eq: E'.
Qed.

Lemma dict_get_set (d : dict) (k k' : string) (v : ndarray) :
  dict_get (dict_set d k v) k' =
  if String.eqb k k' then Some v else dict_get d k'.
Proof.
case E: (String.eqb k k').
  by move/String.eqb_eq: E => <-; rewrite dict_get_set_eq.
by apply: dict_get_set_neq => /String.eqb_eq; rewrite E.
Qed.

Lemma pm_init_consistent (jp : ndarray * ndarray * ndarray) :
  pm_consistent (pm_init jp).
Proof. by case: jp => [[c a] b]; exists c, a, b. Qed.

Lemma pm_setitem_spec (key : string) (item : ndarray) (pm : _parameterMap) :
  pm_consistent pm ->
  let d' := dict_set (pm_parameters pm) key item in
  exists c a b,
    [/\ dict_get d' "det_coeff" = Some c,
        dict_get d' "mo_coeff_alpha" = Some a,
        dict_get d' "mo_coeff_beta" = Some b
      & pm_setitem key item pm = (Ok tt, mk_parameterMap (c, a, b) d')].
Proof.
case=> c [a] [b] [Hc Ha Hb _] d'.
have get k x : dict_get (pm_parameters pm) k = Some x ->
    exists y, dict_get d' k = Some y.
  by move=> Hk; rewrite /d' dict_get_set Hk; case: String.eqb; eexists.
case: (get _ _ Hc) => c' Hc'; case: (get _ _ Ha) => a' Ha'.
case: (get _ _ Hb) => b' Hb'; exists c', a', b'; split=> //.
by rewrite /pm_setitem /dict_item /= -/d' Hc' Ha' Hb'.
Qed.

Lemma pm_step_consistent (pm : _parameterMap) (c : pm_call) :
  pm_consistent pm -> pm_consistent (pm_step pm c).
Proof.
case: c => //= key item Hpm.
case: (pm_setitem_spec key item Hpm) => c [a] [b] [Hc Ha Hb ->] /=.
by exists c, a, b.
Qed.

Lemma pm_after_consistent (jp : ndarray * ndarray * ndarray)
    (calls : seq pm_call) : pm_consistent (pm_after jp calls).
Proof.
rewrite /pm_after; move: (pm_init_consistent jp).
by elim: calls (pm_init jp) => //= c calls IH pm /(pm_step_consistent c) /IH.
Qed.

(** C10. On the parameter container of any wavefunction object, after any
    history of calls: [__delitem__], [clear] and [update] raise
    NotImplementedError and leave the dictionary and the parameter tuple
    as they were; [__setitem__] (on the three known keys as on any key)
    succeeds, stores the item, keeps the other entries, and rebuilds the
    tuple from the three current entries. *)
Theorem parameterMap_guarded_container
    (jp : ndarray * ndarray * ndarray) (calls : seq pm_call) :
  let pm := pm_after jp calls in
  [/\ forall key, exists msg,
        pm_delitem key pm = (Raise (NotImplementedError msg), pm),
      exists msg, pm_clear pm = (Raise (NotImplementedError msg), pm),
      forall args kwargs, exists msg,
        pm_update args kwargs pm = (Raise (NotImplementedError msg), pm)
    & forall key item, exists pm',
        [/\ pm_setitem key item pm = (Ok tt, pm'),
            dict_get (pm_parameters pm') key = Some item,
            forall k, k <> key ->
              dict_get (pm_parameters pm') k = dict_get (pm_parameters pm) k
          & pm_consistent pm']].
Proof.
move=> pm; split; try by move=> *; eexists.
move=> key item.
case: (pm_setitem_spec key item (pm_after_consistent jp calls)).
move=> c [a] [b] [Hc Ha Hb Hset]; eexists; split; first exact: Hset.
- exact: dict_get_set_eq.
- by move=> k ne /=; apply: dict_get_set_neq => E; apply: ne.
- by exists c, a, b.
Qed.

(** ** The propose operation *)

(** C9. [JAXSlater.testvalue] leaves the wavefunction object (cached
    state, parameters and every other field) as it found it, for every
    electron index, positions and mask; so a second identical call
    returns the same result, again without a change. *)
Theorem testvalue_is_pure (e : Z) (epos : positions)
    (mask : option (seq bool)) (self : JAXSlater) :
  let out1 := testvalue e epos mask self in
  let out2 := testvalue e epos mask out1.2 in
  [/\ out1.2 = self, out2.1 = out1.1 & out2.2 = self].
Proof. by []. Qed.

(** ** Scalars and finite arrays: auxiliary facts *)

Lemma RltbP (x y : R) : reflect (x < y)%Re (Rltb x y).
Proof. by rewrite /Rltb; case: Rlt_dec => h; constructor. Qed.

Lemma eqr_false (a b : R) : a <> b -> (a == b) = false.
Proof. by move=> ne; apply/eqP. Qed.

Lemma Rsgn_pos (r : R) : (0 < r)%Re -> Rsgn r = 1%Re.
Proof. by rewrite /Rsgn => /RltbP ->. Qed.

Lemma Rsgn_neg (r : R) : (r < 0)%Re -> Rsgn r = (-1)%Re.
Proof.
move=> h; rewrite /Rsgn; case: RltbP => [h'|_]; first by lra.
by move/RltbP: h => ->.
Qed.

Lemma Rsgn_0 : Rsgn 0 = 0%Re.
Proof.
rewrite /Rsgn; case: (RltbP 0 0) => [h|_]; first by lra.
by case: (RltbP 0 0) => [h|_] //; lra.
Qed.

Lemma Rsgn_cases (r : R) :
  [\/ (0 < r)%Re /\ Rsgn r = 1%Re, (r < 0)%Re /\ Rsgn r = (-1)%Re
    | r = 0%Re /\ Rsgn r = 0%Re].
Proof.
case: (Rtotal_order 0 r) => [h|[h|h]].
- by constructor 1; split=> //; apply: Rsgn_pos.
- by constructor 3; split=> //; rewrite -h Rsgn_0.
- by constructor 2; split=> //; apply: Rsgn_neg.
Qed.

Lemma Rsgn_abs (r : R) : (Rsgn r * Rabs r)%Re = r.
Proof.
case: (Rsgn_cases r) => [[h ->]|[h ->]|[h ->]].
- by rewrite Rabs_pos_eq; lra.
- by rewrite Rabs_left; lra.
- by rewrite h Rabs_R0; lra.
Qed.

Lemma Rsgn_mul (a b : R) : Rsgn (a * b) = (Rsgn a * Rsgn b)%Re.
Proof.
case: (Rsgn_cases a) => [[ha ->]|[ha ->]|[ha ->]];
case: (Rsgn_cases b) => [[hb ->]|[hb ->]|[hb ->]];
  try (by subst; rewrite ?Rmult_0_l ?Rmult_0_r Rsgn_0; lra).
- by rewrite Rsgn_pos; [nra | lra].
- by rewrite Rsgn_neg; [nra | lra].
- by rewrite Rsgn_neg; [nra | lra].
- by rewrite Rsgn_pos; [nra | lra].
Qed.

Lemma xlog_abs (d : R) :
  xlog (xabs (Fin d)) = if d == R0 then NInf else Fin (ln (Rabs d)).
Proof.
rewrite /xabs /xlog; case: (d =P R0) => [->|ne].
  by rewrite (_ : Rabs R0 = R0) ?eqxx //; exact: Rabs_R0.
have h := Rabs_pos_lt _ ne.
rewrite eqr_false; first by move=> e; move: h; rewrite e; lra.
by case: (RltbP (Rabs d) 0) => // h'; lra.
Qed.

(** A term of the sum: coefficient, sign and shifted log-magnitude. *)
Lemma term_sign_logabs (c d r : R) :
  xmul (xmul (Fin c) (sign_logabs d).1)
       (xexp (xsub (sign_logabs d).2 (Fin r))) =
  Fin (c * d * exp (- r))%Re.
Proof.
rewrite /sign_logabs /fst /snd xlog_abs.
case: (d =P R0) => [->|ne].
  rewrite (_ : Rsgn R0 = R0); first exact: Rsgn_0.
  by rewrite /=; congr Fin; lra.
rewrite /=; congr Fin; rewrite exp_plus exp_ln; first exact: Rabs_pos_lt.
by rewrite -{3}(Rsgn_abs d); ring.
Qed.

Lemma sign_logabs_mul (d1 d2 : R) :
  (xmul (sign_logabs d1).1 (sign_logabs d2).1,
   xadd (sign_logabs d1).2 (sign_logabs d2).2) = sign_logabs (d1 * d2).
Proof.
rewrite /sign_logabs /fst /snd !xlog_abs.
rewrite [xmul _ _]/= Rsgn_mul; congr (_, _).
case: (d1 =P R0) => [->|n1].
  by rewrite Rmult_0_l eqxx; case: ifP.
case: (d2 =P R0) => [->|n2]; first by rewrite Rmult_0_r eqxx.
rewrite eqr_false /=; first by apply: Rmult_integral_contrapositive.
by rewrite Rabs_mult ln_mult //; apply: Rabs_pos_lt.
Qed.

(** ** Finite arrays *)

Definition F1 (v : seq R) : vec := [seq Fin x | x <- v].
Definition F2 (m : seq (seq R)) : mat := [seq F1 r | r <- m].

Local Open Scope ring_scope.

Lemma size_F1 v : size (F1 v) = size v. Proof. exact: size_map. Qed.
Lemma size_F2 m : size (F2 m) = size m. Proof. exact: size_map. Qed.

Lemma nth_F1 v i : (i < size v)%N -> nth NaN (F1 v) i = Fin (nth 0 v i).
Proof. by move=> lt; rewrite (nth_map 0). Qed.

Lemma fin_val_nth_F1 v i : fin_val (nth NaN (F1 v) i) = nth 0 v i.
Proof.
case: (ltnP i (size v)) => h; first by rewrite nth_F1.
by rewrite !nth_default // size_F1.
Qed.

Lemma nth_F2 m i : nth [::] (F2 m) i = F1 (nth [::] m i).
Proof.
case: (ltnP i (size m)) => h; first by rewrite (nth_map [::]).
by rewrite !nth_default // size_F2.
Qed.

Lemma all_fin_F1 v : all is_fin (F1 v).
Proof. by rewrite all_map; apply/allP. Qed.

Lemma all_finite_F2 m : all_finite (F2 m).
Proof. by rewrite /all_finite all_map; apply/allP => r _ /=; exact: all_fin_F1. Qed.

Lemma F1_fin_val (v : vec) : all is_fin v -> v = F1 [seq fin_val x | x <- v].
Proof. by elim: v => //= -[r| | |] v IH //= /IH {1}->. Qed.

Lemma F2_fin_val (m : mat) :
  all_finite m -> m = F2 [seq [seq fin_val x | x <- r] | r <- m].
Proof. by elim: m => //= r m IH /andP [/F1_fin_val {1}-> /IH {1}->]. Qed.

Lemma bcast2_same f (a b : vec) :
  size a = size b -> bcast2 f a b = Ok (zipwith f a b).
Proof. by rewrite /bcast2 => ->; rewrite eqxx. Qed.

Lemma size_zipwith (A B C : Type) (f : A -> B -> C) a b :
  size (zipwith f a b) = minn (size a) (size b).
Proof. by rewrite /zipwith size_map size_zip. Qed.

Lemma nth_zipwith (A B C : Type) (f : A -> B -> C) a b x y z i :
  size a = size b -> (i < size a)%N ->
  nth z (zipwith f a b) i = f (nth x a i) (nth y b i).
Proof.
move=> eq lt; rewrite /zipwith (nth_map (x, y)) ?size_zip -?eq ?minnn //.
by rewrite nth_zip.
Qed.

Lemma zipwith_F1 (f : xreal -> xreal -> xreal) (g : R -> R -> R) a b :
  (forall x y, f (Fin x) (Fin y) = Fin (g x y)) ->
  zipwith f (F1 a) (F1 b) = F1 (zipwith g a b).
Proof.
move=> fg; rewrite /zipwith /F1.
elim: a b => [|x a IH] [|y b] //=.
by rewrite fg IH.
Qed.

Definition rsum (v : seq R) : R := \sum_(x <- v) x.

Lemma xsum_F1 v : xsum (F1 v) = Fin (rsum v).
Proof.
rewrite /rsum; elim: v => [|x v IH] /=; first by rewrite big_nil.
by rewrite big_cons -/(xsum _) IH.
Qed.

Definition rdot (a b : seq R) : R := \sum_(i < size a) nth 0 a i * nth 0 b i.

Lemma rsum_zipwith_mul a b :
  size a = size b -> rsum (zipwith *%R a b) = rdot a b.
Proof.
rewrite /rsum /rdot /zipwith.
elim: a b => [|x a IH] [|y b] //= => [_|[eq]].
  by rewrite big_nil big_ord0.
by rewrite big_cons big_ord_recl /= IH.
Qed.

Lemma dotv_F1 a b :
  size a = size b -> dotv (F1 a) (F1 b) = Ok (Fin (rdot a b)).
Proof.
move=> eq; rewrite /dotv !size_F1 eq eqxx.
by rewrite (zipwith_F1 (g := *%R)) // xsum_F1 rsum_zipwith_mul.
Qed.

Lemma mapM_ok (A B : Type) (P : pred A) (f : A -> res B) (g : A -> B)
    (s : seq A) :
  (forall x, P x -> f x = Ok (g x)) -> all P s ->
  mapM f s = Ok [seq g x | x <- s].
Proof.
by move=> H; elim: s => //= a s IH /andP [/H -> /IH ->].
Qed.

Lemma mapM_size (A B : Type) (f : A -> res B) (s : seq A) (t : seq B) :
  mapM f s = Ok t -> size t = size s.
Proof.
elim: s t => [|a s IH] t /=; first by case=> <-.
case: (f a) => //= b; case E: (mapM f s) => [bs|] //= [<-] /=.
by rewrite (IH _ E).
Qed.

Lemma mapM_nth (A B : Type) (f : A -> res B) (s : seq A) (t : seq B) a0 b0 i :
  mapM f s = Ok t -> (i < size s)%N -> f (nth a0 s i) = Ok (nth b0 t i).
Proof.
elim: s t i => [|a s IH] t i //=.
case E: (f a) => [b|] //=; case E': (mapM f s) => [bs|] //= [<-].
by case: i => [|i] //= lt; apply: IH.
Qed.

Lemma mapM_nth_ok (A B : Type) (f : A -> res B) (s : seq A) a0 (g : nat -> B) :
  (forall i, (i < size s)%N -> f (nth a0 s i) = Ok (g i)) ->
  mapM f s = Ok (mkseq g (size s)).
Proof.
elim: s g => [|a s IH] g H //=.
rewrite (H 0%N) //= (IH (fun i => g i.+1)); first by move=> i lt; apply: (H i.+1).
by rewrite /= /mkseq /= -[1%N]addn0 iotaDl -map_comp.
Qed.

Definition rect (n k : nat) (m : seq (seq R)) : bool :=
  (size m == n) && all (fun r => size r == k) m.

Lemma rect_size n k m : rect n k m -> size m = n.
Proof. by case/andP => /eqP. Qed.

Lemma rect_row n k m i : rect n k m -> (i < n)%N -> size (nth [::] m i) = k.
Proof.
case/andP => /eqP sz /all_nthP H lt; apply/eqP/H.
by rewrite sz.
Qed.

Lemma rect_ncols n k m : rect n k m -> (0 < n)%N -> ncols (F2 m) = k.
Proof.
move=> rc n0; rewrite /ncols -nth0 nth_F2 size_F1.
exact: (rect_row rc).
Qed.

Lemma col_nat_F2 n k m j :
  rect n k m -> (j < k)%N ->
  col_nat (F2 m) j = F1 [seq nth 0 r j | r <- m].
Proof.
case/andP => _ /allP H lt; rewrite /col_nat /F2 /F1 -!map_comp.
apply/eq_in_map => r /H /eqP sz /=.
by rewrite (nth_map 0) // sz.
Qed.

(** The product of a row vector with a matrix, on lists of reals. *)
Definition rvecmat (k : nat) (v : seq R) (m : seq (seq R)) : seq R :=
  mkseq (fun j => \sum_(i < size v) nth 0 v i * nth 0 (nth [::] m i) j) k.

Lemma vecmat_F n k v m :
  size v = n -> rect n k m -> (0 < n)%N ->
  vecmat (F1 v) (F2 m) = Ok (F1 (rvecmat k v m)).
Proof.
move=> sv rc n0; rewrite /vecmat size_F1 size_F2 sv (rect_size rc) eqxx.
rewrite (rect_ncols rc n0) /rvecmat /mkseq /F1 -map_comp; congr Ok.
apply/eq_in_map => j; rewrite mem_iota add0n => /andP [_ lt] /=.
rewrite (col_nat_F2 rc) // (zipwith_F1 (g := *%R)) // xsum_F1.
rewrite rsum_zipwith_mul; first by rewrite size_map sv (rect_size rc).
rewrite /rdot; congr Fin.
apply: eq_bigr => i _; congr (_ * _).
by rewrite (nth_map [::]) // (rect_size rc) -sv.
Qed.

Lemma jnp_take_F1 v (idx : seq nat) :
  all (fun i => i < size v)%N idx ->
  jnp_take (F1 v) idx = F1 [seq nth 0 v i | i <- idx].
Proof.
move=> /allP H; rewrite /jnp_take /F1 -map_comp.
by apply/eq_in_map => i /H lt /=; rewrite (nth_map 0).
Qed.

Lemma clamp_index_nat n (e : nat) : (e < n)%N -> clamp_index n (Z.of_nat e) = e.
Proof.
move=> /ltP lt; rewrite /clamp_index.
have -> : (Z.of_nat e <? 0)%Z = false by apply/Z.ltb_ge; lia.
by rewrite Z.min_l ?Z.max_r ?Nat2Z.id //; lia.
Qed.

Lemma jnp_index_F1 v (e : nat) :
  (e < size v)%N -> jnp_index (F1 v) (Z.of_nat e) = Ok (Fin (nth 0 v e)).
Proof.
move=> lt; rewrite /jnp_index; case E: (F1 v) => [|x w].
  by move: lt; rewrite -(size_F1 v) E.
by rewrite -E size_F1 clamp_index_nat // nth_F1.
Qed.

Lemma mapM_map (A B C : Type) (f : B -> res C) (h : A -> B) (s : seq A) :
  mapM f [seq h x | x <- s] = mapM (fun x => f (h x)) s.
Proof. by elim: s => //= a s ->. Qed.

Lemma column_F2 n k m (e : nat) :
  rect n k m -> (0 < n)%N -> (e < k)%N ->
  column (F2 m) (Z.of_nat e) = Ok (F1 [seq nth 0 r e | r <- m]).
Proof.
case/andP => /eqP sz /allP H n0 lt.
have -> : column (F2 m) (Z.of_nat e) =
          mapM (fun r => jnp_index r (Z.of_nat e)) (F2 m).
  by rewrite /column; case: m sz {H} => [sz0|//]; move: n0; rewrite -sz0.
rewrite /F2 mapM_map.
rewrite (mapM_ok (P := fun r => size r == k) (g := fun r => Fin (nth 0 r e))).
- by move=> r /eqP sr; rewrite jnp_index_F1 // sr.
- exact/allP.
by rewrite /F1 -map_comp.
Qed.

(** ** The combiner as the specification words it *)

(** A term of the expansion: its coefficient and the indices of its
    up and down determinants. *)
Record ci_term : Type := mk_ci_term {
  t_coeff : xreal;
  t_up : nat;
  t_down : nat
}.

Definition ci_terms (ci : vec) (mu md : seq nat) : seq ci_term :=
  [seq mk_ci_term p.1 p.2.1 p.2.2 | p <- zip ci (zip mu md)].

Definition term_logmag (up_log down_log : vec) (t : ci_term) : xreal :=
  xadd (nth NaN up_log (t_up t)) (nth NaN down_log (t_down t)).

Definition term_sign (up_sign down_sign : vec) (t : ci_term) : xreal :=
  xmul (nth NaN up_sign (t_up t)) (nth NaN down_sign (t_down t)).

(** The reference: the maximum log-magnitude across the terms. *)
Definition reference (logmags : vec) : option xreal :=
  if logmags is l :: ls then Some (foldl xmax l ls) else None.

Definition log_sum_exp_sign (terms : seq ci_term)
    (up_sign up_log down_sign down_log : vec) : option (xreal * xreal) :=
  if reference [seq term_logmag up_log down_log t | t <- terms] is Some ref
  then
    let total :=
      xsum [seq xmul (xmul (t_coeff t) (term_sign up_sign down_sign t))
                     (xexp (xsub (term_logmag up_log down_log t) ref))
           | t <- terms] in
    Some (xsign total, xadd (xlog (xabs total)) ref)
  else None.

Lemma size_jnp_take a idx : size (jnp_take a idx) = size idx.
Proof. exact: size_map. Qed.

Lemma take_zip_terms (f : xreal -> xreal -> xreal) (a b : vec) ci mu md :
  size ci = size mu -> size mu = size md ->
  zipwith f (jnp_take a mu) (jnp_take b md) =
  [seq f (nth NaN a (t_up t)) (nth NaN b (t_down t)) | t <- ci_terms ci mu md].
Proof.
rewrite /zipwith /jnp_take /ci_terms.
elim: ci mu md => [|c ci IH] [|i mu] [|j md] //= [e1] [e2].
by rewrite IH.
Qed.

Lemma coeff_zip_terms (g h : ci_term -> xreal) ci mu md :
  size ci = size mu -> size mu = size md ->
  zipwith xmul (zipwith xmul ci [seq g t | t <- ci_terms ci mu md])
               [seq h t | t <- ci_terms ci mu md] =
  [seq xmul (xmul (t_coeff t) (g t)) (h t) | t <- ci_terms ci mu md].
Proof.
rewrite /zipwith /ci_terms.
elim: ci mu md => [|c ci IH] [|i mu] [|j md] //= [e1] [e2].
by rewrite IH.
Qed.

Lemma size_ci_terms ci mu md :
  size ci = size mu -> size mu = size md -> size (ci_terms ci mu md) = size ci.
Proof.
by move=> e1 e2; rewrite /ci_terms size_map !size_zip -e2 -e1 !minnn.
Qed.

Lemma jnp_max_reference (l : vec) :
  jnp_max l = if reference l is Some r then Ok r else Raise ValueError.
Proof. by case: l. Qed.

Lemma evaluate_expansionE (gto_evaluator : mat -> mat)
    (expansion : DeterminantExpansion) (nelec : nat * nat)
    (det_params : DeterminantParameters) (xyz : mat) :
  size (ci_coeff det_params) = size (mapping_up expansion) ->
  size (mapping_up expansion) = size (mapping_down expansion) ->
  evaluate_expansion gto_evaluator expansion nelec det_params xyz =
  (dets_up <- compute_determinants (mo_coeff_alpha det_params) gto_evaluator
                (determinants_up expansion) (take nelec.1 xyz) ;;
   dets_down <- compute_determinants (mo_coeff_beta det_params) gto_evaluator
                (determinants_down expansion) (drop nelec.1 xyz) ;;
   match log_sum_exp_sign
           (ci_terms (ci_coeff det_params) (mapping_up expansion)
                     (mapping_down expansion))
           (sign dets_up) (logabsdet dets_up)
           (sign dets_down) (logabsdet dets_down) with
   | Some (s, l) => Ok (s, l, dets_up, dets_down)
   | None => Raise ValueError
   end).
Proof.
move=> e1 e2; rewrite /evaluate_expansion.
case: compute_determinants => [up|] //=.
case: compute_determinants => [down|] //=.
rewrite !bcast2_same ?size_jnp_take //= !(take_zip_terms _ _ _ e1 e2).
rewrite jnp_max_reference /log_sum_exp_sign.
rewrite -/(term_logmag _ _) /=.
case: reference => [ref|] //=.
have sT := size_ci_terms e1 e2.
rewrite bcast2_same; first by rewrite size_map sT.
rewrite [bind _ _]/= bcast2_same.
  by rewrite size_zipwith !size_map ?size_zip -?e2 -?e1 ?minnn.
by rewrite /= -map_comp coeff_zip_terms.
Qed.

(** ** The reference is the maximum *)

(** The order of the extended reals; NaN is not comparable. *)
Definition xle (x y : xreal) : bool :=
  match x, y with
  | NaN, _ | _, NaN => false
  | NInf, _ | _, PInf => true
  | Fin a, Fin b => ~~ Rltb b a
  | _, _ => false
  end.

Definition is_nan (x : xreal) : bool := if x is NaN then true else false.

(** [ref] is the maximum of the log-magnitudes [ls] as [jnp.max] gives
    it: NaN when one of them is NaN, and otherwise one of them that no
    other exceeds. *)
Definition maximum_of (ls : vec) (ref : xreal) : Prop :=
  if has is_nan ls then ref = NaN
  else (exists2 i, (i < size ls)%N & nth NaN ls i = ref) /\
       (forall i, (i < size ls)%N -> xle (nth NaN ls i) ref).

Lemma RlebP (a b : R) : reflect (a <= b)%Re (~~ Rltb b a).
Proof.
by apply: (iffP idP) => [/RltbP|le]; [|apply/RltbP]; lra.
Qed.

Lemma xle_refl (x : xreal) : ~~ is_nan x -> xle x x.
Proof. by case: x => //= a _; apply/RlebP; lra. Qed.

Lemma xle_trans (y x z : xreal) : xle x y -> xle y z -> xle x z.
Proof.
case: x y z => [a| | |] [b| | |] [c| | |] //=.
by move=> /RlebP ab /RlebP bc; apply/RlebP; lra.
Qed.

Lemma is_nan_xmax (x y : xreal) : is_nan (xmax x y) = is_nan x || is_nan y.
Proof. by case: x y => [a| | |] [b| | |]. Qed.

Lemma xle_xmaxl (x y : xreal) :
  ~~ is_nan x -> ~~ is_nan y -> xle x (xmax x y).
Proof.
case: x y => [a| | |] [b| | |] //= _ _; apply/RlebP; last by lra.
by have := Rmax_l a b; lra.
Qed.

Lemma xle_xmaxr (x y : xreal) :
  ~~ is_nan x -> ~~ is_nan y -> xle y (xmax x y).
Proof.
case: x y => [a| | |] [b| | |] //= _ _; apply/RlebP; last by lra.
by have := Rmax_r a b; lra.
Qed.

Lemma xmax_either (x y : xreal) :
  ~~ is_nan x -> ~~ is_nan y -> xmax x y = x \/ xmax x y = y.
Proof.
case: x y => [a| | |] [b| | |] //= _ _; try by [left | right].
by rewrite /Rmax; case: Rle_dec => _; [right | left].
Qed.

Lemma foldl_xmax_maximum (acc : xreal) (ls : vec) :
  maximum_of (acc :: ls) (foldl xmax acc ls).
Proof.
rewrite /maximum_of.
elim: ls acc => [|x ls IH] acc /=.
  rewrite orbF; case N: (is_nan acc); first by case: acc N.
  split; first by exists 0%N.
  by case=> // _; rewrite xle_refl ?N.
have := IH (xmax acc x); rewrite /= is_nan_xmax -orbA.
case Na: (is_nan acc) => /=; first by [].
case Nx: (is_nan x) => /=; first by [].
case: (has is_nan ls) => // -[[i li Ei] ub]; split.
- case: i li Ei => [_ /= Ei|i li /= Ei]; last by exists i.+2.
  by case: (@xmax_either acc x) => [||E|E]; rewrite ?Na ?Nx // -Ei E;
     [exists 0%N | exists 1%N].
- move=> [_|[_|j lj]] /=.
  + apply: xle_trans (ub 0%N isT).
    by rewrite /= xle_xmaxl ?Na ?Nx.
  + apply: xle_trans (ub 0%N isT).
    by rewrite /= xle_xmaxr ?Na ?Nx.
  + exact: (ub j.+1).
Qed.


Import GRing.Theory.

(** ** Examples: a one-electron wavefunction *)

(** One basis function, the first coordinate of the position. *)
Definition gto_x (p : vec) : vec := [:: nth NaN p 0].

Definition expansion1 : DeterminantExpansion :=
  mkDeterminantExpansion [:: 0%N] [:: 0%N] [:: [:: 0%N]] [:: [::]].

Definition params1 : DeterminantParameters :=
  mkDeterminantParameters [:: Fin 1] [:: [:: Fin 1]] [:: [:: Fin 1]].

Definition config1 (x : R) : mat := [:: [:: Fin x; Fin 0; Fin 0]].

Lemma mx_of_11 (a : R) : mx_of 1 [:: [:: Fin a]] = a%:M.
Proof.
by apply/matrixP => i j; rewrite !mxE !ord1 /=.
Qed.

Lemma slogdet_11 (a : R) :
  linalg_slogdet [:: [:: Fin a]] = Ok (sign_logabs a).
Proof. by rewrite /linalg_slogdet /= mx_of_11 det_scalar1. Qed.

Lemma slogdet_00 : linalg_slogdet [::] = Ok (sign_logabs 1).
Proof. by rewrite /linalg_slogdet /= det_mx00. Qed.

Lemma sign_logabs_1 : sign_logabs 1 = (Fin 1, Fin 0).
Proof.
rewrite /sign_logabs xlog_abs Rsgn_pos; first by lra.
rewrite eqr_false; first by move=> e; have : (1 = 0)%Re by []; lra.
by rewrite Rabs_R1 ln_1.
Qed.

Lemma inv_00 : linalg_inv [::] = Ok [::].
Proof.
rewrite /linalg_inv /= det_mx00 oner_neq0 /mat_of_mx.
by rewrite (_ : enum 'I_0 = [::]) //; apply: size0nil; rewrite size_enum_ord.
Qed.

Lemma inv_11 (a : R) : a <> 0%Re -> linalg_inv [:: [:: Fin a]] = Ok [:: [:: Fin (/ a)%Re]].
Proof.
move=> ne; rewrite /linalg_inv /= mx_of_11 det_scalar1.
have -> : (a != 0) by apply/eqP.
rewrite /mat_of_mx enum_ordSl (_ : enum 'I_0 = [::]) /=.
  by apply: size0nil; rewrite size_enum_ord.
rewrite invmx_scalar mxE eqxx /=.
by rewrite mulr1n.
Qed.

Lemma mat_of_mx_11 (M : 'M[R]_1) : mat_of_mx M = [:: [:: Fin (M ord0 ord0)]].
Proof.
rewrite /mat_of_mx enum_ordSl (_ : enum 'I_0 = [::]) //.
by apply: size0nil; rewrite size_enum_ord.
Qed.

Lemma xdiv_one_zero : xdiv (Fin 1) (Fin 0) = PInf.
Proof.
rewrite /xdiv eqxx eqr_false; first by move=> e; have : (1 = 0)%Re by []; lra.
by rewrite (introT (RltbP _ _)) //; lra.
Qed.

Lemma compute_determinants_x (x : R) :
  compute_determinants [:: [:: Fin 1]] (gto_ne gto_x) [:: [:: 0%N]]
    (config1 x) =
  Ok (mkSlaterState [:: [:: Fin x]] [:: Fin (Rsgn x)]
        [:: xlog (xabs (Fin x))]
        [:: if x == 0 then [:: [:: PInf]] else [:: [:: Fin (/ x)%Re]]]).
Proof.
rewrite /compute_determinants /jnp_dot /= /vecmat /=.
have -> : (x * 1 + 0)%Re = x by lra.
rewrite /vmap_determinants /vmap_inverse /= /_compute_one_determinant /=.
rewrite /_compute_inverse /linalg_inv /= !mx_of_11 !det_scalar1.
case: (x =P 0) => [->|ne] /=; first by rewrite xdiv_one_zero.
by rewrite mat_of_mx_11 invmx_scalar mxE eqxx mulr1n.
Qed.

Lemma compute_determinants_none (mo : mat) :
  compute_determinants mo (gto_ne gto_x) [:: [::]] [::] =
  Ok (mkSlaterState [::] [:: Fin 1] [:: Fin 0] [:: [::]]).
Proof.
rewrite /compute_determinants /jnp_dot /= /vmap_determinants /vmap_inverse /=.
rewrite /_compute_one_determinant /_compute_inverse /linalg_inv /=.
rewrite !det_mx00 oner_neq0 /=.
case: sign_logabs_1 => /= -> ->.
rewrite /mat_of_mx (_ : enum 'I_0 = [::]) //.
by apply: size0nil; rewrite size_enum_ord.
Qed.

(** ** The single-determinant expansion *)

Definition unit_sign (s : R) : Prop := s = 1%Re \/ s = (-1)%Re.

Lemma single_term_value (su sd lu ld : R) :
  unit_sign su -> unit_sign sd ->
  let ref := xadd (Fin lu) (Fin ld) in
  let values :=
    xsum [:: xmul (xmul (Fin 1) (xmul (Fin su) (Fin sd)))
                  (xexp (xsub (xadd (Fin lu) (Fin ld)) ref))] in
  (xsign values, xadd (xlog (xabs values)) ref) =
  (Fin (su * sd)%Re, Fin (lu + ld)%Re).
Proof.
move=> hu hd /=.
have -> : (lu + ld + - (lu + ld))%Re = 0%Re by lra.
rewrite exp_0.
have -> : (1 * (su * sd) * 1 + 0)%Re = (su * sd)%Re by lra.
rewrite -/(xabs (Fin _)) xlog_abs.
have [h|h] : (su * sd = 1)%Re \/ (su * sd = -1)%Re.
- by case: hu hd => -> [] ->; [left|right|right|left]; lra.
- rewrite h Rsgn_pos; first by lra.
  rewrite eqr_false; first by move=> e; have : (1 = 0)%Re by []; lra.
  by rewrite Rabs_R1 ln_1 /=; congr (_, Fin _); lra.
- rewrite h Rsgn_neg; first by lra.
  rewrite eqr_false; first by move=> e; have : (-1 = 0)%Re by []; lra.
  rewrite Rabs_left; first by lra.
  have -> : (- -1 = 1)%Re by lra.
  by rewrite ln_1 /=; congr (_, Fin _); lra.
Qed.

Lemma evaluate_single_term (gto_evaluator : mat -> mat)
    (expansion : DeterminantExpansion) (nelec : nat * nat)
    (det_params : DeterminantParameters) (xyz : mat)
    (dets_up dets_down : SlaterState) (iu id : nat) (su sd lu ld : R) :
  ci_coeff det_params = [:: Fin 1] ->
  mapping_up expansion = [:: iu] -> mapping_down expansion = [:: id] ->
  compute_determinants (mo_coeff_alpha det_params) gto_evaluator
    (determinants_up expansion) (take nelec.1 xyz) = Ok dets_up ->
  compute_determinants (mo_coeff_beta det_params) gto_evaluator
    (determinants_down expansion) (drop nelec.1 xyz) = Ok dets_down ->
  nth NaN (sign dets_up) iu = Fin su -> unit_sign su ->
  nth NaN (sign dets_down) id = Fin sd -> unit_sign sd ->
  nth NaN (logabsdet dets_up) iu = Fin lu ->
  nth NaN (logabsdet dets_down) id = Fin ld ->
  evaluate_expansion gto_evaluator expansion nelec det_params xyz =
  Ok (Fin (su * sd)%Re, Fin (lu + ld)%Re, dets_up, dets_down).
Proof.
move=> hc hmu hmd hup hdown hsu usu hsd usd hlu hld.
rewrite /evaluate_expansion hup hdown /= hc hmu hmd /jnp_take /=.
rewrite hsu hsd hlu hld /bcast2 /= /jnp_max /=.
by case: (single_term_value lu ld usu usd) => /= -> ->.
Qed.

Lemma evaluate_expansion_of_locals (gto_evaluator : mat -> mat)
    (expansion : DeterminantExpansion) (nelec : nat * nat)
    (det_params : DeterminantParameters) (xyz : mat) :
  evaluate_expansion gto_evaluator expansion nelec det_params xyz =
  (r <- evaluate_expansion_locals gto_evaluator expansion nelec det_params
          xyz ;;
   Ok r.1).
Proof.
rewrite /evaluate_expansion /evaluate_expansion_locals.
case: compute_determinants => //= up; case: compute_determinants => //= down.
case: bcast2 => //= logdets; case: bcast2 => //= signdets.
case: jnp_max => //= ref; case: bcast2 => //= weighted.
by rewrite -map_comp; case: bcast2.
Qed.

(** C8 (amended). An expansion with one term, coefficient 1, whose up
    and down determinants are not singular (signs +1 or -1, finite
    log-magnitudes) evaluates to the plain Slater determinant: the
    product of the two signs and the sum of the two log-magnitudes.  The
    local variables of the evaluation show the combiner adds nothing:
    the reference is that sum and the shifted log-magnitude is zero. *)
Theorem single_determinant_expansion (gto_evaluator : mat -> mat)
    (expansion : DeterminantExpansion) (nelec : nat * nat)
    (det_params : DeterminantParameters) (xyz : mat)
    (dets_up dets_down : SlaterState) (iu id : nat) (su sd lu ld : R) :
  ci_coeff det_params = [:: Fin 1] ->
  mapping_up expansion = [:: iu] -> mapping_down expansion = [:: id] ->
  compute_determinants (mo_coeff_alpha det_params) gto_evaluator
    (determinants_up expansion) (take nelec.1 xyz) = Ok dets_up ->
  compute_determinants (mo_coeff_beta det_params) gto_evaluator
    (determinants_down expansion) (drop nelec.1 xyz) = Ok dets_down ->
  nth NaN (sign dets_up) iu = Fin su -> unit_sign su ->
  nth NaN (sign dets_down) id = Fin sd -> unit_sign sd ->
  nth NaN (logabsdet dets_up) iu = Fin lu ->
  nth NaN (logabsdet dets_down) id = Fin ld ->
  evaluate_expansion gto_evaluator expansion nelec det_params xyz =
    Ok (Fin (su * sd)%Re, Fin (lu + ld)%Re, dets_up, dets_down) /\
  evaluate_expansion_locals gto_evaluator expansion nelec det_params xyz =
    Ok (Fin (su * sd)%Re, Fin (lu + ld)%Re, dets_up, dets_down,
        mk_expansion_locals [:: Fin (lu + ld)%Re] [:: Fin (su * sd)%Re]
          (Fin (lu + ld)%Re) [:: Fin 0]).
Proof.
move=> hc hmu hmd hup hdown hsu usu hsd usd hlu hld.
have E : evaluate_expansion_locals gto_evaluator expansion nelec det_params
           xyz =
    Ok (Fin (su * sd)%Re, Fin (lu + ld)%Re, dets_up, dets_down,
        mk_expansion_locals [:: Fin (lu + ld)%Re] [:: Fin (su * sd)%Re]
          (Fin (lu + ld)%Re) [:: Fin 0]).
  rewrite /evaluate_expansion_locals hup hdown /= hc hmu hmd /jnp_take /=.
  rewrite hsu hsd hlu hld /bcast2 /= /jnp_max /=.
  case: (single_term_value lu ld usu usd) => /= -> ->.
  by congr (Ok (_, _, _, _, mk_expansion_locals _ _ _ [:: Fin _])); lra.
by rewrite evaluate_expansion_of_locals E.
Qed.


Definition state1_up (x : R) : SlaterState :=
  mkSlaterState [:: [:: Fin x]] [:: Fin (Rsgn x)] [:: xlog (xabs (Fin x))]
    [:: if x == 0 then [:: [:: PInf]] else [:: [:: Fin (/ x)%Re]]].

Definition state1_down : SlaterState :=
  mkSlaterState [::] [:: Fin 1] [:: Fin 0] [:: [::]].

Lemma Rsgn_unit (x : R) : x <> 0%Re -> unit_sign (Rsgn x).
Proof.
by case: (Rsgn_cases x) => [[_ ->]|[_ ->]|[-> _]] //; [left|right].
Qed.

Lemma evaluate_expansion1 (x : R) :
  x <> 0%Re ->
  evaluate_expansion (gto_ne gto_x) expansion1 (1%N, 0%N) params1 (config1 x) =
  Ok (Fin (Rsgn x), Fin (ln (Rabs x)), state1_up x, state1_down).
Proof.
move=> ne.
rewrite (@evaluate_single_term _ _ _ _ _ (state1_up x) state1_down 0 0
           (Rsgn x) 1 (ln (Rabs x)) 0) //.
- exact: compute_determinants_x.
- exact: compute_determinants_none.
- exact: Rsgn_unit.
- by left.
- by rewrite /= -/(xabs (Fin x)) xlog_abs eqr_false.
- by congr (Ok (Fin _, Fin _, _, _)); lra.
Qed.

Lemma evaluate_expansion1_node :
  evaluate_expansion (gto_ne gto_x) expansion1 (1%N, 0%N) params1 (config1 0) =
  Ok (NaN, NaN, state1_up 0, state1_down).
Proof.
rewrite /evaluate_expansion [take _ _]/= [drop _ _]/=.
rewrite compute_determinants_x compute_determinants_none /=.
by rewrite /bcast2 /= /state1_up -/(xabs (Fin 0)) xlog_abs !eqxx /=.
Qed.

(** C8, as stated, fails at a node: with the single determinant singular
    the plain Slater determinant is (0, -inf), and [evaluate_expansion]
    returns NaN for both. *)
Lemma single_determinant_node_counterexample :
  exists s l up down,
    [/\ evaluate_expansion (gto_ne gto_x) expansion1 (1%N, 0%N) params1
          (config1 0) = Ok (s, l, up, down),
        ci_coeff params1 = [:: Fin 1],
        xmul (nth NaN (sign up) 0) (nth NaN (sign down) 0) = Fin 0,
        xadd (nth NaN (logabsdet up) 0) (nth NaN (logabsdet down) 0) = NInf
      & s <> Fin 0 /\ l <> NInf].
Proof.
exists NaN, NaN, (state1_up 0), state1_down; split=> //.
- exact: evaluate_expansion1_node.
- rewrite /= (_ : Rsgn 0 = 0); first exact: Rsgn_0.
  by congr Fin; rewrite (_ : (0 * 1 = 0)%Re) //; lra.
- by rewrite /= -/(xabs (Fin 0)) xlog_abs eqxx.
Qed.

(** One electron of each spin, one basis function, one determinant per
    spin. *)
Definition expansion11 : DeterminantExpansion :=
  mkDeterminantExpansion [:: 0%N] [:: 0%N] [:: [:: 0%N]] [:: [:: 0%N]].

Definition config11 (x y : R) : mat :=
  [:: [:: Fin x; Fin 0; Fin 0]; [:: Fin y; Fin 0; Fin 0]].

Lemma single_determinant_expansion_witness :
  evaluate_expansion (gto_ne gto_x) expansion11 (1%N, 1%N) params1
    (config11 (-2) 3) =
    Ok (Fin (-1 * 1)%Re, Fin (ln 2 + ln 3)%Re, state1_up (-2), state1_up 3) /\
  evaluate_expansion_locals (gto_ne gto_x) expansion11 (1%N, 1%N) params1
    (config11 (-2) 3) =
    Ok (Fin (-1 * 1)%Re, Fin (ln 2 + ln 3)%Re, state1_up (-2), state1_up 3,
        mk_expansion_locals [:: Fin (ln 2 + ln 3)%Re] [:: Fin (-1 * 1)%Re]
          (Fin (ln 2 + ln 3)%Re) [:: Fin 0]).
Proof.
have a2 : Rabs (-2) = 2%Re by rewrite Rabs_left; lra.
have a3 : Rabs 3 = 3%Re by rewrite Rabs_pos_eq; lra.
have n2 : ((-2)%Re == 0) = false.
  by apply: eqr_false => e; have : (-2 = 0)%Re by []; lra.
have n3 : (3%Re == 0) = false.
  by apply: eqr_false => e; have : (3 = 0)%Re by []; lra.
apply: (@single_determinant_expansion (gto_ne gto_x) expansion11
          (1%N, 1%N) params1 (config11 (-2) 3) (state1_up (-2))
          (state1_up 3) 0 0 (-1) 1 (ln 2) (ln 3)).
- reflexivity.
- reflexivity.
- reflexivity.
- exact: compute_determinants_x.
- exact: compute_determinants_x.
- by rewrite /= Rsgn_neg //; lra.
- by right.
- by rewrite /= Rsgn_pos //; lra.
- by left.
- by rewrite /= -/(xabs (Fin (-2))) xlog_abs n2 a2.
- by rewrite /= -/(xabs (Fin 3)) xlog_abs n3 a3.
Defined.


(** ** The commit operation *)

Definition jax_params1 : ndarray * ndarray * ndarray :=
  (Arr1 [:: Fin 1], Arr2 [:: [:: Fin 1]], Arr2 [:: [:: Fin 1]]).

(** The one-electron wavefunction object, before its first recompute. *)
Definition wf1 : JAXSlater :=
  mkJAXSlater gto_x expansion1 (1%N, 0%N) (pm_init jax_params1) None.

Definition cache1 (xs : seq R) : Cache :=
  mkCache [seq Fin (Rsgn x) | x <- xs] [seq Fin (ln (Rabs x)) | x <- xs]
          [seq state1_up x | x <- xs] [seq state1_down | x <- xs].

Definition with_cache (self : JAXSlater) (c : option Cache) : JAXSlater :=
  mkJAXSlater (gto_1e self) (expansion self) (_nelec self) (parameters self) c.

Lemma _recompute1 (c : option Cache) (xs : seq R) :
  all (fun x => x != 0) xs ->
  _recompute (with_cache wf1 c) jax_params1 [seq config1 x | x <- xs] =
  Ok (cache1 xs).
Proof.
move=> ne; rewrite /_recompute /= -/params1 mapM_map.
rewrite (mapM_ok (g := fun x => (Fin (Rsgn x), Fin (ln (Rabs x)),
                                 state1_up x, state1_down)) _ ne) /=.
  by move=> x /eqP; apply: evaluate_expansion1.
by rewrite /cache1 -!map_comp.
Qed.

Lemma recompute1 (c : option Cache) (xs : seq R) :
  all (fun x => x != 0) xs ->
  recompute [seq config1 x | x <- xs] (with_cache wf1 c) =
  (Ok ([seq Fin (Rsgn x) | x <- xs], [seq Fin (ln (Rabs x)) | x <- xs]),
   with_cache wf1 (Some (cache1 xs))).
Proof.
by move=> ne; rewrite /recompute [jax_parameters _]/= _recompute1.
Qed.

Lemma R1_neq0' : (1%Re : R) != 0.
Proof. by apply/eqP => e; have : (1 = 0)%Re by []; lra. Qed.

Lemma Rm1_neq0 : ((-1)%Re : R) != 0.
Proof. by apply/eqP => e; have : (-1 = 0)%Re by []; lra. Qed.

Lemma updateinternals_recompute (e : Z) (epos : seq vec) (configs : seq mat)
    (mask : option (seq bool)) (saved_values : option (seq vec))
    (self : JAXSlater) :
  (updateinternals e epos configs mask saved_values self).2 =
  (recompute configs self).2.
Proof. by rewrite /updateinternals; case: recompute => [[]]. Qed.

Lemma recompute_cache (configs : seq mat) (self : JAXSlater) (c' : Cache) :
  cache (recompute configs self).2 = Some c' ->
  _recompute self (jax_parameters (parameters self)) configs = Ok c' \/
  cache self = Some c'.
Proof.
by rewrite /recompute; case: _recompute => [c|err] /=; [case=> ->; left | right].
Qed.

Lemma _recompute_nth (self : JAXSlater) p (configs : seq mat) (c : Cache)
    (i : nat) st0 :
  _recompute self p configs = Ok c -> (i < size configs)%N ->
  exists det_params,
    as_det_params p = Ok det_params /\
    evaluate_expansion (gto_ne (gto_1e self)) (expansion self) (_nelec self)
      det_params (nth [::] configs i) =
    Ok (nth NaN (_sign c) i, nth NaN (_logabs c) i,
        nth st0 (_dets_up c) i, nth st0 (_dets_down c) i).
Proof.
rewrite /_recompute; case: as_det_params => [dp|] //=.
case E: mapM => [out|] //= [<-] lt /=; exists dp; split=> //.
have so := mapM_size E.
rewrite (mapM_nth [::] (NaN, NaN, st0, st0) E lt).
rewrite !(nth_map (NaN, NaN, st0, st0)) ?so //.
by case: (nth _ out i) => [[[]]].
Qed.

(** C4 (amended). The commit operation reads neither the accept mask nor
    the auxiliary state: it rebuilds the cached state of every
    configuration from the coordinates it is given.  A configuration
    whose coordinates are those the cache was computed from (with the
    current parameters) keeps its cached sign, log-magnitude and
    determinant states, inverses included. *)
Theorem updateinternals_recomputes_all (e : Z) (epos : seq vec)
    (configs : seq mat) (mask : option (seq bool))
    (saved_values : option (seq vec)) (self : JAXSlater) :
  [/\ forall mask' saved_values',
        updateinternals e epos configs mask' saved_values' self =
        updateinternals e epos configs mask saved_values self,
      (updateinternals e epos configs mask saved_values self).2 =
      (recompute configs self).2
    & forall (configs0 : seq mat) (c c' : Cache) (i : nat) st0,
        _recompute self (jax_parameters (parameters self)) configs0 = Ok c ->
        cache self = Some c ->
        cache (updateinternals e epos configs mask saved_values self).2
          = Some c' ->
        (i < size configs0)%N -> (i < size configs)%N ->
        nth [::] configs i = nth [::] configs0 i ->
        [/\ nth NaN (_sign c') i = nth NaN (_sign c) i,
            nth NaN (_logabs c') i = nth NaN (_logabs c) i,
            nth st0 (_dets_up c') i = nth st0 (_dets_up c) i
          & nth st0 (_dets_down c') i = nth st0 (_dets_down c) i]].
Proof.
split=> //; first exact: updateinternals_recompute.
move=> configs0 c c' i st0 Hc Hcache.
rewrite updateinternals_recompute => /recompute_cache [Hc'|]; last first.
  by rewrite Hcache => -[->].
move=> lt0 lt eq.
case: (_recompute_nth st0 Hc lt0) => dp [Hdp E0].
case: (_recompute_nth st0 Hc' lt) => dp' [].
by rewrite Hdp eq => -[<-]; rewrite E0 => -[-> -> -> ->].
Qed.

Lemma updateinternals_recomputes_all_witness :
  let c := cache1 [:: 1%Re; 1%Re] in
  let c' := cache1 [:: 1%Re; (-1)%Re] in
  [/\ nth NaN (_sign c') 0 = nth NaN (_sign c) 0,
      nth NaN (_logabs c') 0 = nth NaN (_logabs c) 0,
      nth state1_down (_dets_up c') 0 = nth state1_down (_dets_up c) 0
    & nth state1_down (_dets_down c') 0 = nth state1_down (_dets_down c) 0].
Proof.
have ne : all (fun x : R => x != 0) [:: 1%Re; 1%Re].
  by rewrite /= R1_neq0'.
have ne' : all (fun x : R => x != 0) [:: 1%Re; (-1)%Re].
  by rewrite /= R1_neq0' Rm1_neq0.
case: (updateinternals_recomputes_all 1%Z [:: [:: Fin (-1); Fin 0; Fin 0]]
         [seq config1 x | x <- [:: 1%Re; (-1)%Re]] (Some [:: false; true]) None
         (with_cache wf1 (Some (cache1 [:: 1%Re; 1%Re])))) => _ _ H.
apply: (H [seq config1 x | x <- [:: 1%Re; 1%Re]] (cache1 [:: 1%Re; 1%Re])
          (cache1 [:: 1%Re; (-1)%Re]) 0%N state1_down) => //.
- exact: _recompute1.
- by rewrite updateinternals_recompute recompute1.
Defined.

(** C4, as stated, fails: with the accept mask false for the only
    configuration, the commit still replaces its cached state when the
    coordinates it is given differ from those of the cache. *)
Lemma updateinternals_mask_counterexample :
  let self1 := (recompute [:: config1 1] wf1).2 in
  let self2 :=
    (updateinternals 0%Z [:: [:: Fin (-1); Fin 0; Fin 0]] [:: config1 (-1)]
       (Some [:: false]) None self1).2 in
  exists c1 c2,
    [/\ cache self1 = Some c1, cache self2 = Some c2,
        nth NaN (_sign c1) 0 = Fin 1 & nth NaN (_sign c2) 0 = Fin (-1)].
Proof.
have ne1 : all (fun x : R => x != 0) [:: 1%Re] by rewrite /= R1_neq0'.
have ne2 : all (fun x : R => x != 0) [:: (-1)%Re] by rewrite /= Rm1_neq0.
exists (cache1 [:: 1%Re]), (cache1 [:: (-1)%Re]).
rewrite updateinternals_recompute.
rewrite -[[:: config1 1]]/([seq config1 x | x <- [:: 1%Re]]).
rewrite -[[:: config1 (-1)]]/([seq config1 x | x <- [:: (-1)%Re]]).
rewrite (recompute1 None ne1) /= (recompute1 (Some (cache1 [:: 1%Re])) ne2) /=.
split=> //.
- by rewrite Rsgn_pos //; lra.
- by rewrite Rsgn_neg //; lra.
Qed.

(** ** Shapes and indices *)

(** Two lengths that NumPy broadcasts against each other. *)
Definition bc_compat (n m : nat) : bool :=
  [|| n == m, n == 1%N | m == 1%N].

Definition bc_size (n m : nat) : nat := if n == 1%N then m else n.

Lemma bcast2_raise f (a b : vec) :
  ~~ bc_compat (size a) (size b) -> bcast2 f a b = Raise ShapeError.
Proof.
by rewrite /bc_compat /bcast2 !negb_or => /and3P [/negbTE -> /negbTE -> /negbTE ->].
Qed.

Lemma bcast2_ok f (a b : vec) :
  bc_compat (size a) (size b) ->
  exists2 c, bcast2 f a b = Ok c & size c = bc_size (size a) (size b).
Proof.
rewrite /bc_compat /bcast2 /bc_size; case: (size a =P size b) => [e _|_] /=.
  exists (zipwith f a b) => //.
  by rewrite size_zipwith e minnn; case: ifP => // /eqP <-.
case: (size a =P 1%N) => [e _|_ /= ->] /=.
  by eexists; [reflexivity | rewrite size_map].
by eexists; [reflexivity | rewrite size_map].
Qed.

Lemma clamp_index_lt (n : nat) (i : Z) : (0 < n)%N -> (clamp_index n i < n)%N.
Proof.
move=> /ltP n0; apply/ltP; rewrite /clamp_index.
by case: (i <? 0)%Z; lia.
Qed.

Lemma jnp_index_clamp (r : vec) (e : Z) :
  jnp_index r (Z.of_nat (clamp_index (size r) e)) = jnp_index r e.
Proof.
rewrite /jnp_index; case: r => [|x r] //.
by rewrite clamp_index_nat //; apply: clamp_index_lt.
Qed.

Lemma column_clamp (n : nat) (inv : mat) (e : Z) :
  all (fun r => size r == n) inv ->
  column inv (Z.of_nat (clamp_index n e)) = column inv e.
Proof.
rewrite /column; case: inv => // r0 inv0; move: (r0 :: inv0) => inv.
elim: inv => //= r inv IH /andP [/eqP sz /IH ->].
by rewrite -sz jnp_index_clamp.
Qed.

Lemma _determinant_lemma_clamp (n : nat) (mos : vec) (inv : mat)
    (det : seq nat) (e : Z) :
  all (fun r => size r == n) inv ->
  _determinant_lemma mos inv det (Z.of_nat (clamp_index n e)) =
  _determinant_lemma mos inv det e.
Proof. by move=> sq; rewrite /_determinant_lemma column_clamp. Qed.

Lemma vmap_lemma_clamp (n : nat) (mos : vec) (invs : seq mat)
    (dets : seq (seq nat)) (e : Z) :
  all (fun inv => all (fun r => size r == n) inv) invs ->
  vmap_lemma mos invs dets (Z.of_nat (clamp_index n e)) =
  vmap_lemma mos invs dets e.
Proof.
rewrite /vmap_lemma /mapM2; case: eqP => // _.
elim: invs dets => [|inv invs IH] [|det dets] //= /andP [sq /IH {}IH].
by rewrite _determinant_lemma_clamp // IH.
Qed.

Lemma testvalue_up_clamp (n : nat) (gto_evaluator : vec -> vec)
    (expansion : DeterminantExpansion) (det_params : DeterminantParameters)
    (dets_up dets_down : SlaterState) (e : Z) (xyz : vec) :
  all (fun inv => all (fun r => size r == n) inv) (inverse dets_up) ->
  testvalue_up gto_evaluator expansion det_params dets_up dets_down
    (Z.of_nat (clamp_index n e)) xyz =
  testvalue_up gto_evaluator expansion det_params dets_up dets_down e xyz.
Proof.
move=> sq; rewrite /testvalue_up; case: vecmat => //= mos.
by rewrite vmap_lemma_clamp.
Qed.

Lemma evaluate_expansion_shape_error (gto_evaluator : mat -> mat)
    (expansion : DeterminantExpansion) (nelec : nat * nat)
    (det_params : DeterminantParameters) (xyz : mat) :
  let nu := size (mapping_up expansion) in
  let nd := size (mapping_down expansion) in
  ~~ bc_compat nu nd
  || ~~ bc_compat (size (ci_coeff det_params)) (bc_size nu nd) ->
  raises (evaluate_expansion gto_evaluator expansion nelec det_params xyz).
Proof.
move=> nu nd H; rewrite /evaluate_expansion.
case: compute_determinants => //= up; case: compute_determinants => //= down.
case C: (bc_compat nu nd); last first.
  by rewrite bcast2_raise // !size_jnp_take -/nu -/nd C.
move: H; rewrite C /= => H.
have Cl : bc_compat (size (jnp_take (logabsdet up) (mapping_up expansion)))
            (size (jnp_take (logabsdet down) (mapping_down expansion))).
  by rewrite !size_jnp_take.
have Cs : bc_compat (size (jnp_take (sign up) (mapping_up expansion)))
            (size (jnp_take (sign down) (mapping_down expansion))).
  by rewrite !size_jnp_take.
have [l -> sl] := bcast2_ok xadd Cl.
have [s -> ss] := bcast2_ok xmul Cs.
rewrite /=; case: jnp_max => //= ref.
by rewrite bcast2_raise // ss !size_jnp_take.
Qed.

(** An expansion of two terms for the one-electron wavefunction. *)
Definition expansion1_two_terms : DeterminantExpansion :=
  mkDeterminantExpansion [:: 0%N; 0%N] [:: 0%N; 0%N] [:: [:: 0%N]] [:: [::]].

(** C6, as stated, fails on both counts: a coefficient array of length 1
    against mappings of length 2 is broadcast and a value is returned;
    an electron index out of range (5, with one electron) returns a
    value too. *)
Lemma shape_index_counterexample :
  [/\ size (ci_coeff params1) <> size (mapping_up expansion1_two_terms),
      raises (evaluate_expansion (gto_ne gto_x) expansion1_two_terms
                (1%N, 0%N) params1 (config1 1)) = false,
      ~ (- 1 <= 5 < 1)%Z
    & raises (testvalue_up gto_x expansion1 params1 (state1_up 1) state1_down
                5%Z [:: Fin 2; Fin 0; Fin 0]) = false].
Proof.
split=> //.
- rewrite /evaluate_expansion [take _ _]/= [drop _ _]/=.
  rewrite compute_determinants_x compute_determinants_none /=.
  by rewrite /bcast2 /= /jnp_max /=.
- lia.
- rewrite /testvalue_up /vecmat /= /vmap_lemma /mapM2 /=. rewrite (negbTE R1_neq0') /=.
  rewrite /_determinant_lemma /column /= /jnp_index /= /dotv /=.
  by rewrite /bcast2 /= /jnp_max /=.
Qed.

Lemma bc_size_compat (n k : nat) :
  bc_compat n k -> bc_compat (bc_size n k) k.
Proof.
by rewrite /bc_size; case: ifP => // _ _; rewrite /bc_compat eqxx.
Qed.

Lemma bcast2_not_raise f (a b : vec) (err : exn) :
  bcast2 f a b = Raise err -> ~~ bc_compat (size a) (size b).
Proof.
move=> E; apply/negP => C; have [c Ec _] := bcast2_ok f C.
by rewrite Ec in E.
Qed.

Lemma evaluate_expansion_broadcast (gto_evaluator : mat -> mat)
    (expansion : DeterminantExpansion) (nelec : nat * nat)
    (det_params : DeterminantParameters) (xyz : mat)
    (up down : SlaterState) :
  let nu := size (mapping_up expansion) in
  let nd := size (mapping_down expansion) in
  compute_determinants (mo_coeff_alpha det_params) gto_evaluator
    (determinants_up expansion) (take nelec.1 xyz) = Ok up ->
  compute_determinants (mo_coeff_beta det_params) gto_evaluator
    (determinants_down expansion) (drop nelec.1 xyz) = Ok down ->
  bc_compat nu nd ->
  bc_compat (size (ci_coeff det_params)) (bc_size nu nd) ->
  (0 < bc_size nu nd)%N ->
  exists s l,
    evaluate_expansion gto_evaluator expansion nelec det_params xyz =
    Ok (s, l, up, down).
Proof.
move=> nu nd hup hdown C1 C2 pos; rewrite /evaluate_expansion hup hdown /=.
have Cl : bc_compat (size (jnp_take (logabsdet up) (mapping_up expansion)))
            (size (jnp_take (logabsdet down) (mapping_down expansion))).
  by rewrite !size_jnp_take.
have Cs : bc_compat (size (jnp_take (sign up) (mapping_up expansion)))
            (size (jnp_take (sign down) (mapping_down expansion))).
  by rewrite !size_jnp_take.
have [l -> sl] := bcast2_ok xadd Cl.
have [s -> ss] := bcast2_ok xmul Cs.
rewrite !size_jnp_take -/nu -/nd in sl ss.
rewrite /=; case: l sl => [|x l] sl /=; first by rewrite -sl in pos.
rewrite /jnp_max /=.
have Cw : bc_compat (size (ci_coeff det_params)) (size s) by rewrite ss.
have [w -> sw] := bcast2_ok xmul Cw.
rewrite /=; case E: bcast2 => [t|err] /=; first by do 2!eexists.
move/bcast2_not_raise: E; rewrite [size (_ :: _)]/= size_map.
rewrite -[(size l).+1]/(size (x :: l)) sl sw ss.
by rewrite bc_size_compat.
Qed.

Lemma column_ok (n : nat) (inv : mat) (e : Z) :
  (0 < n)%N -> size inv = n -> all (fun r => size r == n) inv ->
  column inv e = Ok [seq nth NaN r (clamp_index n e) | r <- inv].
Proof.
move=> n0 sz sq; rewrite /column.
case: inv sz sq => [sz|r0 inv0 _]; first by rewrite -sz in n0.
move: (r0 :: inv0) => inv sq.
apply: (mapM_ok (P := fun r => size r == n)) sq => r /eqP sr.
by rewrite /jnp_index; case: r sr => [sr|x r <- //]; rewrite -sr in n0.
Qed.

Lemma _determinant_lemma_any_index (n : nat) (mos : vec) (inv : mat)
    (det : seq nat) (e : Z) :
  (0 < n)%N -> size inv = n -> all (fun r => size r == n) inv ->
  size det = n ->
  exists v, _determinant_lemma mos inv det e = Ok v.
Proof.
move=> n0 sz sq sd; rewrite /_determinant_lemma (column_ok e n0 sz sq) /=.
by rewrite /dotv size_jnp_take size_map sd sz eqxx; eexists.
Qed.

Lemma _determinant_lemma_empty (mos : vec) (det : seq nat) (e : Z) :
  _determinant_lemma mos [::] det e = Raise IndexError.
Proof. by []. Qed.

Lemma mapM_raises (A B : Type) (f : A -> res B) (s : seq A) :
  has (fun x => raises (f x)) s -> raises (mapM f s).
Proof.
elim: s => //= a s IH; case: (f a) => //= b H.
by case: (mapM f s) (IH H).
Qed.

Lemma vmap_lemma_empty (mos : vec) (invs : seq mat) (dets : seq (seq nat))
    (e : Z) :
  has (@nilp vec) invs -> raises (vmap_lemma mos invs dets e).
Proof.
rewrite /vmap_lemma /mapM2; case: eqP => // sz H; apply: mapM_raises.
elim: invs dets sz H => [|inv invs IH] [|det dets] //= [sz].
case: inv => [|r inv] /= H; first by rewrite /_determinant_lemma /column.
by apply/orP; right; apply: IH.
Qed.

Lemma testvalue_up_empty (gto_evaluator : vec -> vec)
    (expansion : DeterminantExpansion) (det_params : DeterminantParameters)
    (dets_up dets_down : SlaterState) (e : Z) (xyz : vec) :
  has (@nilp vec) (inverse dets_up) ->
  raises (testvalue_up gto_evaluator expansion det_params dets_up dets_down
            e xyz).
Proof.
move=> H; rewrite /testvalue_up; case: vecmat => //= mos.
by case: vmap_lemma (vmap_lemma_empty mos (determinants_up expansion) e H).
Qed.

Lemma testvalue_down_empty (gto_evaluator : vec -> vec)
    (expansion : DeterminantExpansion) (det_params : DeterminantParameters)
    (dets_up dets_down : SlaterState) (e : Z) (xyz : vec) :
  has (@nilp vec) (inverse dets_down) ->
  raises (testvalue_down gto_evaluator expansion det_params dets_up
            dets_down e xyz).
Proof.
move=> H; rewrite /testvalue_down; case: vecmat => //= mos.
by case: vmap_lemma (vmap_lemma_empty mos (determinants_down expansion) e H).
Qed.

(** C6 (amended). Lengths that do not broadcast raise at call time: when
    the two mapping arrays, or the coefficient array and the mapped
    terms, have lengths that are neither equal nor 1, evaluation
    raises.  Lengths that broadcast, with at least one mapped term, give
    a result whenever the determinants of both spins evaluate.  An
    electron index is not checked against the number of electrons: on a
    nonempty cached inverse the determinant-ratio lemma returns a value
    for every index, the one at the index clamped into the range of the
    inverse, and [testvalue_up] returns the same at an index and at the
    clamped index.  Only an empty inverse (no electron of that spin)
    raises, and it does so for every index. *)
Theorem shape_mismatch_raises_index_clamps :
  [/\ forall (gto_evaluator : mat -> mat) (expansion : DeterminantExpansion)
        (nelec : nat * nat) (det_params : DeterminantParameters) (xyz : mat),
        let nu := size (mapping_up expansion) in
        let nd := size (mapping_down expansion) in
        ~~ bc_compat nu nd
        || ~~ bc_compat (size (ci_coeff det_params)) (bc_size nu nd) ->
        raises (evaluate_expansion gto_evaluator expansion nelec det_params
                  xyz),
      forall (gto_evaluator : mat -> mat) (expansion : DeterminantExpansion)
        (nelec : nat * nat) (det_params : DeterminantParameters) (xyz : mat)
        (up down : SlaterState),
        let nu := size (mapping_up expansion) in
        let nd := size (mapping_down expansion) in
        compute_determinants (mo_coeff_alpha det_params) gto_evaluator
          (determinants_up expansion) (take nelec.1 xyz) = Ok up ->
        compute_determinants (mo_coeff_beta det_params) gto_evaluator
          (determinants_down expansion) (drop nelec.1 xyz) = Ok down ->
        bc_compat nu nd ->
        bc_compat (size (ci_coeff det_params)) (bc_size nu nd) ->
        (0 < bc_size nu nd)%N ->
        exists s l,
          evaluate_expansion gto_evaluator expansion nelec det_params xyz =
          Ok (s, l, up, down),
      forall (n : nat) (mos : vec) (inv : mat) (det : seq nat) (e : Z),
        (0 < n)%N -> size inv = n -> all (fun r => size r == n) inv ->
        size det = n ->
        exists v,
          _determinant_lemma mos inv det e = Ok v /\
          _determinant_lemma mos inv det (Z.of_nat (clamp_index n e)) = Ok v,
      forall (n : nat) (gto_evaluator : vec -> vec)
        (expansion : DeterminantExpansion) (det_params : DeterminantParameters)
        (dets_up dets_down : SlaterState) (e : Z) (xyz : vec),
        all (fun inv => all (fun r => size r == n) inv) (inverse dets_up) ->
        testvalue_up gto_evaluator expansion det_params dets_up dets_down e xyz
        = testvalue_up gto_evaluator expansion det_params dets_up dets_down
            (Z.of_nat (clamp_index n e)) xyz
    & forall (gto_evaluator : vec -> vec) (expansion : DeterminantExpansion)
        (det_params : DeterminantParameters)
        (dets_up dets_down : SlaterState) (mos : vec) (det : seq nat)
        (e : Z) (xyz : vec),
        [/\ _determinant_lemma mos [::] det e = Raise IndexError,
            has (@nilp vec) (inverse dets_up) ->
            raises (testvalue_up gto_evaluator expansion det_params dets_up
                      dets_down e xyz)
          & has (@nilp vec) (inverse dets_down) ->
            raises (testvalue_down gto_evaluator expansion det_params dets_up
                      dets_down e xyz)]].
Proof.
split.
- exact: evaluate_expansion_shape_error.
- exact: evaluate_expansion_broadcast.
- move=> n mos inv det e n0 sz sq sd.
  have [v E] := _determinant_lemma_any_index mos e n0 sz sq sd.
  by exists v; rewrite _determinant_lemma_clamp.
- by move=> n g ex p up down e xyz sq; rewrite testvalue_up_clamp.
- move=> g ex p up down mos det e xyz; split=> //.
  + exact: testvalue_up_empty.
  + exact: testvalue_down_empty.
Qed.

Definition expansion1_three_terms : DeterminantExpansion :=
  mkDeterminantExpansion [:: 0%N; 0%N; 0%N] [:: 0%N; 0%N; 0%N]
    [:: [:: 0%N]] [:: [::]].

Definition params1_two_coeffs : DeterminantParameters :=
  mkDeterminantParameters [:: Fin 1; Fin 1] [:: [:: Fin 1]] [:: [:: Fin 1]].

Lemma shape_mismatch_raises_index_clamps_witness :
  [/\ raises (evaluate_expansion (gto_ne gto_x) expansion1_three_terms
                (1%N, 0%N) params1_two_coeffs (config1 1)),
      exists s l,
        evaluate_expansion (gto_ne gto_x) expansion1_two_terms (1%N, 0%N)
          params1 (config1 1) = Ok (s, l, state1_up 1, state1_down),
      exists v,
        _determinant_lemma [:: Fin 2] [:: [:: Fin 1]] [:: 0%N] 5%Z = Ok v /\
        _determinant_lemma [:: Fin 2] [:: [:: Fin 1]] [:: 0%N] 0%Z = Ok v,
      testvalue_up gto_x expansion1 params1 (state1_up 1) state1_down 5%Z
        [:: Fin 2; Fin 0; Fin 0] =
      testvalue_up gto_x expansion1 params1 (state1_up 1) state1_down 0%Z
        [:: Fin 2; Fin 0; Fin 0]
    & _determinant_lemma [:: Fin 2] [::] [::] 0%Z = Raise IndexError /\
      raises (testvalue_down gto_x expansion1 params1 (state1_up 1)
                state1_down 0%Z [:: Fin 2; Fin 0; Fin 0])].
Proof.
case: shape_mismatch_raises_index_clamps => H1 H2 H3 H4 H5; split.
- by apply: H1.
- apply: H2 => //.
  + exact: compute_determinants_x.
  + exact: compute_determinants_none.
- by apply: (H3 1%N).
- by apply: (H4 1%N) => /=; rewrite (negbTE R1_neq0').
- have [E _ R] := H5 gto_x expansion1 params1 (state1_up 1) state1_down
    [:: Fin 2] [::] 0%Z [:: Fin 2; Fin 0; Fin 0].
  by split; [exact: E | apply: R].
Defined.

(** ** Replacing one row of an invertible matrix *)

Section RowReplacement.

Variable F : fieldType.
Variables (n : nat) (A B : 'M[F]_n) (v : 'rV[F]_n) (e : 'I_n).

(** [A] with row [e] replaced by [v]. *)
Definition replace_row : 'M[F]_n :=
  \matrix_(i, j) if i == e then v 0 j else A i j.

(** The determinant-ratio scalar. *)
Definition lemma_ratio : F := (v *m B) 0 e.

(** The update of the inverse. *)
Definition sm_inverse : 'M[F]_n :=
  \matrix_(i, j) if j == e then B i e / lemma_ratio
                 else B i j - B i e / lemma_ratio * (v *m B) 0 j.

Hypothesis AB1 : A *m B = 1%:M.

Lemma sm_right_inverse : lemma_ratio != 0 -> replace_row *m sm_inverse = 1%:M.
Proof.
move=> r0; apply/matrixP => i j; rewrite !mxE.
have AB i' j' : \sum_k A i' k * B k j' = (i' == j')%:R.
  by move/matrixP/(_ i' j'): AB1; rewrite !mxE.
have vB j' : \sum_k v 0 k * B k j' = (v *m B) 0 j' by rewrite mxE.
have rrE k : replace_row i k = if i == e then v 0 k else A i k by rewrite mxE.
have smE k : sm_inverse k j =
    if j == e then B k e / lemma_ratio
    else B k j - B k e / lemma_ratio * (v *m B) 0 j by rewrite mxE.
under eq_bigr => k _ do rewrite rrE smE.
case: (i =P e) => [->|/eqP ie]; case: (j =P e) => [->|/eqP je].
- rewrite eqxx; under eq_bigr => k _ do rewrite mulrA.
  by rewrite -mulr_suml vB -/lemma_ratio divff.
- rewrite eq_sym (negbTE je).
  under eq_bigr => k _ do rewrite mulrBr mulrA mulrA.
  by rewrite sumrB -!mulr_suml !vB -/lemma_ratio divff // mul1r subrr.
- rewrite (negbTE ie).
  under eq_bigr => k _ do rewrite mulrA.
  by rewrite -mulr_suml AB (negbTE ie) mul0r.
- under eq_bigr => k _ do rewrite mulrBr mulrA mulrA.
  by rewrite sumrB -!mulr_suml !AB (negbTE ie) !mul0r subr0.
Qed.

Lemma sm_left_inverse : lemma_ratio != 0 -> sm_inverse *m replace_row = 1%:M.
Proof. by move=> r0; apply: mulmx1C; apply: sm_right_inverse. Qed.

End RowReplacement.

(** ** Lists of reals and matrices *)

Definition mxR (n k : nat) (m : seq (seq R)) : 'M[R]_(n, k) :=
  \matrix_(i, j) nth 0 (nth [::] m i) j.

Definition seq_of_mx (n k : nat) (A : 'M[R]_(n, k)) : seq (seq R) :=
  [seq [seq A i j | j <- enum 'I_k] | i <- enum 'I_n].

Lemma mx_of_F2 n m : mx_of n (F2 m) = mxR n n m.
Proof. by apply/matrixP => i j; rewrite !mxE nth_F2 fin_val_nth_F1. Qed.

Lemma mat_of_mxE n (A : 'M[R]_n) : mat_of_mx A = F2 (seq_of_mx A).
Proof.
rewrite /mat_of_mx /F2 /seq_of_mx -map_comp; apply: eq_map => i /=.
by rewrite /F1 -map_comp.
Qed.

Lemma nth_map_enum (T : Type) (x0 : T) n (f : 'I_n -> T) (i : 'I_n) :
  nth x0 [seq f j | j <- enum 'I_n] i = f i.
Proof. by rewrite (nth_map i) ?size_enum_ord // nth_ord_enum. Qed.

Lemma rect_seq_of_mx n k (A : 'M[R]_(n, k)) : rect n k (seq_of_mx A).
Proof.
rewrite /rect /seq_of_mx size_map size_enum_ord eqxx /= all_map.
by apply/allP => i _ /=; rewrite size_map size_enum_ord.
Qed.

Lemma mxR_seq_of_mx n k (A : 'M[R]_(n, k)) : mxR n k (seq_of_mx A) = A.
Proof. by apply/matrixP => i j; rewrite mxE /seq_of_mx !nth_map_enum. Qed.

Lemma seq_of_mx_mxR n k (m : seq (seq R)) :
  rect n k m -> seq_of_mx (mxR n k m) = m.
Proof.
move=> rc; apply: (@eq_from_nth _ [::]).
  by rewrite size_map size_enum_ord (rect_size rc).
move=> i; rewrite size_map size_enum_ord => lt.
rewrite (nth_map_enum [::] _ (Ordinal lt)) /=.
apply: (@eq_from_nth _ 0).
  by rewrite size_map size_enum_ord (rect_row rc).
move=> j; rewrite size_map size_enum_ord => ltj.
by rewrite (nth_map_enum 0 _ (Ordinal ltj)) mxE.
Qed.

Lemma outer_F1 (a b : seq R) :
  outer (F1 a) (F1 b) = F2 [seq [seq x * y | y <- b] | x <- a].
Proof.
rewrite /outer /F2 /F1 -!map_comp; apply: eq_map => x /=.
by rewrite -!map_comp.
Qed.

Lemma mat_sub_F2 n k (a b : seq (seq R)) :
  rect n k a -> rect n k b ->
  mat_sub (F2 a) (F2 b) = Ok (F2 (zipwith (zipwith (fun x y => x - y)) a b)).
Proof.
move=> ra rb; rewrite /mat_sub !size_F2 (rect_size ra) (rect_size rb) eqxx /=.
have -> : all (fun p : vec * vec => size p.1 == size p.2) (zip (F2 a) (F2 b)).
  apply/(all_nthP ([::], [::])) => i; rewrite size_zip !size_F2.
  rewrite (rect_size ra) (rect_size rb) minnn => lt.
  rewrite nth_zip ?size_F2 ?(rect_size ra) ?(rect_size rb) //= !nth_F2.
  by rewrite !size_F1 (rect_row ra) // (rect_row rb).
congr Ok; rewrite /F2 /zipwith.
elim: a b {ra rb} => [|r a IH] [|s b] //=.
by rewrite IH -/(zipwith _ _ _) (zipwith_F1 (g := fun x y => x - y)).
Qed.

Lemma norm_index_nat n (e : nat) :
  (e < n)%N -> norm_index n (Z.of_nat e) = Some e.
Proof.
move=> /ltP lt; rewrite /norm_index.
have -> : (Z.of_nat e <? 0)%Z = false by apply/Z.ltb_ge; lia.
have -> : (0 <=? Z.of_nat e)%Z = true by apply/Z.leb_le; lia.
have -> : (Z.of_nat e <? Z.of_nat n)%Z = true by apply/Z.ltb_lt; lia.
by rewrite /= Nat2Z.id.
Qed.

Lemma set_nth_F1 (r : seq R) (e : nat) (x : R) :
  (e < size r)%N -> set_nth NaN (F1 r) e (Fin x) = F1 (set_nth 0 r e x).
Proof.
elim: r e => [|y r IH] [|e] //= lt.
by rewrite IH.
Qed.

Lemma at_col_set_F2 n k (m : seq (seq R)) (v : seq R) (e : nat) :
  rect n k m -> size v = n -> (e < k)%N ->
  at_col_set (F2 m) (Z.of_nat e) (F1 v) =
  Ok (F2 (zipwith (fun r x => set_nth 0 r e x) m v)).
Proof.
move=> rc sv lt; rewrite /at_col_set size_F1 size_F2 sv (rect_size rc) eqxx /=.
congr Ok; case/andP: rc => _ /allP H.
rewrite /F2 /zipwith /F1.
elim: m v H {sv} => [|r m IH] [|x v] //= H.
have /eqP sr : size r == k by apply: H; rewrite inE eqxx.
rewrite IH; first by move=> s sm; apply: H; rewrite inE sm orbT.
rewrite size_map sr norm_index_nat // /set_nth_col size_map sr lt.
by rewrite -/(F1 r) set_nth_F1 ?sr.
Qed.

Lemma map_xdiv_F1 (c : seq R) (r : R) :
  r != 0 -> [seq xdiv x (Fin r) | x <- F1 c] = F1 [seq x / r | x <- c].
Proof.
move=> r0; rewrite /F1 -!map_comp; apply: eq_map => x /=.
by rewrite /xdiv (negbTE r0).
Qed.

Lemma size_rvecmat k v m : size (rvecmat k v m) = k.
Proof. by rewrite size_mkseq. Qed.

Lemma nth_rvecmat k v m j :
  (j < k)%N ->
  nth 0 (rvecmat k v m) j =
  \sum_(i < size v) nth 0 v i * nth 0 (nth [::] m i) j.
Proof. by move=> lt; rewrite nth_mkseq. Qed.

Lemma rdot_ord n (a b : seq R) :
  size a = n -> rdot a b = \sum_(i < n) nth 0 a i * nth 0 b i.
Proof. by move=> <-. Qed.

Lemma nth_seq_of_mx n k (A : 'M[R]_(n, k)) (i : 'I_n) (j : 'I_k) :
  nth 0 (nth [::] (seq_of_mx A) i) j = A i j.
Proof. by rewrite /seq_of_mx !nth_map_enum. Qed.

Lemma nth_col_seq_of_mx n k (A : 'M[R]_(n, k)) (i : 'I_n) (j : 'I_k) :
  nth 0 [seq nth 0 r j | r <- seq_of_mx A] i = A i j.
Proof.
rewrite (nth_map [::]) ?nth_seq_of_mx //.
by rewrite (rect_size (rect_seq_of_mx A)).
Qed.

Section ShermanMorrisonCode.

Variables (n : nat) (B : 'M[R]_n) (mos : seq R) (det : seq nat) (e : 'I_n).
Hypothesis size_det : size det = n.
Hypothesis det_ok : all (fun i => i < size mos)%N det.

(** The orbital row restricted to the columns of the determinant. *)
Definition orbital_row : 'rV[R]_n := \row_j nth 0 mos (nth 0%N det j).

Let vl : seq R := [seq nth 0 mos i | i <- det].
Let Bl : seq (seq R) := seq_of_mx B.
Let col : seq R := [seq nth 0 r e | r <- Bl].

Let n_pos : (0 < n)%N.
Proof. by case: e => m; case: n. Qed.

Let size_vl : size vl = n.
Proof. by rewrite size_map. Qed.

Let nth_vl (k : 'I_n) : nth 0 vl k = orbital_row 0 k.
Proof. by rewrite mxE (nth_map 0%N) // size_det. Qed.

Let rdot_col : rdot vl col = lemma_ratio B orbital_row e.
Proof.
rewrite (rdot_ord _ size_vl) /lemma_ratio mxE.
by apply: eq_bigr => k _; rewrite nth_vl nth_col_seq_of_mx.
Qed.

Lemma _determinant_lemma_mx :
  _determinant_lemma (F1 mos) (mat_of_mx B) det (Z.of_nat e) =
  Ok (Fin (lemma_ratio B orbital_row e)).
Proof.
rewrite /_determinant_lemma mat_of_mxE.
rewrite (column_F2 (rect_seq_of_mx B)) //= jnp_take_F1 // dotv_F1.
  by rewrite size_vl size_map (rect_size (rect_seq_of_mx B)).
by rewrite rdot_col.
Qed.

Let tl : seq R := rvecmat n vl Bl.

Let nth_tl (j : 'I_n) : nth 0 tl j = (orbital_row *m B) 0 j.
Proof.
rewrite nth_rvecmat // mxE -/(rdot vl [seq nth 0 r j | r <- Bl]).
have -> : \sum_(i < size vl) nth 0 vl i * nth 0 (nth [::] Bl i) j =
          \sum_(i < n) nth 0 vl i * nth 0 (nth [::] Bl i) j.
  by rewrite size_vl.
by apply: eq_bigr => k _; rewrite nth_vl nth_seq_of_mx.
Qed.

Lemma _sherman_morrison_row_mx :
  lemma_ratio B orbital_row e != 0 ->
  _sherman_morrison_row (Z.of_nat e) (mat_of_mx B) (F1 mos) det =
  Ok (Fin (lemma_ratio B orbital_row e),
      mat_of_mx (sm_inverse B orbital_row e)).
Proof.
move=> r0; rewrite /_sherman_morrison_row !mat_of_mxE jnp_take_F1 //.
have rB : rect n n Bl by apply: rect_seq_of_mx.
rewrite -/Bl -/vl (vecmat_F size_vl rB n_pos) /= jnp_index_F1 ?size_rvecmat //=.
rewrite (nth_tl e) -/(lemma_ratio B orbital_row e).
rewrite (column_F2 rB) //= -/col map_xdiv_F1 // outer_F1.
set ir := [seq x / _ | x <- _]; set O := [seq _ | x <- ir].
have s_ir : size ir = n by rewrite 2!size_map (rect_size rB).
have rO : rect n n O.
  rewrite /rect size_map s_ir eqxx /= all_map.
  by apply/allP => x _ /=; rewrite size_map size_rvecmat.
rewrite (mat_sub_F2 rB rO) /=.
set D := zipwith _ _ _.
have sD : size D = n.
  by rewrite size_zipwith (rect_size rB) (rect_size rO) minnn.
have nthD i : (i < n)%N ->
    nth [::] D i = zipwith (fun x y => x - y) (nth [::] Bl i) (nth [::] O i).
  by move=> lt; rewrite (nth_zipwith _ [::] [::] _)
                        ?(rect_size rB) ?(rect_size rO).
have rD : rect n n D.
  rewrite /rect sD eqxx /=; apply/(all_nthP [::]) => i; rewrite sD => lt.
  by rewrite nthD // size_zipwith (rect_row rB) // (rect_row rO) // minnn.
rewrite (at_col_set_F2 rD s_ir) //=; congr (Ok (_, F2 _)).
set L := zipwith _ _ _.
have sL : size L = n by rewrite size_zipwith sD s_ir minnn.
have nthL i : (i < n)%N ->
    nth [::] L i = set_nth 0 (nth [::] D i) e (nth 0 ir i).
  by move=> lt; rewrite (nth_zipwith _ [::] 0 _) ?sD ?s_ir.
have rL : rect n n L.
  rewrite /rect sL eqxx /=; apply/(all_nthP [::]) => i; rewrite sL => lt.
  rewrite nthL // size_set_nth (rect_row rD) //.
  by apply/eqP/maxn_idPr.
rewrite -(seq_of_mx_mxR rL); congr seq_of_mx.
apply/matrixP => i j; rewrite !mxE nthL // nth_set_nth /=.
have nth_ir : nth 0 ir i = B i e / lemma_ratio B orbital_row e.
  rewrite (nth_map 0); first by rewrite size_map (rect_size rB).
  by rewrite /col /Bl nth_col_seq_of_mx.
case: (j =P e) => [->|/eqP je]; first by rewrite eqxx.
rewrite (_ : (nat_of_ord j == e) = false); first exact: (negbTE je).
rewrite nthD // (nth_zipwith _ 0 0 _) ?(rect_row rB) ?(rect_row rO) //.
rewrite nth_seq_of_mx (nth_map 0) ?s_ir // nth_ir.
by rewrite (nth_map 0) ?size_rvecmat // -/tl nth_tl mxE.
Qed.

End ShermanMorrisonCode.

(** The update step as the specification words it: the last assignment
    overwrites row [e] of the new inverse ([invnew.at[e,:].set]). *)
Definition at_row_set (m : mat) (e : Z) (v : vec) : res mat :=
  if (size v == ncols m) || (size v == 1%N) then
    let v' := if size v == ncols m then v else nseq (ncols m) (head NaN v) in
    Ok (if norm_index (size m) e is Some i then set_nth [::] m i v' else m)
  else Raise ShapeError.

Definition sherman_morrison_row_as_specified (e : Z) (inv : mat) (mos : vec)
    (determinant : seq nat) : res (xreal * mat) :=
  let vec := jnp_take mos determinant in
  tmp <- vecmat vec inv ;;
  ratio <- jnp_index tmp e ;;
  c <- column inv e ;;
  let inv_ratio := [seq xdiv x ratio | x <- c] in
  invnew <- mat_sub inv (outer inv_ratio tmp) ;;
  invnew <- at_row_set invnew e inv_ratio ;;
  Ok (ratio, invnew).

Lemma xdiv_fin (a b : R) : b <> 0%Re -> xdiv (Fin a) (Fin b) = Fin (a / b)%Re.
Proof. by move=> ne; rewrite /xdiv eqr_false. Qed.

Lemma two_neq0 : (2 <> 0)%Re. Proof. lra. Qed.

(** C3, as stated, fails in its last step: the code overwrites column
    [e] of the new inverse, not row [e]; with the identity as cached
    inverse, the orbital row (2, 3) and [e = 0] the two differ, and only
    the column version is the inverse of the updated matrix. *)
Lemma sherman_morrison_row_counterexample :
  let inv := F2 [:: [:: 1%Re; 0%Re]; [:: 0%Re; 1%Re]] in
  let mos := F1 [:: 2%Re; 3%Re] in
  let det := [:: 0%N; 1%N] in
  exists M M' : mat,
    [/\ _sherman_morrison_row 0%Z inv mos det = Ok (Fin 2, M),
        sherman_morrison_row_as_specified 0%Z inv mos det = Ok (Fin 2, M'),
        M = F2 [:: [:: (1 / 2)%Re; (- (3 / 2))%Re]; [:: 0%Re; 1%Re]],
        M' = F2 [:: [:: (1 / 2)%Re; 0%Re]; [:: 0%Re; 1%Re]]
      & M <> M'].
Proof.
exists (F2 [:: [:: (1 / 2)%Re; (- (3 / 2))%Re]; [:: 0%Re; 1%Re]]),
       (F2 [:: [:: (1 / 2)%Re; 0%Re]; [:: 0%Re; 1%Re]]).
have E : (2 * 1 + (3 * 0 + 0))%Re = 2%Re by lra.
split=> //.
- rewrite /_sherman_morrison_row /vecmat /= /jnp_index /= /column /=.
  rewrite /jnp_index /= E !xdiv_fin /=; try exact: two_neq0.
  rewrite /zipwith /= /norm_index /= /set_nth_col /= /xsub /=.
  by congr (Ok (_, [:: [:: Fin _; Fin _]; [:: Fin _; Fin _]])); lra.
- rewrite /sherman_morrison_row_as_specified /vecmat /= /jnp_index /=.
  rewrite /column /= /jnp_index /= E !xdiv_fin /=; try exact: two_neq0.
  rewrite /at_row_set /= /zipwith /= /xsub /=.
  by congr (Ok (_, [:: [:: Fin _; Fin _]; [:: Fin _; Fin _]])); lra.
- by move=> [] H; move: H; lra.
Qed.

(** C3 (amended). With [B] the exact inverse of the occupied-orbital
    matrix [A], the step computes the determinant-ratio scalar (the
    orbital row times column [e] of [B]), subtracts from [B] the outer
    product of column [e] of [B] over the ratio with the orbital row
    times [B], and overwrites COLUMN [e] of the result with column [e]
    of [B] over the ratio; when the ratio is not zero this is the exact
    inverse of [A] with row [e] replaced by the orbital row. *)
Theorem sherman_morrison_row_exact_inverse (n : nat) (A B : 'M[R]_n)
    (mos : seq R) (det : seq nat) (e : 'I_n) :
  size det = n -> all (fun i => i < size mos)%N det -> A *m B = 1%:M ->
  let v := orbital_row n mos det in
  let ratio := lemma_ratio B v e in
  [/\ _determinant_lemma (F1 mos) (mat_of_mx B) det (Z.of_nat e) =
        Ok (Fin ratio)
    & ratio != 0 ->
      [/\ _sherman_morrison_row (Z.of_nat e) (mat_of_mx B) (F1 mos) det =
            Ok (Fin ratio, mat_of_mx (sm_inverse B v e)),
          replace_row A v e *m sm_inverse B v e = 1%:M
        & sm_inverse B v e *m replace_row A v e = 1%:M]].
Proof.
move=> sd dok AB v ratio; split; first exact: _determinant_lemma_mx.
move=> r0; split.
- exact: _sherman_morrison_row_mx.
- exact: sm_right_inverse.
- exact: sm_left_inverse.
Qed.

Lemma sherman_morrison_row_exact_inverse_witness :
  let A : 'M[R]_2 := 1%:M in
  let v := orbital_row 2 [:: 2%Re; 3%Re] [:: 0%N; 1%N] in
  [/\ _sherman_morrison_row 0%Z (mat_of_mx A) (F1 [:: 2%Re; 3%Re])
        [:: 0%N; 1%N] =
        Ok (Fin (lemma_ratio A v ord0), mat_of_mx (sm_inverse A v ord0)),
      replace_row A v ord0 *m sm_inverse A v ord0 = 1%:M
    & sm_inverse A v ord0 *m replace_row A v ord0 = 1%:M].
Proof.
move=> A v.
have [_ H] := @sherman_morrison_row_exact_inverse 2 A A [:: 2%Re; 3%Re]
                [:: 0%N; 1%N] ord0 erefl erefl (mulmx1 A).
apply: H; rewrite /lemma_ratio mulmx1 mxE /=.
by apply/eqP => E; have : (2 = 0)%Re by []; lra.
Defined.

(** ** The determinant-ratio lemma *)

Section DeterminantRatio.

Variable F : fieldType.
Variables (n : nat) (A : 'M[F]_n) (v : 'rV[F]_n) (e : 'I_n).

Lemma cofactor_replace_row j : cofactor (replace_row A v e) e j = cofactor A e j.
Proof.
rewrite /cofactor; congr (_ * \det _).
apply/matrixP => i k; rewrite !mxE.
by rewrite [lift e i == e]eq_sym (negbTE (neq_lift e i)).
Qed.

Lemma det_replace_row :
  \det A != 0 ->
  \det (replace_row A v e) = lemma_ratio (invmx A) v e * \det A.
Proof.
move=> d0; have uA : A \in unitmx by rewrite unitmxE unitfE.
rewrite (expand_det_row _ e) /lemma_ratio /invmx uA mxE.
rewrite mulr_suml; apply: eq_bigr => j _.
rewrite cofactor_replace_row !mxE eqxx.
by rewrite -mulrA [_ * \det A]mulrC mulrA mulrA mulfK // mulrC.
Qed.

Lemma lemma_ratio_same_row :
  \det A != 0 -> lemma_ratio (invmx A) (row e A) e = 1.
Proof.
move=> d0; have uA : A \in unitmx by rewrite unitmxE unitfE.
rewrite /lemma_ratio -row_mul mulmxV // !mxE eqxx.
by [].
Qed.

End DeterminantRatio.

(** ** The batch evaluator on finite data *)

Lemma is_square_F2 n (m : seq (seq R)) : rect n n m -> is_square (F2 m).
Proof.
case/andP => /eqP sz /allP H; rewrite /is_square size_F2 sz all_map.
by apply/allP => r /H /=; rewrite size_F1.
Qed.

Lemma linalg_slogdet_F2 n (m : seq (seq R)) :
  rect n n m -> linalg_slogdet (F2 m) = Ok (sign_logabs (\det (mxR n n m))).
Proof.
move=> rc; rewrite /linalg_slogdet (is_square_F2 rc) all_finite_F2 /=.
by rewrite size_F2; case/andP: rc => /eqP <- _; rewrite mx_of_F2.
Qed.

Lemma linalg_inv_F2 n (m : seq (seq R)) :
  rect n n m ->
  linalg_inv (F2 m) =
  Ok (if \det (mxR n n m) != 0 then mat_of_mx (invmx (mxR n n m))
      else inv_degenerate (F2 m)).
Proof.
move=> rc; rewrite /linalg_inv (is_square_F2 rc) all_finite_F2 /=.
by rewrite size_F2; case/andP: rc => /eqP <- _; rewrite mx_of_F2; case: ifP.
Qed.

(** The columns of a determinant, on lists of reals. *)
Definition submatrix (m : seq (seq R)) (d : seq nat) : seq (seq R) :=
  [seq [seq nth 0 r i | i <- d] | r <- m].

Lemma jnp_take_cols_F2 k (m : seq (seq R)) (d : seq nat) :
  all (fun r => size r == k) m -> all (fun i => i < k)%N d ->
  jnp_take_cols (F2 m) d = F2 (submatrix m d).
Proof.
move=> /allP H dk; rewrite /jnp_take_cols /F2 /submatrix -!map_comp.
apply/eq_in_map => r /H /eqP sz /=; rewrite -/(F1 r) jnp_take_F1 // sz.
exact: dk.
Qed.

Lemma rect_submatrix n k (m : seq (seq R)) (d : seq nat) :
  rect n k m -> rect n (size d) (submatrix m d).
Proof.
case/andP => sz _; rewrite /rect size_map sz /= all_map.
by apply/allP => r _ /=; rewrite size_map.
Qed.

Section ComputeDeterminants.

Variables (nb norb : nat) (C : seq (seq R)) (g : vec -> seq R).
Hypothesis rect_C : rect nb norb C.
Hypothesis nb_pos : (0 < nb)%N.
Hypothesis size_g : forall p, size (g p) = nb.

(** The molecular orbitals at one position and at a configuration. *)
Definition mo_row (p : vec) : seq R := rvecmat norb (g p) C.
Definition mo_rows (cfg : mat) : seq (seq R) := [seq mo_row p | p <- cfg].

(** The occupied-orbital matrix of a determinant and its value. *)
Definition slater_mx (n : nat) (cfg : mat) (d : seq nat) : 'M[R]_n :=
  mxR n n (submatrix (mo_rows cfg) d).

Definition det_value (n : nat) (cfg : mat) (d : seq nat) : R :=
  \det (slater_mx n cfg d).

Definition valid_det (n : nat) (d : seq nat) : bool :=
  (size d == n) && all (fun i => i < norb)%N d.

Lemma rect_mo_rows cfg : rect (size cfg) norb (mo_rows cfg).
Proof.
rewrite /rect size_map eqxx /= all_map.
by elim: cfg => //= p cfg ->; rewrite size_rvecmat eqxx.
Qed.

Lemma jnp_dot_fin cfg :
  jnp_dot (gto_ne (fun p => F1 (g p)) cfg) (F2 C) = Ok (F2 (mo_rows cfg)).
Proof.
rewrite /jnp_dot /gto_ne mapM_map.
rewrite (mapM_ok (P := predT) (g := fun p => F1 (mo_row p))).
- by move=> p _; rewrite (vecmat_F (size_g p) rect_C nb_pos).
- exact: all_predT.
by rewrite /F2 /mo_rows -map_comp.
Qed.

Definition inverse_of (n : nat) (cfg : mat) (d : seq nat) : mat :=
  if det_value n cfg d != 0 then mat_of_mx (invmx (slater_mx n cfg d))
  else inv_degenerate (F2 (submatrix (mo_rows cfg) d)).

Lemma compute_determinants_fin n cfg dets :
  size cfg = n -> all (valid_det n) dets ->
  compute_determinants (F2 C) (gto_ne (fun p => F1 (g p))) dets cfg =
  Ok (mkSlaterState (F2 (mo_rows cfg))
        [seq (sign_logabs (det_value n cfg d)).1 | d <- dets]
        [seq (sign_logabs (det_value n cfg d)).2 | d <- dets]
        [seq inverse_of n cfg d | d <- dets]).
Proof.
move=> sz vd; rewrite /compute_determinants jnp_dot_fin /=.
have rM : rect n norb (mo_rows cfg) by rewrite -sz; apply: rect_mo_rows.
have sub d : valid_det n d ->
    jnp_take_cols (F2 (mo_rows cfg)) d = F2 (submatrix (mo_rows cfg) d) /\
    rect n n (submatrix (mo_rows cfg) d).
  case/andP => /eqP sd dk; split.
    by apply: jnp_take_cols_F2 dk; case/andP: rM.
  by rewrite -{2}sd; apply: rect_submatrix rM.
rewrite /vmap_determinants
  (mapM_ok (P := valid_det n)
           (g := fun d => sign_logabs (det_value n cfg d)) _ vd) /=.
  move=> d /sub [E rc].
  by rewrite /_compute_one_determinant E (linalg_slogdet_F2 rc).
rewrite /vmap_inverse
  (mapM_ok (P := valid_det n) (g := inverse_of n cfg) _ vd) /=.
  move=> d /sub [E rc].
  by rewrite /_compute_inverse E (linalg_inv_F2 rc).
by rewrite -!map_comp.
Qed.

End ComputeDeterminants.

(** The state [compute_determinants] returns on finite data. *)
Definition slater_state (norb : nat) (C : seq (seq R)) (g : vec -> seq R)
    (n : nat) (cfg : mat) (dets : seq (seq nat)) : SlaterState :=
  mkSlaterState (F2 (mo_rows norb C g cfg))
    [seq (sign_logabs (det_value norb C g n cfg d)).1 | d <- dets]
    [seq (sign_logabs (det_value norb C g n cfg d)).2 | d <- dets]
    [seq inverse_of norb C g n cfg d | d <- dets].

Lemma sign_logabs_0 : sign_logabs 0 = (Fin 0, NInf).
Proof.
rewrite /sign_logabs xlog_abs eqxx (_ : Rsgn 0 = 0) //.
exact: Rsgn_0.
Qed.

Lemma reference_cons (x : xreal) (l : vec) : reference (x :: l) = Some (foldl xmax x l).
Proof. by []. Qed.

Definition state0 : SlaterState := mkSlaterState [::] [::] [::] [::].


Lemma RmultE (x y : R) : (x * y)%Re = x * y.
Proof. by []. Qed.

Lemma RplusE (x y : R) : (x + y)%Re = x + y.
Proof. by []. Qed.

(** ** Sums of signed exponentials *)

(** The log-magnitude [slogdet] reports for a determinant of value [d]. *)
Definition log_of (d : R) : xreal := (sign_logabs d).2.

Lemma log_ofE d : log_of d = if d == 0 then NInf else Fin (ln (Rabs d)).
Proof. by rewrite /log_of /sign_logabs /= -/(xabs (Fin d)) xlog_abs. Qed.

Definition log_like (x : xreal) : bool :=
  match x with Fin _ | NInf => true | _ => false end.

Lemma log_like_log_of d : log_like (log_of d).
Proof. by rewrite log_ofE; case: ifP. Qed.

Lemma foldl_xmax_fin (a : R) (l : vec) :
  all log_like l -> exists r, foldl xmax (Fin a) l = Fin r.
Proof.
elim: l a => [|x l IH] a /=; first by exists a.
by case: x => //= [b|] /IH; [apply | move=> H; apply: H].
Qed.

Lemma foldl_xmax_log_like (x : xreal) (l : vec) :
  log_like x -> all log_like l -> log_like (foldl xmax x l).
Proof.
elim: l x => [|y l IH] x //= lx /andP [ly /IH]; apply.
by case: x lx y ly => [a| | |] // _ [b| | |].
Qed.

Lemma foldl_xmax_ninf (l : vec) :
  all (fun x => if x is NInf then true else false) l ->
  foldl xmax NInf l = NInf.
Proof. by elim: l => //= -[] //. Qed.

Lemma foldl_xmax_has_fin (x : xreal) (l : vec) :
  log_like x -> all log_like l -> has is_fin (x :: l) ->
  exists r, foldl xmax x l = Fin r.
Proof.
elim: l x => [|y l IH] x /=.
  by case: x => // a _ _ _; exists a.
move=> lx /andP [ly ll] H; apply: IH => //.
  by case: x lx y ly {H} => [a| | |] // _ [b| | |].
case/or3P: H => [H|H|H] /=; last by rewrite H orbT.
- by case: x lx y ly H => [a| | |] // _ [b| | |].
- by case: x lx y ly H => [a| | |] // _ [b| | |].
Qed.

(** The maximum of log-magnitudes, at least one of them finite. *)
Lemma reference_fin (ds : seq R) :
  has (fun d => d != 0) ds ->
  exists r, reference [seq log_of d | d <- ds] = Some (Fin r).
Proof.
case: ds => [|d ds] // H.
have [r E] : exists r, foldl xmax (log_of d) [seq log_of d | d <- ds] = Fin r.
  apply: foldl_xmax_has_fin; first exact: log_like_log_of.
    by rewrite all_map; apply/allP => x _ /=; exact: log_like_log_of.
  have -> : log_of d :: [seq log_of x | x <- ds] =
            [seq log_of x | x <- d :: ds] by [].
  rewrite has_map; apply: sub_has H => x /= x0.
  by rewrite log_ofE (negbTE x0).
by exists r; rewrite /= E.
Qed.

Lemma reference_ninf (ds : seq R) :
  all (fun d => d == 0) ds -> (0 < size ds)%N ->
  reference [seq log_of d | d <- ds] = Some NInf.
Proof.
case: ds => [|d ds] //= /andP [/eqP -> H] _.
rewrite log_ofE eqxx foldl_xmax_ninf // all_map.
by apply: sub_all H => x /= /eqP ->; rewrite log_ofE eqxx.
Qed.

Lemma xsum_nan (l : vec) : has (fun x => if x is NaN then true else false) l ->
  xsum l = NaN.
Proof.
elim: l => //= x l IH /orP [|/IH ->]; last by case: x.
by case: x.
Qed.

Lemma xmul_nan (x : xreal) : xmul x NaN = NaN.
Proof. by case: x. Qed.

(** The value encoded by a sign and a log-magnitude. *)
Definition value_of (s l : xreal) : xreal := xmul s (xexp l).

Lemma value_of_sign_log (V r : R) :
  value_of (xsign (Fin V)) (xadd (xlog (xabs (Fin V))) (Fin r)) =
  Fin (V * exp r)%Re.
Proof.
rewrite /value_of xlog_abs [xsign _]/=.
case: (V =P 0%Re) => [->|ne] /=.
  by rewrite Rsgn_0; congr Fin; lra.
rewrite exp_plus exp_ln; first exact: Rabs_pos_lt.
by congr Fin; rewrite -{3}(Rsgn_abs V); ring.
Qed.

Lemma xdiv_scale (a b K : R) :
  (0 < K)%Re -> xdiv (Fin (a * K)%Re) (Fin (b * K)%Re) = xdiv (Fin a) (Fin b).
Proof.
move=> K0; rewrite /xdiv.
have eq0 x : ((x * K)%Re == R0) = (x == R0).
  apply/eqP/eqP => [E|->]; last by rewrite Rmult_0_l.
  have : (x * K = 0)%Re by [].
  by move=> /Rmult_integral [] //; lra.
rewrite !eq0; case: (b =P R0) => [_|nb].
  case: (a =P R0) => // na; congr xinf.
  have na' : (a <> 0)%Re by [].
  by apply/RltbP/RltbP => h; nra.
have nb' : (b <> 0)%Re by [].
by congr Fin; field; split=> //; lra.
Qed.

Section SignedTerms.

Variables (us ul ds dl : vec) (uv dv : nat -> R) (nu nd : nat).
Hypothesis Hu : forall k, (k < nu)%N ->
  (nth NaN us k, nth NaN ul k) = sign_logabs (uv k).
Hypothesis Hd : forall k, (k < nd)%N ->
  (nth NaN ds k, nth NaN dl k) = sign_logabs (dv k).

(** Terms with real coefficients: coefficient, up index, down index. *)
Variable rterms : seq (R * (nat * nat)).
Hypothesis in_range : all (fun p => (p.2.1 < nu)%N && (p.2.2 < nd)%N) rterms.

Definition term_value (p : R * (nat * nat)) : R := uv p.2.1 * dv p.2.2.

Definition lift_term (p : R * (nat * nat)) : ci_term :=
  mk_ci_term (Fin p.1) p.2.1 p.2.2.

(** The value of the expansion: the weighted sum of its terms. *)
Definition psi : R := \sum_(p <- rterms) p.1 * term_value p.

Lemma term_pair p :
  (p.2.1 < nu)%N && (p.2.2 < nd)%N ->
  (term_sign us ds (lift_term p), term_logmag ul dl (lift_term p)) =
  sign_logabs (term_value p).
Proof.
case/andP => /Hu [su lu] /Hd [sd ld].
by rewrite /term_sign /term_logmag /= su lu sd ld sign_logabs_mul.
Qed.

Lemma logmags_terms :
  [seq term_logmag ul dl t | t <- [seq lift_term p | p <- rterms]] =
  [seq log_of (term_value p) | p <- rterms].
Proof.
rewrite -map_comp; apply/eq_in_map => p /(allP in_range) /term_pair /= [_ ->].
by [].
Qed.

Lemma summands_terms (r : R) :
  [seq xmul (xmul (t_coeff t) (term_sign us ds t))
            (xexp (xsub (term_logmag ul dl t) (Fin r)))
  | t <- [seq lift_term p | p <- rterms]] =
  F1 [seq (p.1 * term_value p * exp (- r))%Re | p <- rterms].
Proof.
rewrite /F1 -!map_comp; apply/eq_in_map => p /(allP in_range) /term_pair /=.
by case=> -> ->; rewrite term_sign_logabs.
Qed.

Lemma total_terms (r : R) :
  xsum [seq xmul (xmul (t_coeff t) (term_sign us ds t))
                 (xexp (xsub (term_logmag ul dl t) (Fin r)))
       | t <- [seq lift_term p | p <- rterms]] =
  Fin (psi * exp (- r))%Re.
Proof.
rewrite summands_terms xsum_F1 /rsum /psi big_map; congr Fin.
by rewrite [RHS]RmultE mulr_suml.
Qed.

Lemma logmags_terms_values :
  [seq term_logmag ul dl t | t <- [seq lift_term p | p <- rterms]] =
  [seq log_of d | d <- [seq term_value p | p <- rterms]].
Proof. by rewrite logmags_terms -map_comp. Qed.

Lemma lse_value :
  has (fun p => term_value p != 0) rterms ->
  exists r,
    log_sum_exp_sign [seq lift_term p | p <- rterms] us ul ds dl =
    Some (xsign (Fin (psi * exp (- r))%Re),
          xadd (xlog (xabs (Fin (psi * exp (- r))%Re))) (Fin r)).
Proof.
move=> H; rewrite /log_sum_exp_sign logmags_terms_values.
have H' : has (fun d => d != 0) [seq term_value p | p <- rterms].
  by rewrite has_map.
have [r ->] := reference_fin H'.
by exists r; rewrite total_terms.
Qed.

Lemma lse_nan :
  all (fun p => term_value p == 0) rterms -> (0 < size rterms)%N ->
  log_sum_exp_sign [seq lift_term p | p <- rterms] us ul ds dl =
  Some (NaN, NaN).
Proof.
move=> H n0; rewrite /log_sum_exp_sign logmags_terms_values.
rewrite reference_ninf ?size_map ?all_map //.
case: rterms H n0 in_range => [|p ps] //= /andP [/eqP p0 _] _ /andP [rp _].
have p0' : term_value p = 0%Re := p0.
have s0 : sign_logabs 0%Re = (Fin 0, NInf) := sign_logabs_0.
have [_ E] := term_pair rp.
move: E; rewrite p0' -/(xabs (Fin 0%Re)) xlog_abs eqxx => E.
by rewrite E /= xmul_nan.
Qed.

End SignedTerms.

(** ** Auxiliary facts about lists and signs *)

Lemma xaddC (x y : xreal) : xadd x y = xadd y x.
Proof. by case: x y => [a| | |] [b| | |] //=; rewrite Rplus_comm. Qed.

Lemma Rsgn_eq0 (d : R) : (Rsgn d == 0) = (d == 0).
Proof.
case: (Rsgn_cases d) => [[h ->]|[h ->]|[-> ->]]; last by rewrite !eqxx.
- have n1 : (1%Re : R) <> 0 by move=> e; have e' : (1 = 0)%Re := e; lra.
  have n2 : d <> 0 by move=> e; have e' : d = 0%Re := e; lra.
  by rewrite (eqr_false n1) (eqr_false n2).
- have n1 : ((-1)%Re : R) <> 0 by move=> e; have e' : (-1 = 0)%Re := e; lra.
  have n2 : d <> 0 by move=> e; have e' : d = 0%Re := e; lra.
  by rewrite (eqr_false n1) (eqr_false n2).
Qed.

(** A cached sign that is a nonzero number. *)
Definition nonzero_sign (x : xreal) : bool :=
  if x is Fin r then r != 0 else false.

Lemma zipwith_map2 (A B C D : Type) (f : B -> C -> D) (a : A -> B)
    (b : A -> C) (s : seq A) :
  zipwith f [seq a x | x <- s] [seq b x | x <- s] = [seq f (a x) (b x) | x <- s].
Proof. by rewrite /zipwith; elim: s => //= x s ->. Qed.

Lemma mapM2_map_l (A B C : Type) (h : B -> A -> res C) (f : A -> B)
    (s : seq A) :
  mapM2 h [seq f x | x <- s] s = mapM (fun x => h (f x) x) s.
Proof.
rewrite /mapM2 size_map eqxx.
by elim: s => //= x s ->.
Qed.

Lemma take_set_nth (T : Type) (x0 : T) (s : seq T) (n e : nat) (y : T) :
  (e < n)%N -> (n <= size s)%N ->
  take n (set_nth x0 s e y) = set_nth x0 (take n s) e y.
Proof.
elim: s n e => [|x s IH] [|n] [|e] //= lt le.
by rewrite IH.
Qed.

Lemma drop_set_nth (T : Type) (x0 : T) (s : seq T) (n e : nat) (y : T) :
  (e < n)%N -> (n <= size s)%N ->
  drop n (set_nth x0 s e y) = drop n s.
Proof.
elim: s n e => [|x s IH] [|n] [|e] //= lt le.
by rewrite IH.
Qed.

Lemma map_set_nth (T U : Type) (f : T -> U) (x0 : T) (y0 : U) (s : seq T)
    (e : nat) (y : T) :
  (e < size s)%N ->
  [seq f x | x <- set_nth x0 s e y] = set_nth y0 [seq f x | x <- s] e (f y).
Proof.
elim: s e => [|x s IH] [|e] //= lt.
by rewrite IH.
Qed.

Lemma set_nth_same (T : Type) (x0 : T) (s : seq T) (e : nat) :
  (e < size s)%N -> set_nth x0 s e (nth x0 s e) = s.
Proof.
elim: s e => [|x s IH] [|e] //= lt.
by rewrite IH.
Qed.

Lemma nth_submatrix (m : seq (seq R)) (d : seq nat) (i j : nat) :
  (i < size m)%N -> (j < size d)%N ->
  nth 0 (nth [::] (submatrix m d) i) j = nth 0 (nth [::] m i) (nth 0%N d j).
Proof.
by move=> li lj; rewrite (nth_map [::]) // (nth_map 0%N).
Qed.


(** ** Moving one electron *)

Section MoveOneElectron.

Variables (norb : nat) (C : seq (seq R)) (g : vec -> seq R).
Variables (n : nat) (cfg : mat) (dets : seq (seq nat)) (e : 'I_n) (pos : vec).
Hypothesis size_cfg : size cfg = n.
Hypothesis dets_ok : all (valid_det norb n) dets.

(** The determinant-ratio scalar of a determinant for the move of
    electron [e] to [pos], from the exact inverse. *)
Definition move_ratio (d : seq nat) : R :=
  lemma_ratio (invmx (slater_mx norb C g n cfg d))
    (orbital_row n (mo_row norb C g pos) d) e.

Lemma size_mo_row p : size (mo_row norb C g p) = norb.
Proof. exact: size_rvecmat. Qed.

Lemma mo_rows_set_nth :
  mo_rows norb C g (set_nth [::] cfg e pos) =
  set_nth [::] (mo_rows norb C g cfg) e (mo_row norb C g pos).
Proof. by rewrite /mo_rows (map_set_nth _ _ [::]) // size_cfg. Qed.

Lemma slater_mx_move d :
  size d = n ->
  slater_mx norb C g n (set_nth [::] cfg e pos) d =
  replace_row (slater_mx norb C g n cfg d)
    (orbital_row n (mo_row norb C g pos) d) e.
Proof.
move=> sd; apply/matrixP => i j; rewrite !mxE mo_rows_set_nth.
rewrite !nth_submatrix ?sd ?size_set_nth ?size_map ?size_cfg //.
  by rewrite leq_max [(i < n)%N]ltn_ord orbT.
by rewrite nth_set_nth /= -val_eqE /=; case: ifP.
Qed.

Lemma det_value_move d :
  valid_det norb n d -> det_value norb C g n cfg d != 0 ->
  det_value norb C g n (set_nth [::] cfg e pos) d =
  move_ratio d * det_value norb C g n cfg d.
Proof.
case/andP => /eqP sd _ d0.
by rewrite /det_value slater_mx_move // det_replace_row.
Qed.

Hypothesis nonsingular :
  all (fun d => det_value norb C g n cfg d != 0) dets.

Let st := slater_state norb C g n cfg dets.
Let st' := slater_state norb C g n (set_nth [::] cfg e pos) dets.

Let dets_both :
  all (fun d => valid_det norb n d && (det_value norb C g n cfg d != 0)) dets.
Proof. by rewrite (all_predI (valid_det norb n)) dets_ok. Qed.

Lemma vmap_lemma_fin :
  vmap_lemma (F1 (mo_row norb C g pos)) (inverse st) dets (Z.of_nat e) =
  Ok [seq Fin (move_ratio d) | d <- dets].
Proof.
rewrite /vmap_lemma /= mapM2_map_l.
apply: mapM_ok dets_both => d /andP [/andP [/eqP sd dk] d0].
by rewrite /inverse_of d0 _determinant_lemma_mx // size_mo_row.
Qed.

Lemma sign_move :
  bcast2 xmul [seq xsign r | r <- [seq Fin (move_ratio d) | d <- dets]]
    (sign st) = Ok (sign st').
Proof.
rewrite bcast2_same ?size_map // -map_comp zipwith_map2; congr Ok.
apply/eq_in_map => d /(allP dets_both) /andP [vd d0] /=.
by rewrite det_value_move // -RmultE Rsgn_mul.
Qed.

Lemma logabs_move :
  bcast2 xadd (logabsdet st)
    [seq xlog (xabs r) | r <- [seq Fin (move_ratio d) | d <- dets]] =
  Ok (logabsdet st').
Proof.
rewrite bcast2_same ?size_map // -map_comp zipwith_map2; congr Ok.
apply/eq_in_map => d /(allP dets_both) /andP [vd d0] /=.
rewrite det_value_move // -RmultE xaddC.
by case: (sign_logabs_mul (move_ratio d) (det_value norb C g n cfg d)).
Qed.

End MoveOneElectron.

(** ** The ratio of a move from the old and the new determinant arrays *)

(** The common part of [testvalue_up] and [testvalue_down], after the new
    signs and log-magnitudes of the moved spin have been computed: primed
    arrays are the new ones, unprimed the cached ones. *)
Definition ratio_tail (ci : vec) (mu md : seq nat)
    (us' ul' ds' dl' us ul ds dl : vec) (mos : vec) : res (xreal * vec) :=
  logdets <- bcast2 xadd (jnp_take ul' mu) (jnp_take dl' md) ;;
  signdets <- bcast2 xmul (jnp_take us' mu) (jnp_take ds' md) ;;
  logdets_old <- bcast2 xadd (jnp_take ul mu) (jnp_take dl md) ;;
  signdets_old <- bcast2 xmul (jnp_take us mu) (jnp_take ds md) ;;
  ref <- jnp_max (logdets ++ logdets_old) ;;
  weighted <- bcast2 xmul ci signdets ;;
  terms <- bcast2 xmul weighted [seq xexp (xsub l ref) | l <- logdets] ;;
  let values := xsum terms in
  weighted_old <- bcast2 xmul ci signdets_old ;;
  terms_old <- bcast2 xmul weighted_old
                 [seq xexp (xsub l ref) | l <- logdets_old] ;;
  let values_old := xsum terms_old in
  let ratio := xdiv values values_old in
  Ok (ratio, mos).

Lemma testvalue_upE gto_evaluator expansion det_params dets_up dets_down e
    xyz :
  testvalue_up gto_evaluator expansion det_params dets_up dets_down e xyz =
  (mos <- vecmat (gto_evaluator xyz) (mo_coeff_alpha det_params) ;;
   ratios <- vmap_lemma mos (inverse dets_up) (determinants_up expansion) e ;;
   newsigns <- bcast2 xmul [seq xsign r | r <- ratios] (sign dets_up) ;;
   newlogabs <- bcast2 xadd (logabsdet dets_up)
                  [seq xlog (xabs r) | r <- ratios] ;;
   ratio_tail (ci_coeff det_params) (mapping_up expansion)
     (mapping_down expansion) newsigns newlogabs (sign dets_down)
     (logabsdet dets_down) (sign dets_up) (logabsdet dets_up)
     (sign dets_down) (logabsdet dets_down) mos).
Proof. by []. Qed.

Lemma testvalue_downE gto_evaluator expansion det_params dets_up dets_down e
    xyz :
  testvalue_down gto_evaluator expansion det_params dets_up dets_down e xyz =
  (mos <- vecmat (gto_evaluator xyz) (mo_coeff_beta det_params) ;;
   ratios <- vmap_lemma mos (inverse dets_down)
               (determinants_down expansion) e ;;
   newsigns <- bcast2 xmul [seq xsign r | r <- ratios] (sign dets_down) ;;
   newlogabs <- bcast2 xadd (logabsdet dets_down)
                  [seq xlog (xabs r) | r <- ratios] ;;
   ratio_tail (ci_coeff det_params) (mapping_up expansion)
     (mapping_down expansion) (sign dets_up) (logabsdet dets_up) newsigns
     newlogabs (sign dets_up) (logabsdet dets_up)
     (sign dets_down) (logabsdet dets_down) mos).
Proof. by []. Qed.

(** The weighted signed exponentials of the terms, summed. *)
Definition shifted_total (terms : seq ci_term) (us ul ds dl : vec)
    (ref : xreal) : xreal :=
  xsum [seq xmul (xmul (t_coeff t) (term_sign us ds t))
                 (xexp (xsub (term_logmag ul dl t) ref)) | t <- terms].

Lemma ratio_tailE ci mu md us' ul' ds' dl' us ul ds dl mos :
  size ci = size mu -> size mu = size md ->
  ratio_tail ci mu md us' ul' ds' dl' us ul ds dl mos =
  (ref <- jnp_max ([seq term_logmag ul' dl' t | t <- ci_terms ci mu md] ++
                   [seq term_logmag ul dl t | t <- ci_terms ci mu md]) ;;
   Ok (xdiv (shifted_total (ci_terms ci mu md) us' ul' ds' dl' ref)
            (shifted_total (ci_terms ci mu md) us ul ds dl ref), mos)).
Proof.
move=> e1 e2; rewrite /ratio_tail.
rewrite !bcast2_same ?size_jnp_take //= !(take_zip_terms _ _ _ e1 e2).
rewrite -!/(term_logmag _ _).
case: jnp_max => [ref|] //=.
have sT := size_ci_terms e1 e2.
have sz (g : ci_term -> xreal) :
  size ci = size [seq g t | t <- ci_terms ci mu md] by rewrite size_map sT.
rewrite !(bcast2_same _ (sz _)) [bind _ _]/=.
have sz2 (g h : ci_term -> xreal) :
  size (zipwith xmul ci [seq g t | t <- ci_terms ci mu md]) =
  size [seq xexp (xsub l ref) | l <- [seq h t | t <- ci_terms ci mu md]].
  by rewrite size_zipwith -(sz g) minnn size_map -(sz h).
rewrite !(bcast2_same _ (sz2 _ _)) /=.
by rewrite -!(map_comp (fun l => xexp (xsub l ref))) !coeff_zip_terms.
Qed.

Lemma ci_terms_lift (c : seq R) (mu md : seq nat) :
  ci_terms (F1 c) mu md = [seq lift_term p | p <- zip c (zip mu md)].
Proof.
rewrite /ci_terms /F1.
by elim: c mu md => [|x c IH] [|i mu] [|j md] //=; rewrite IH.
Qed.

Lemma in_range_zip (c : seq R) (mu md : seq nat) (nu nd : nat) :
  all (fun i => i < nu)%N mu -> all (fun i => i < nd)%N md ->
  all (fun p : R * (nat * nat) => (p.2.1 < nu)%N && (p.2.2 < nd)%N)
    (zip c (zip mu md)).
Proof.
elim: c mu md => [|x c IH] [|i mu] [|j md] //=.
by move=> /andP [-> /IH H] /andP [-> /H].
Qed.

Lemma psi_zero (uv dv : nat -> R) (rterms : seq (R * (nat * nat))) :
  all (fun p => term_value uv dv p == 0) rterms -> psi uv dv rterms = 0.
Proof.
move=> /allP H; rewrite /psi big_seq big1 // => p /H /eqP ->.
by rewrite mulr0.
Qed.

Section SignedTermsAtNode.

Variables (us ul ds dl : vec) (uv dv : nat -> R) (nu nd : nat).
Hypothesis Hu : forall k, (k < nu)%N ->
  (nth NaN us k, nth NaN ul k) = sign_logabs (uv k).
Hypothesis Hd : forall k, (k < nd)%N ->
  (nth NaN ds k, nth NaN dl k) = sign_logabs (dv k).
Variable rterms : seq (R * (nat * nat)).
Hypothesis in_range : all (fun p => (p.2.1 < nu)%N && (p.2.2 < nd)%N) rterms.

Lemma shifted_total_fin (r : R) :
  shifted_total [seq lift_term p | p <- rterms] us ul ds dl (Fin r) =
  Fin (psi uv dv rterms * exp (- r))%Re.
Proof. by rewrite /shifted_total (total_terms Hu Hd in_range). Qed.

(** With every term at a node the reference is -inf and the shifted
    log-magnitudes are not numbers. *)
Lemma shifted_total_ninf :
  all (fun p => term_value uv dv p == 0) rterms -> (0 < size rterms)%N ->
  shifted_total [seq lift_term p | p <- rterms] us ul ds dl NInf = NaN.
Proof.
rewrite /shifted_total.
case: rterms in_range => [|p ps] //= /andP [rp _] /andP [/eqP p0 _] _.
have p0' : term_value uv dv p = 0%Re := p0.
have [_ E] := term_pair Hu Hd rp.
move: E; rewrite p0' -/(xabs (Fin 0%Re)) xlog_abs eqxx => E.
by rewrite E /= xmul_nan.
Qed.

End SignedTermsAtNode.

Section RatioTail.

Variables (us ul ds dl us' ul' ds' dl' : vec) (uv dv uv' dv' : nat -> R).
Variables (nu nd : nat).
Hypothesis Hu : forall k, (k < nu)%N ->
  (nth NaN us k, nth NaN ul k) = sign_logabs (uv k).
Hypothesis Hd : forall k, (k < nd)%N ->
  (nth NaN ds k, nth NaN dl k) = sign_logabs (dv k).
Hypothesis Hu' : forall k, (k < nu)%N ->
  (nth NaN us' k, nth NaN ul' k) = sign_logabs (uv' k).
Hypothesis Hd' : forall k, (k < nd)%N ->
  (nth NaN ds' k, nth NaN dl' k) = sign_logabs (dv' k).

Variables (c : seq R) (mu md : seq nat).
Hypothesis size_c : size c = size mu.
Hypothesis size_m : size mu = size md.
Hypothesis c_pos : (0 < size c)%N.
Hypothesis mu_ok : all (fun i => i < nu)%N mu.
Hypothesis md_ok : all (fun i => i < nd)%N md.

Let rterms := zip c (zip mu md).

Let in_range : all (fun p => (p.2.1 < nu)%N && (p.2.2 < nd)%N) rterms.
Proof. exact: in_range_zip. Qed.

Let size_rterms : (0 < size rterms)%N.
Proof. by rewrite /rterms !size_zip -size_m -size_c !minnn. Qed.

Lemma ratio_tail_fin (mos : vec) :
  ratio_tail (F1 c) mu md us' ul' ds' dl' us ul ds dl mos =
  Ok (xdiv (Fin (psi uv' dv' rterms)) (Fin (psi uv dv rterms)), mos).
Proof.
rewrite ratio_tailE ?size_F1 // ci_terms_lift -/rterms.
rewrite (logmags_terms_values Hu' Hd' in_range).
rewrite (logmags_terms_values Hu Hd in_range) -map_cat jnp_max_reference.
set vals := _ ++ _.
case H: (has (fun d => d != 0) vals).
  have [r ->] := reference_fin H.
  rewrite [bind _ _]/= (shifted_total_fin Hu' Hd' in_range).
  by rewrite (shifted_total_fin Hu Hd in_range) xdiv_scale //; apply: exp_pos.
have za : all (fun d => d == 0) vals.
  rewrite (eq_all (a2 := predC (fun d : R => d != 0))).
    by move=> d /=; rewrite negbK.
  by rewrite all_predC H.
rewrite reference_ninf //; first by rewrite size_cat size_map addn_gt0 size_rterms.
move: za; rewrite all_cat !all_map => /andP [z' z].
rewrite [bind _ _]/= (shifted_total_ninf Hu' Hd' in_range z' size_rterms).
rewrite (shifted_total_ninf Hu Hd in_range z size_rterms).
by rewrite (psi_zero z') (psi_zero z) /xdiv eqxx.
Qed.

End RatioTail.

Lemma take_set_nth_ge (T : Type) (x0 : T) (s : seq T) (n e : nat) (y : T) :
  (n + e < size s)%N -> take n (set_nth x0 s (n + e) y) = take n s.
Proof.
elim: s n => [|x s IH] [|n] //=; first by rewrite take0.
by rewrite addSn ltnS => /IH ->.
Qed.

Lemma drop_set_nth_ge (T : Type) (x0 : T) (s : seq T) (n e : nat) (y : T) :
  (n + e < size s)%N ->
  drop n (set_nth x0 s (n + e) y) = set_nth x0 (drop n s) e y.
Proof.
elim: s n => [|x s IH] [|n] //=; first by rewrite add0n drop0.
by rewrite addSn ltnS => /IH ->.
Qed.

Lemma map_cst (A B : Type) (f : A -> B) (y : B) (s : seq A) :
  (forall x, f x = y) -> [seq f x | x <- s] = nseq (size s) y.
Proof. by move=> H; elim: s => //= x s ->; rewrite H. Qed.

Lemma move_ratio_same norb C g n (cfg : mat) (e : 'I_n) (d : seq nat) :
  size cfg = n -> size d = n -> det_value norb C g n cfg d != 0 ->
  move_ratio norb C g cfg e (nth [::] cfg e) d = 1.
Proof.
move=> sc sd d0; rewrite /move_ratio.
rewrite (_ : orbital_row _ _ _ = row e (slater_mx norb C g n cfg d)).
  apply/matrixP => i j; rewrite !mxE nth_submatrix ?size_map ?sc ?sd //.
  by rewrite (nth_map [::]) ?sc.
exact: lemma_ratio_same_row.
Qed.

(** ** A wavefunction with finite parameters and basis values *)

Section FiniteWavefunction.

Variables (nb norb_up norb_down : nat) (Ca Cb : seq (seq R)).
Variables (g : vec -> seq R) (ex : DeterminantExpansion).
Variables (nelec : nat * nat) (c : seq R).

Hypothesis rect_Ca : rect nb norb_up Ca.
Hypothesis rect_Cb : rect nb norb_down Cb.
Hypothesis nb_pos : (0 < nb)%N.
Hypothesis size_g : forall p, size (g p) = nb.
Hypothesis dets_up_ok : all (valid_det norb_up nelec.1) (determinants_up ex).
Hypothesis dets_down_ok :
  all (valid_det norb_down nelec.2) (determinants_down ex).
Hypothesis size_ci : size c = size (mapping_up ex).
Hypothesis size_mapping : size (mapping_up ex) = size (mapping_down ex).

Definition fin_gto (p : vec) : vec := F1 (g p).

Definition fin_params : DeterminantParameters :=
  mkDeterminantParameters (F1 c) (F2 Ca) (F2 Cb).

Definition state_up (xyz : mat) : SlaterState :=
  slater_state norb_up Ca g nelec.1 (take nelec.1 xyz) (determinants_up ex).

Definition state_down (xyz : mat) : SlaterState :=
  slater_state norb_down Cb g nelec.2 (drop nelec.1 xyz)
    (determinants_down ex).

Definition valid_config (xyz : mat) : bool :=
  size xyz == (nelec.1 + nelec.2)%N.

Lemma compute_up xyz :
  valid_config xyz ->
  compute_determinants (F2 Ca) (gto_ne fin_gto) (determinants_up ex)
    (take nelec.1 xyz) = Ok (state_up xyz).
Proof.
move=> /eqP sz; apply: (compute_determinants_fin rect_Ca) => //.
by rewrite size_take sz; case: (nelec.2) => [|m]; rewrite ?addn0 ?ltnn // -addSnnS ltn_addr.
Qed.

Lemma compute_down xyz :
  valid_config xyz ->
  compute_determinants (F2 Cb) (gto_ne fin_gto) (determinants_down ex)
    (drop nelec.1 xyz) = Ok (state_down xyz).
Proof.
move=> /eqP sz; apply: (compute_determinants_fin rect_Cb) => //.
by rewrite size_drop sz addKn.
Qed.

Definition fin_terms : seq ci_term :=
  ci_terms (F1 c) (mapping_up ex) (mapping_down ex).

(** The combined sign and log-magnitude at a configuration. *)
Definition combined (xyz : mat) : xreal * xreal :=
  odflt (NaN, NaN)
    (log_sum_exp_sign fin_terms (sign (state_up xyz)) (logabsdet (state_up xyz))
       (sign (state_down xyz)) (logabsdet (state_down xyz))).

Lemma evaluate_expansion_fin xyz :
  (0 < size c)%N -> valid_config xyz ->
  evaluate_expansion (gto_ne fin_gto) ex nelec fin_params xyz =
  Ok ((combined xyz).1, (combined xyz).2, state_up xyz, state_down xyz).
Proof.
move=> c0 vc; rewrite evaluate_expansionE ?size_F1 //=.
rewrite compute_up // compute_down //= /combined -/fin_terms.
have : (0 < size fin_terms)%N by rewrite size_ci_terms ?size_F1.
rewrite /log_sum_exp_sign; case: fin_terms => [|t ts] //= _.
Qed.

Lemma nth_sign_state norb C n cfg dets k :
  (k < size dets)%N ->
  (nth NaN (sign (slater_state norb C g n cfg dets)) k,
   nth NaN (logabsdet (slater_state norb C g n cfg dets)) k) =
  sign_logabs (det_value norb C g n cfg (nth [::] dets k)).
Proof.
by move=> lt; rewrite /= !(nth_map [::]) //; case: sign_logabs.
Qed.

(** C5. With finite parameters and basis values and well-shaped arrays,
    evaluation of a batch of configurations does not raise, whatever
    determinants are singular: every configuration gets its result, the
    determinant states in it are those of [compute_determinants], and a
    determinant whose occupied-orbital matrix is singular has sign 0 and
    log-magnitude -inf there. *)
Theorem singular_determinant_is_data (batch : seq mat) :
  (0 < size c)%N -> all valid_config batch ->
  exists out,
    [/\ mapM (evaluate_expansion (gto_ne fin_gto) ex nelec fin_params) batch
          = Ok out,
        size out = size batch
      & forall i, (i < size batch)%N ->
          let xyz := nth [::] batch i in
          let o := nth (NaN, NaN, state0, state0) out i in
          [/\ compute_determinants (F2 Ca) (gto_ne fin_gto)
                (determinants_up ex) (take nelec.1 xyz) = Ok o.1.2,
              compute_determinants (F2 Cb) (gto_ne fin_gto)
                (determinants_down ex) (drop nelec.1 xyz) = Ok o.2,
              forall k, (k < size (determinants_up ex))%N ->
                det_value norb_up Ca g nelec.1 (take nelec.1 xyz)
                  (nth [::] (determinants_up ex) k) = 0 ->
                nth NaN (sign o.1.2) k = Fin 0 /\
                nth NaN (logabsdet o.1.2) k = NInf
            & forall k, (k < size (determinants_down ex))%N ->
                det_value norb_down Cb g nelec.2 (drop nelec.1 xyz)
                  (nth [::] (determinants_down ex) k) = 0 ->
                nth NaN (sign o.2) k = Fin 0 /\
                nth NaN (logabsdet o.2) k = NInf]].
Proof.
move=> c0 vb.
pose f xyz := ((combined xyz).1, (combined xyz).2, state_up xyz,
               state_down xyz).
exists [seq f xyz | xyz <- batch]; split; last 1 first.
- move=> i lt xyz o.
  have -> : o = f xyz by rewrite /o (nth_map [::]).
  have vc : valid_config xyz by move/all_nthP: vb; apply.
  split; rewrite /f /=.
  + exact: compute_up.
  + exact: compute_down.
  + move=> k ltk d0.
    have := nth_sign_state norb_up Ca nelec.1 (take nelec.1 xyz) ltk.
    by rewrite d0 sign_logabs_0 => -[-> ->].
  + move=> k ltk d0.
    have := nth_sign_state norb_down Cb nelec.2 (drop nelec.1 xyz) ltk.
    by rewrite d0 sign_logabs_0 => -[-> ->].
- apply: (mapM_ok (P := valid_config)) vb => xyz vc.
  exact: evaluate_expansion_fin.
- by rewrite size_map.
Qed.


(** *** The value of the wavefunction *)

Hypothesis mu_ok :
  all (fun i => i < size (determinants_up ex))%N (mapping_up ex).
Hypothesis md_ok :
  all (fun i => i < size (determinants_down ex))%N (mapping_down ex).

Definition rterms : seq (R * (nat * nat)) :=
  zip c (zip (mapping_up ex) (mapping_down ex)).

Definition up_value (xyz : mat) (k : nat) : R :=
  det_value norb_up Ca g nelec.1 (take nelec.1 xyz)
    (nth [::] (determinants_up ex) k).

Definition down_value (xyz : mat) (k : nat) : R :=
  det_value norb_down Cb g nelec.2 (drop nelec.1 xyz)
    (nth [::] (determinants_down ex) k).

(** The weighted sum of the products of determinants. *)
Definition wf_value (xyz : mat) : R :=
  psi (up_value xyz) (down_value xyz) rterms.

Lemma Hu_state xyz k :
  (k < size (determinants_up ex))%N ->
  (nth NaN (sign (state_up xyz)) k, nth NaN (logabsdet (state_up xyz)) k) =
  sign_logabs (up_value xyz k).
Proof. exact: nth_sign_state. Qed.

Lemma Hd_state xyz k :
  (k < size (determinants_down ex))%N ->
  (nth NaN (sign (state_down xyz)) k, nth NaN (logabsdet (state_down xyz)) k)
  = sign_logabs (down_value xyz k).
Proof. exact: nth_sign_state. Qed.

Lemma rterms_in_range :
  all (fun p : R * (nat * nat) =>
         (p.2.1 < size (determinants_up ex))%N &&
         (p.2.2 < size (determinants_down ex))%N) rterms.
Proof. exact: in_range_zip. Qed.

Lemma size_rterms : size rterms = size c.
Proof. by rewrite /rterms !size_zip -size_mapping -size_ci !minnn. Qed.

Lemma combined_at_node xyz :
  (0 < size c)%N ->
  all (fun p => term_value (up_value xyz) (down_value xyz) p == 0) rterms ->
  combined xyz = (NaN, NaN).
Proof.
move=> c0 z; rewrite /combined /fin_terms ci_terms_lift.
by rewrite (lse_nan (Hu_state xyz) (Hd_state xyz) rterms_in_range) ?size_rterms.
Qed.

Lemma combined_off_node xyz :
  has (fun p => term_value (up_value xyz) (down_value xyz) p != 0) rterms ->
  exists r,
    combined xyz =
    (xsign (Fin (wf_value xyz * exp (- r))%Re),
     xadd (xlog (xabs (Fin (wf_value xyz * exp (- r))%Re))) (Fin r)).
Proof.
move=> H; rewrite /combined /fin_terms ci_terms_lift.
have [r ->] := lse_value (Hu_state xyz) (Hd_state xyz) rterms_in_range H.
by exists r.
Qed.

Lemma combined_fin_sign xyz :
  (0 < size c)%N -> is_fin (combined xyz).1 ->
  has (fun p => term_value (up_value xyz) (down_value xyz) p != 0) rterms.
Proof.
move=> c0; case H: (has _ _) => //.
rewrite combined_at_node //.
rewrite (eq_all (a2 := predC (fun p => 
   term_value (up_value xyz) (down_value xyz) p != 0))).
  by move=> p /=; rewrite negbK.
by rewrite all_predC H.
Qed.

Lemma combined_value xyz :
  (0 < size c)%N -> is_fin (combined xyz).1 ->
  value_of (combined xyz).1 (combined xyz).2 = Fin (wf_value xyz).
Proof.
move=> c0 /(combined_fin_sign c0) /combined_off_node [r ->].
rewrite [(_, _).1]/= [(_, _).2]/= value_of_sign_log; congr Fin.
by rewrite Rmult_assoc -exp_plus Rplus_opp_l exp_0 Rmult_1_r.
Qed.

Lemma nonzero_sign_fin x : nonzero_sign x -> is_fin x.
Proof. by case: x. Qed.

Lemma combined_nonzero_sign xyz :
  (0 < size c)%N -> nonzero_sign (combined xyz).1 -> wf_value xyz != 0.
Proof.
move=> c0 nz; move: (nz).
have /(combined_fin_sign c0) /combined_off_node [r ->] := nonzero_sign_fin nz.
rewrite /nonzero_sign /= Rsgn_eq0; apply: contraNN => /eqP ->.
by rewrite RmultE mul0r.
Qed.

Lemma nonsingular_signs norb C n cfg dets :
  all nonzero_sign (sign (slater_state norb C g n cfg dets)) ->
  all (fun d => det_value norb C g n cfg d != 0) dets.
Proof.
rewrite /= all_map; apply: sub_all => d /=.
by rewrite Rsgn_eq0.
Qed.

(** *** Moving one electron of either spin *)

Lemma down_value_up_move xyz e pos :
  valid_config xyz -> (e < nelec.1)%N ->
  down_value (set_nth [::] xyz e pos) = down_value xyz.
Proof.
move=> /eqP sz lt; rewrite /down_value drop_set_nth // sz.
exact: leq_addr.
Qed.

Lemma up_value_down_move xyz e pos :
  valid_config xyz -> (e < nelec.2)%N ->
  up_value (set_nth [::] xyz (nelec.1 + e) pos) = up_value xyz.
Proof.
by move=> /eqP sz lt; rewrite /up_value take_set_nth_ge // sz ltn_add2l.
Qed.

Lemma state_up_move xyz e pos :
  valid_config xyz -> (e < nelec.1)%N ->
  state_up (set_nth [::] xyz e pos) =
  slater_state norb_up Ca g nelec.1 (set_nth [::] (take nelec.1 xyz) e pos)
    (determinants_up ex).
Proof.
move=> /eqP sz lt; rewrite /state_up take_set_nth // sz.
exact: leq_addr.
Qed.

Lemma state_down_move xyz e pos :
  valid_config xyz -> (e < nelec.2)%N ->
  state_down (set_nth [::] xyz (nelec.1 + e) pos) =
  slater_state norb_down Cb g nelec.2 (set_nth [::] (drop nelec.1 xyz) e pos)
    (determinants_down ex).
Proof.
by move=> /eqP sz lt; rewrite /state_down drop_set_nth_ge // sz ltn_add2l.
Qed.

Lemma state_down_up_move xyz e pos :
  valid_config xyz -> (e < nelec.1)%N ->
  state_down (set_nth [::] xyz e pos) = state_down xyz.
Proof.
move=> /eqP sz lt; rewrite /state_down drop_set_nth // sz.
exact: leq_addr.
Qed.

Lemma state_up_down_move xyz e pos :
  valid_config xyz -> (e < nelec.2)%N ->
  state_up (set_nth [::] xyz (nelec.1 + e) pos) = state_up xyz.
Proof.
by move=> /eqP sz lt; rewrite /state_up take_set_nth_ge // sz ltn_add2l.
Qed.

Lemma size_take_up xyz : valid_config xyz -> size (take nelec.1 xyz) = nelec.1.
Proof.
move=> /eqP sz; rewrite size_take sz.
by case: (nelec.2) => [|m]; rewrite ?addn0 ?ltnn // -addSnnS ltn_addr.
Qed.

Lemma size_drop_down xyz :
  valid_config xyz -> size (drop nelec.1 xyz) = nelec.2.
Proof. by move=> /eqP sz; rewrite size_drop sz addKn. Qed.

Lemma valid_config_set_nth xyz k pos :
  valid_config xyz -> (k < nelec.1 + nelec.2)%N ->
  valid_config (set_nth [::] xyz k pos).
Proof.
move=> /eqP sz lt; rewrite /valid_config size_set_nth sz.
by apply/eqP/maxn_idPr.
Qed.

Lemma testvalue_up_fin xyz e pos :
  (0 < size c)%N -> valid_config xyz -> (e < nelec.1)%N ->
  all nonzero_sign (sign (state_up xyz)) ->
  testvalue_up fin_gto ex fin_params (state_up xyz) (state_down xyz)
    (Z.of_nat e) pos =
  Ok (xdiv (Fin (wf_value (set_nth [::] xyz e pos))) (Fin (wf_value xyz)),
      F1 (mo_row norb_up Ca g pos)).
Proof.
move=> c0 vc lt /nonsingular_signs ns.
rewrite testvalue_upE [mo_coeff_alpha _]/= /fin_gto.
rewrite (vecmat_F (size_g pos) rect_Ca nb_pos) [bind _ _]/=.
have := vmap_lemma_fin (Ordinal lt) pos dets_up_ok ns.
rewrite [nat_of_ord _]/= -/(state_up xyz) => -> /=.
have := sign_move (Ordinal lt) pos (size_take_up vc) dets_up_ok ns.
rewrite [nat_of_ord _]/= -/(state_up xyz) -state_up_move // => -> /=.
have := logabs_move (Ordinal lt) pos (size_take_up vc) dets_up_ok ns.
rewrite [nat_of_ord _]/= -/(state_up xyz) -state_up_move // => -> /=.
rewrite (ratio_tail_fin (Hu_state xyz) (Hd_state xyz)
           (Hu_state (set_nth [::] xyz e pos)) (Hd_state xyz)
           size_ci size_mapping c0 mu_ok md_ok).
by rewrite /wf_value down_value_up_move.
Qed.

Lemma testvalue_down_fin xyz e pos :
  (0 < size c)%N -> valid_config xyz -> (e < nelec.2)%N ->
  all nonzero_sign (sign (state_down xyz)) ->
  testvalue_down fin_gto ex fin_params (state_up xyz) (state_down xyz)
    (Z.of_nat e) pos =
  Ok (xdiv (Fin (wf_value (set_nth [::] xyz (nelec.1 + e) pos)))
           (Fin (wf_value xyz)),
      F1 (mo_row norb_down Cb g pos)).
Proof.
move=> c0 vc lt /nonsingular_signs ns.
rewrite testvalue_downE [mo_coeff_beta _]/= /fin_gto.
rewrite (vecmat_F (size_g pos) rect_Cb nb_pos) [bind _ _]/=.
have := vmap_lemma_fin (Ordinal lt) pos dets_down_ok ns.
rewrite [nat_of_ord _]/= -/(state_down xyz) => -> /=.
have := sign_move (Ordinal lt) pos (size_drop_down vc) dets_down_ok ns.
rewrite [nat_of_ord _]/= -/(state_down xyz) -state_down_move // => -> /=.
have := logabs_move (Ordinal lt) pos (size_drop_down vc) dets_down_ok ns.
rewrite [nat_of_ord _]/= -/(state_down xyz) -state_down_move // => -> /=.
rewrite (ratio_tail_fin (Hu_state xyz) (Hd_state xyz) (Hu_state xyz)
           (Hd_state (set_nth [::] xyz (nelec.1 + e) pos))
           size_ci size_mapping c0 mu_ok md_ok).
by rewrite /wf_value up_value_down_move.
Qed.


Lemma xdiv_same (a : R) : a != 0 -> xdiv (Fin a) (Fin a) = Fin 1.
Proof.
move=> /eqP a0; have a0' : a <> 0%Re := a0.
by rewrite xdiv_fin // /Rdiv Rinv_r.
Qed.

Lemma noop_ratios norb C n (cfg : mat) (dets : seq (seq nat)) (e : 'I_n) :
  size cfg = n -> all (valid_det norb n) dets ->
  all (fun d => det_value norb C g n cfg d != 0) dets ->
  vmap_lemma (F1 (mo_row norb C g (nth [::] cfg e)))
    (inverse (slater_state norb C g n cfg dets)) dets (Z.of_nat e) =
  Ok (nseq (size dets) (Fin 1)).
Proof.
move=> sc vd ns; rewrite (vmap_lemma_fin e _ vd ns); congr Ok.
rewrite -(map_cst (f := fun=> Fin 1) dets) //.
apply/eq_in_map => d din; congr Fin; apply: move_ratio_same => //.
  by case/andP: (allP vd _ din) => /eqP.
exact: (allP ns).
Qed.

Lemma sign_of_value xyz :
  has (fun p => term_value (up_value xyz) (down_value xyz) p != 0) rterms ->
  is_fin (combined xyz).1.
Proof. by case/combined_off_node => r ->. Qed.

Lemma old_term_nonzero_up xyz e pos :
  valid_config xyz -> (e < nelec.1)%N ->
  all nonzero_sign (sign (state_up xyz)) ->
  has (fun p => term_value (up_value (set_nth [::] xyz e pos))
                  (down_value (set_nth [::] xyz e pos)) p != 0) rterms ->
  has (fun p => term_value (up_value xyz) (down_value xyz) p != 0) rterms.
Proof.
move=> vc lt /nonsingular_signs /(all_nthP [::]) ns /hasP [p pin nz].
apply/hasP; exists p => //; move: nz.
rewrite /term_value down_value_up_move // mulf_eq0 negb_or.
case/andP => _ dn; apply: mulf_neq0 => //; apply: ns.
by case/andP: (allP rterms_in_range _ pin).
Qed.

Lemma old_term_nonzero_down xyz e pos :
  valid_config xyz -> (e < nelec.2)%N ->
  all nonzero_sign (sign (state_down xyz)) ->
  has (fun p => term_value (up_value (set_nth [::] xyz (nelec.1 + e) pos))
                  (down_value (set_nth [::] xyz (nelec.1 + e) pos)) p != 0)
    rterms ->
  has (fun p => term_value (up_value xyz) (down_value xyz) p != 0) rterms.
Proof.
move=> vc lt /nonsingular_signs /(all_nthP [::]) ns /hasP [p pin nz].
apply/hasP; exists p => //; move: nz.
rewrite /term_value up_value_down_move // mulf_eq0 negb_or.
case/andP => un _; apply: mulf_neq0 => //; apply: ns.
by case/andP: (allP rterms_in_range _ pin).
Qed.

(** C2 (amended). Let the cached states be those of a full evaluation at a
    configuration at which every determinant of the moved electron's spin
    is nonsingular, and let the full evaluation at the configuration with
    electron [e] at the new position return a sign that is a number.  Then
    the other spin's state is the same in both evaluations, the new
    combined sign and log-magnitude are the log-sum-exp-with-sign
    combination of the new determinant arrays, and the ratio returned by
    [testvalue_up] (or [testvalue_down]) is the value of the new
    evaluation divided by the value of the old one. *)
Theorem testvalue_ratio_of_recomputed_values (spin : bool) (xyz : mat)
    (e : nat) (pos : vec) (s l s' l' : xreal)
    (up down up' down' : SlaterState) :
  (0 < size c)%N -> valid_config xyz ->
  (e < (if spin then nelec.2 else nelec.1))%N ->
  evaluate_expansion (gto_ne fin_gto) ex nelec fin_params xyz =
    Ok (s, l, up, down) ->
  evaluate_expansion (gto_ne fin_gto) ex nelec fin_params
    (set_nth [::] xyz (if spin then nelec.1 + e else e)%N pos) =
    Ok (s', l', up', down') ->
  all nonzero_sign (sign (if spin then down else up)) ->
  is_fin s' ->
  [/\ if spin then up' = up else down' = down,
      log_sum_exp_sign
        (ci_terms (ci_coeff fin_params) (mapping_up ex) (mapping_down ex))
        (sign up') (logabsdet up') (sign down') (logabsdet down') =
      Some (s', l')
    & exists mos,
        (if spin then testvalue_down else testvalue_up) fin_gto ex fin_params
          up down (Z.of_nat e) pos =
        Ok (xdiv (value_of s' l') (value_of s l), mos)].
Proof.
move=> c0 vc lt; rewrite evaluate_expansion_fin // => -[<- <- <- <-].
have vc' : valid_config (set_nth [::] xyz (if spin then nelec.1 + e else e)%N
                           pos).
  apply: valid_config_set_nth => //.
  by case: spin lt => lt; rewrite ?ltn_add2l // ltn_addr.
rewrite evaluate_expansion_fin // => -[<- <- <- <-] ns fs'.
have lse : log_sum_exp_sign fin_terms
    (sign (state_up (set_nth [::] xyz (if spin then nelec.1 + e else e)%N pos)))
    (logabsdet
       (state_up (set_nth [::] xyz (if spin then nelec.1 + e else e)%N pos)))
    (sign
       (state_down (set_nth [::] xyz (if spin then nelec.1 + e else e)%N pos)))
    (logabsdet
       (state_down (set_nth [::] xyz (if spin then nelec.1 + e else e)%N pos)))
    = Some (combined (set_nth [::] xyz (if spin then nelec.1 + e else e)%N pos)).
  rewrite /combined /fin_terms ci_terms_lift.
  have H := combined_fin_sign c0 fs'.
  by have [r ->] := lse_value (Hu_state _) (Hd_state _) rterms_in_range H.
have sl' : Some (combined (set_nth [::] xyz
                   (if spin then nelec.1 + e else e)%N pos)) =
           Some ((combined (set_nth [::] xyz
                   (if spin then nelec.1 + e else e)%N pos)).1,
                 (combined (set_nth [::] xyz
                   (if spin then nelec.1 + e else e)%N pos)).2).
  by case: (combined _).
have nz' := combined_fin_sign c0 fs'.
rewrite (combined_value c0 fs').
case: spin lt vc' ns fs' lse sl' nz' => lt vc' ns fs' lse sl' nz'.
- split; [exact: state_up_down_move | by rewrite lse sl' |].
  have nz := old_term_nonzero_down vc lt ns nz'.
  rewrite (combined_value c0 (sign_of_value nz)).
  by eexists; rewrite testvalue_down_fin.
- split; [exact: state_down_up_move | by rewrite lse sl' |].
  have nz := old_term_nonzero_up vc lt ns nz'.
  rewrite (combined_value c0 (sign_of_value nz)).
  by eexists; rewrite testvalue_up_fin.
Qed.

(** C7 (amended). Let the cached states be those of a full evaluation at a
    configuration at which every determinant of the moved electron's spin
    is nonsingular (the cached inverses are exact inverses).  Proposing
    the move of electron [e] to its current position gives every
    determinant the ratio 1, and gives the combined ratio 1 when the
    combined sign of the evaluation is a nonzero number. *)
Theorem noop_move_ratio_one (spin : bool) (xyz : mat) (e : nat)
    (s l : xreal) (up down : SlaterState) :
  (0 < size c)%N -> valid_config xyz ->
  (e < (if spin then nelec.2 else nelec.1))%N ->
  evaluate_expansion (gto_ne fin_gto) ex nelec fin_params xyz =
    Ok (s, l, up, down) ->
  all nonzero_sign (sign (if spin then down else up)) ->
  let pos := nth [::] xyz (if spin then nelec.1 + e else e)%N in
  exists mos,
    [/\ vecmat (fin_gto pos)
          (if spin then mo_coeff_beta fin_params
           else mo_coeff_alpha fin_params) = Ok mos,
        vmap_lemma mos (inverse (if spin then down else up))
          (if spin then determinants_down ex else determinants_up ex)
          (Z.of_nat e) =
        Ok (nseq (size (if spin then determinants_down ex
                        else determinants_up ex)) (Fin 1))
      & nonzero_sign s ->
        (if spin then testvalue_down else testvalue_up) fin_gto ex fin_params
          up down (Z.of_nat e) pos = Ok (Fin 1, mos)].
Proof.
move=> c0 vc lt; rewrite evaluate_expansion_fin // => -[<- _ <- <-] ns pos.
have sz : size xyz = (nelec.1 + nelec.2)%N by apply/eqP.
case: spin lt ns @pos => lt ns pos.
- exists (F1 (mo_row norb_down Cb g pos)); split.
  + exact: (vecmat_F (size_g pos) rect_Cb nb_pos).
  + have := noop_ratios (Ordinal lt) (size_drop_down vc) dets_down_ok
              (nonsingular_signs ns).
    by rewrite [nat_of_ord _]/= nth_drop.
  + move=> /(combined_nonzero_sign c0) nz.
    rewrite testvalue_down_fin // set_nth_same ?sz ?ltn_add2l //.
    by rewrite xdiv_same.
- exists (F1 (mo_row norb_up Ca g pos)); split.
  + exact: (vecmat_F (size_g pos) rect_Ca nb_pos).
  + have := noop_ratios (Ordinal lt) (size_take_up vc) dets_up_ok
              (nonsingular_signs ns).
    by rewrite [nat_of_ord _]/= nth_take.
  + move=> /(combined_nonzero_sign c0) nz.
    rewrite testvalue_up_fin // set_nth_same ?sz ?ltn_addr //.
    by rewrite xdiv_same.
Qed.

End FiniteWavefunction.

(** ** Examples: one electron, two determinants *)

(** Two basis functions, the first two coordinates of the position. *)
Definition g_xy (p : vec) : seq R :=
  [:: fin_val (nth NaN p 0); fin_val (nth NaN p 1)].

Definition C_id : seq (seq R) := [:: [:: 1; 0]; [:: 0; 1]].

(** Two terms, one per orbital; no electron of the other spin. *)
Definition expansion2 : DeterminantExpansion :=
  mkDeterminantExpansion [:: 0%N; 1%N] [:: 0%N; 0%N]
    [:: [:: 0%N]; [:: 1%N]] [:: [::]].

Definition config_xy (x y : R) : mat := [:: [:: Fin x; Fin y; Fin 0]].

Lemma det_value_one norb C g (p : vec) (k : nat) :
  det_value norb C g 1 [:: p] [:: k] = nth 0 (mo_row norb C g p) k.
Proof. by rewrite /det_value det_mx11 mxE. Qed.

Lemma det_value_none norb C g : det_value norb C g 0 [::] [::] = 1.
Proof. by rewrite /det_value det_mx00. Qed.

Lemma mo_row_xy (x y : R) :
  mo_row 2 C_id g_xy [:: Fin x; Fin y; Fin 0] = [:: x; y].
Proof.
rewrite /mo_row /rvecmat /mkseq /= !big_ord_recl !big_ord0 /=.
by rewrite !mulr1 !mulr0 !addr0 add0r.
Qed.

Lemma up_value_x (x y : R) :
  up_value 2 C_id g_xy expansion2 (1%N, 0%N) (config_xy x y) 0 = x.
Proof. by rewrite /up_value /= det_value_one mo_row_xy. Qed.

Lemma up_value_y (x y : R) :
  up_value 2 C_id g_xy expansion2 (1%N, 0%N) (config_xy x y) 1 = y.
Proof. by rewrite /up_value /= det_value_one mo_row_xy. Qed.

Lemma down_value_xy (p : vec) :
  down_value 2 C_id g_xy expansion2 (1%N, 0%N) [:: p] 0 = 1.
Proof. by rewrite /down_value /= det_value_none. Qed.

Lemma wf_value_xy (c1 c2 x y : R) :
  wf_value 2 2 C_id C_id g_xy expansion2 (1%N, 0%N) [:: c1; c2]
    (config_xy x y) = c1 * x + c2 * y.
Proof.
rewrite /wf_value /psi /rterms /= !big_cons big_nil /term_value /=.
rewrite up_value_x up_value_y down_value_xy.
by rewrite !RmultE !mulr1 addr0.
Qed.

Lemma signs_up_xy (x y : R) :
  sign (state_up 2 C_id g_xy expansion2 (1%N, 0%N) (config_xy x y)) =
  [:: Fin (Rsgn x); Fin (Rsgn y)].
Proof. by rewrite /= !det_value_one mo_row_xy. Qed.

Lemma nonzero_sign_of_value norb_up norb_down Ca Cb g ex nelec c xyz :
  size c = size (mapping_up ex) ->
  size (mapping_up ex) = size (mapping_down ex) ->
  all (fun i => i < size (determinants_up ex))%N (mapping_up ex) ->
  all (fun i => i < size (determinants_down ex))%N (mapping_down ex) ->
  wf_value norb_up norb_down Ca Cb g ex nelec c xyz != 0 ->
  nonzero_sign (combined norb_up norb_down Ca Cb g ex nelec c xyz).1.
Proof.
move=> e1 e2 mu md nz.
have H : has (fun p => term_value (up_value norb_up Ca g ex nelec xyz)
                         (down_value norb_down Cb g ex nelec xyz) p != 0)
             (rterms ex c).
  case H: (has _ _) => //; move: nz; rewrite /wf_value psi_zero ?eqxx //.
  rewrite (eq_all (a2 := predC (fun p =>
     term_value (up_value norb_up Ca g ex nelec xyz)
       (down_value norb_down Cb g ex nelec xyz) p != 0))).
    by move=> p /=; rewrite negbK.
  by rewrite all_predC H.
have [r ->] := combined_off_node (c := c) mu md H.
rewrite /nonzero_sign /= Rsgn_eq0 RmultE mulf_neq0 //.
apply/eqP => E; have := exp_pos (- r); rewrite E => lt0.
by have : (0 < 0)%Re := lt0; lra.
Qed.

Lemma neq0_R (a : R) : a <> 0%Re -> a != 0.
Proof. by move=> ne; apply/eqP. Qed.

Lemma evaluate_expansion_xy (c1 c2 : R) (xyz : mat) :
  size xyz = 1%N ->
  evaluate_expansion (gto_ne (fin_gto g_xy)) expansion2 (1%N, 0%N)
    (fin_params C_id C_id [:: c1; c2]) xyz =
  Ok ((combined 2 2 C_id C_id g_xy expansion2 (1%N, 0%N) [:: c1; c2] xyz).1,
      (combined 2 2 C_id C_id g_xy expansion2 (1%N, 0%N) [:: c1; c2] xyz).2,
      state_up 2 C_id g_xy expansion2 (1%N, 0%N) xyz,
      state_down 2 C_id g_xy expansion2 (1%N, 0%N) xyz).
Proof.
move=> sz; apply: (@evaluate_expansion_fin 2) => //.
by rewrite /valid_config sz.
Qed.

Lemma logs_up_xy (x y : R) :
  logabsdet (state_up 2 C_id g_xy expansion2 (1%N, 0%N) (config_xy x y)) =
  [:: log_of x; log_of y].
Proof. by rewrite /= !det_value_one mo_row_xy. Qed.





Lemma testvalue_up_xy (c1 c2 x y a b : R) :
  x <> 0%Re -> y <> 0%Re ->
  testvalue_up (fin_gto g_xy) expansion2 (fin_params C_id C_id [:: c1; c2])
    (state_up 2 C_id g_xy expansion2 (1%N, 0%N) (config_xy x y))
    (state_down 2 C_id g_xy expansion2 (1%N, 0%N) (config_xy x y))
    0%Z [:: Fin a; Fin b; Fin 0] =
  Ok (xdiv (Fin (c1 * a + c2 * b)) (Fin (c1 * x + c2 * y)), F1 [:: a; b]).
Proof.
move=> x0 y0; rewrite ?RmultE ?RplusE -!wf_value_xy -(mo_row_xy a b).
apply: (@testvalue_up_fin 2 2 2 C_id C_id g_xy expansion2 (1%N, 0%N)
          [:: c1; c2] _ _ _ _ _ _ _ _ (config_xy x y) 0%N) => //.
by rewrite signs_up_xy /= !Rsgn_eq0 !neq0_R.
Qed.

Lemma R1_neq0_Re : (1 <> 0)%Re. Proof. lra. Qed.

Lemma Rsgn_1 : Rsgn 1 = 1.
Proof. by apply: Rsgn_pos; lra. Qed.

(** C7, as stated, fails at a node of the combined wavefunction: with
    the two determinants equal and the coefficients 1 and -1 every
    determinant is nonsingular and has ratio 1, and the combined ratio
    of the move to the current position is 0/0. *)
Lemma noop_move_at_node_example :
  let xyz := config_xy 1 1 in
  let params := fin_params C_id C_id [:: 1; -1] in
  exists s l up down mos,
    [/\ evaluate_expansion (gto_ne (fin_gto g_xy)) expansion2 (1%N, 0%N)
          params xyz = Ok (s, l, up, down),
        sign up = [:: Fin 1; Fin 1],
        vmap_lemma mos (inverse up) (determinants_up expansion2) 0%Z =
          Ok [:: Fin 1; Fin 1]
      & testvalue_up (fin_gto g_xy) expansion2 params up down 0%Z
          (nth [::] xyz 0) = Ok (NaN, mos)].
Proof.
move=> xyz params.
exists (combined 2 2 C_id C_id g_xy expansion2 (1%N, 0%N) [:: 1; -1] xyz).1,
       (combined 2 2 C_id C_id g_xy expansion2 (1%N, 0%N) [:: 1; -1] xyz).2,
       (state_up 2 C_id g_xy expansion2 (1%N, 0%N) xyz),
       (state_down 2 C_id g_xy expansion2 (1%N, 0%N) xyz),
       (F1 [:: 1; 1]).
split.
- exact: evaluate_expansion_xy.
- by rewrite signs_up_xy Rsgn_1.
- rewrite -(mo_row_xy 1 1).
  have := @noop_ratios g_xy 2 C_id 1 xyz [:: [:: 0%N]; [:: 1%N]] ord0
            erefl erefl.
  apply; rewrite /= !det_value_one mo_row_xy /=.
  by rewrite !neq0_R //; exact: R1_neq0_Re.
- rewrite (@testvalue_up_xy 1 (-1) 1 1 1 1 R1_neq0_Re R1_neq0_Re).
  rewrite (_ : (_ + _)%Re = 0%Re); first by lra.
  by rewrite /xdiv eqxx.
Qed.

Lemma two_neq0_R : (1 * 1 + 1 * 1 : R) != 0.
Proof.
by apply/eqP => E; have : (1 * 1 + 1 * 1 = 0)%Re := E; lra.
Qed.

Lemma noop_move_ratio_one_witness :
  let xyz := config_xy 1 1 in
  let up := state_up 2 C_id g_xy expansion2 (1%N, 0%N) xyz in
  let down := state_down 2 C_id g_xy expansion2 (1%N, 0%N) xyz in
  exists mos,
    [/\ vecmat (fin_gto g_xy (nth [::] xyz 0)) (F2 C_id) = Ok mos,
        vmap_lemma mos (inverse up) [:: [:: 0%N]; [:: 1%N]] 0%Z =
          Ok [:: Fin 1; Fin 1]
      & testvalue_up (fin_gto g_xy) expansion2
          (fin_params C_id C_id [:: 1; 1]) up down 0%Z (nth [::] xyz 0) =
        Ok (Fin 1, mos)].
Proof.
move=> xyz up down.
have ns : all nonzero_sign (sign up).
  by rewrite signs_up_xy /= !Rsgn_eq0 !neq0_R //; exact: R1_neq0_Re.
have [mos [H1 H2 H3]] :=
  @noop_move_ratio_one 2 2 2 C_id C_id g_xy expansion2 (1%N, 0%N) [:: 1; 1]
    erefl erefl erefl (fun=> erefl) erefl erefl erefl erefl erefl erefl
    false xyz 0%N _ _ _ _ erefl erefl erefl
    (evaluate_expansion_xy 1 1 (xyz := xyz) erefl) ns.
exists mos; split=> //; apply: H3.
apply: nonzero_sign_of_value => //.
by rewrite wf_value_xy two_neq0_R.
Defined.

Lemma three_neq0_R : (1 * 2 + 1 * 1 : R) != 0.
Proof.
by apply/eqP => E; have : (1 * 2 + 1 * 1 = 0)%Re := E; lra.
Qed.

Lemma testvalue_ratio_of_recomputed_values_witness :
  let xyz := config_xy 1 1 in
  let pos := [:: Fin 2; Fin 1; Fin 0] in
  let params := fin_params C_id C_id [:: 1; 1] in
  exists s l up down s' l' up' down' mos,
    [/\ evaluate_expansion (gto_ne (fin_gto g_xy)) expansion2 (1%N, 0%N)
          params xyz = Ok (s, l, up, down),
        evaluate_expansion (gto_ne (fin_gto g_xy)) expansion2 (1%N, 0%N)
          params (set_nth [::] xyz 0 pos) = Ok (s', l', up', down'),
        down' = down
      & testvalue_up (fin_gto g_xy) expansion2 params up down 0%Z pos =
        Ok (xdiv (value_of s' l') (value_of s l), mos)].
Proof.
move=> xyz pos params.
have ns : all nonzero_sign
            (sign (state_up 2 C_id g_xy expansion2 (1%N, 0%N) xyz)).
  by rewrite signs_up_xy /= !Rsgn_eq0 !neq0_R //; exact: R1_neq0_Re.
have fs : is_fin (combined 2 2 C_id C_id g_xy expansion2 (1%N, 0%N)
                    [:: 1; 1] (set_nth [::] xyz 0 pos)).1.
  apply: nonzero_sign_fin; apply: nonzero_sign_of_value => //.
  by rewrite [set_nth _ _ _ _]/= -/(config_xy 2 1) wf_value_xy three_neq0_R.
have [H1 H2 [mos H3]] :=
  @testvalue_ratio_of_recomputed_values 2 2 2 C_id C_id g_xy expansion2
    (1%N, 0%N) [:: 1; 1]
    erefl erefl erefl (fun=> erefl) erefl erefl erefl erefl erefl erefl
    false xyz 0%N pos _ _ _ _ _ _ _ _ erefl erefl erefl
    (evaluate_expansion_xy 1 1 (xyz := xyz) erefl)
    (evaluate_expansion_xy 1 1 (xyz := set_nth [::] xyz 0 pos) erefl) ns fs.
by do 8!eexists; exists mos; split; [| | exact: H1 | exact: H3];
   apply: evaluate_expansion_xy.
Defined.

Lemma jnp_max_nan (l : vec) : has is_nan l -> jnp_max l = Ok NaN.
Proof.
case: l => // x l H; rewrite /jnp_max.
by have := foldl_xmax_maximum x l; rewrite /maximum_of H => ->.
Qed.

Lemma shifted_total_nan (terms : seq ci_term) (us ul ds dl : vec) :
  (0 < size terms)%N -> shifted_total terms us ul ds dl NaN = NaN.
Proof.
case: terms => // t terms _; rewrite /shifted_total /=.
have -> : xsub (term_logmag ul dl t) NaN = NaN.
  by rewrite /xsub /=; case: term_logmag.
by rewrite /= xmul_nan.
Qed.

(** A NaN among the new term log-magnitudes makes the ratio NaN. *)
Lemma ratio_tail_nan ci mu md us' ul' ds' dl' us ul ds dl mos :
  size ci = size mu -> size mu = size md ->
  has is_nan [seq term_logmag ul' dl' t | t <- ci_terms ci mu md] ->
  ratio_tail ci mu md us' ul' ds' dl' us ul ds dl mos = Ok (NaN, mos).
Proof.
move=> e1 e2 H; rewrite ratio_tailE // jnp_max_nan; first by rewrite has_cat H.
rewrite /= shifted_total_nan //.
by case: (ci_terms ci mu md) H.
Qed.

(** C2, as stated, fails when a cached determinant of the moved spin is
    singular: with the first of two determinants singular, the values of
    the two full evaluations are 1 and 3, and the returned ratio is NaN
    (the cached inverse holds 1/0 and the new log-magnitude is
    -inf + inf). *)
Lemma testvalue_singular_cache_counterexample :
  let xyz := config_xy 0 1 in
  let pos := [:: Fin 2; Fin 1; Fin 0] in
  let params := fin_params C_id C_id [:: 1; 1] in
  exists s l up down s' l' up' down' mos,
    [/\ evaluate_expansion (gto_ne (fin_gto g_xy)) expansion2 (1%N, 0%N)
          params xyz = Ok (s, l, up, down),
        evaluate_expansion (gto_ne (fin_gto g_xy)) expansion2 (1%N, 0%N)
          params (set_nth [::] xyz 0 pos) = Ok (s', l', up', down'),
        nth NaN (sign up) 0 = Fin 0,
        xdiv (value_of s' l') (value_of s l) = Fin 3
      & testvalue_up (fin_gto g_xy) expansion2 params up down 0%Z pos =
        Ok (NaN, mos)].
Proof.
move=> xyz pos params.
pose comb := combined 2 2 C_id C_id g_xy expansion2 (1%N, 0%N) [:: 1; 1].
exists (comb xyz).1, (comb xyz).2,
       (state_up 2 C_id g_xy expansion2 (1%N, 0%N) xyz),
       (state_down 2 C_id g_xy expansion2 (1%N, 0%N) xyz),
       (comb (set_nth [::] xyz 0 pos)).1, (comb (set_nth [::] xyz 0 pos)).2,
       (state_up 2 C_id g_xy expansion2 (1%N, 0%N) (set_nth [::] xyz 0 pos)),
       (state_down 2 C_id g_xy expansion2 (1%N, 0%N) (set_nth [::] xyz 0 pos)),
       [:: Fin 2; Fin 1].
split.
- exact: evaluate_expansion_xy.
- exact: evaluate_expansion_xy.
- by rewrite signs_up_xy /= Rsgn_0.
- have f x y : wf_value 2 2 C_id C_id g_xy expansion2 (1%N, 0%N) [:: 1; 1]
                 (config_xy x y) != 0 ->
      value_of (comb (config_xy x y)).1 (comb (config_xy x y)).2 =
      Fin (wf_value 2 2 C_id C_id g_xy expansion2 (1%N, 0%N) [:: 1; 1]
             (config_xy x y)).
    move=> nz; apply: combined_value => //.
    apply: nonzero_sign_fin; apply: nonzero_sign_of_value => //.
  have n1 : wf_value 2 2 C_id C_id g_xy expansion2 (1%N, 0%N) [:: 1; 1]
              (config_xy 0 1) != 0.
    rewrite wf_value_xy.
    by apply/eqP => E; have : (1 * 0 + 1 * 1 = 0)%Re := E; lra.
  have n3 : wf_value 2 2 C_id C_id g_xy expansion2 (1%N, 0%N) [:: 1; 1]
              (config_xy 2 1) != 0.
    rewrite wf_value_xy.
    by apply/eqP => E; have : (1 * 2 + 1 * 1 = 0)%Re := E; lra.
  rewrite [set_nth _ _ _ _]/= -/(config_xy 2 1) (f _ _ n1) (f _ _ n3).
  rewrite !wf_value_xy xdiv_fin.
    by move=> E; have : (1 * 0 + 1 * 1 = 0)%Re := E; lra.
  have E : ((1 * 2 + 1 * 1) / (1 * 0 + 1 * 1) = 3)%Re by field.
  by congr Fin; exact: E.
- have I : exists r1,
      inverse (state_up 2 C_id g_xy expansion2 (1%N, 0%N) xyz) =
      [:: [:: [:: PInf]]; [:: [:: Fin r1]]].
    eexists; rewrite /= /inverse_of !det_value_one mo_row_xy /= eqxx /=.
    rewrite neq0_R; first exact: R1_neq0_Re.
    rewrite mat_of_mx_11 /inv_degenerate /= !big_ord_recl !big_ord0 /=.
    by rewrite !mulr1 !mulr0 !addr0 xdiv_one_zero.
  case: I => r1 I.
  rewrite testvalue_upE I signs_up_xy logs_up_xy [mo_coeff_alpha _]/= /fin_gto.
  rewrite (@vecmat_F 2 2 (g_xy pos) C_id erefl erefl erefl).
  rewrite -/(mo_row 2 C_id g_xy pos) mo_row_xy [bind _ _]/=.
  have P : xmul (Fin 2) PInf = PInf.
    rewrite /xmul eqr_false; first by move=> E; have : (2 = 0)%Re := E; lra.
    by rewrite (introT (RltbP _ _)) //; lra.
  rewrite ratio_tail_nan //= /term_logmag /= P /=.
  by rewrite log_ofE eqxx.
Qed.

Lemma singular_determinant_is_data_witness :
  let batch := [:: config_xy 0 1; config_xy 1 1] in
  exists out,
    [/\ mapM (evaluate_expansion (gto_ne (fin_gto g_xy)) expansion2
                (1%N, 0%N) (fin_params C_id C_id [:: 1; 1])) batch = Ok out,
        size out = 2%N,
        nth NaN (sign (nth (NaN, NaN, state0, state0) out 0).1.2) 0 = Fin 0
      & nth NaN (logabsdet (nth (NaN, NaN, state0, state0) out 0).1.2) 0 =
        NInf].
Proof.
move=> batch.
have [out [H1 H2 H3]] :=
  @singular_determinant_is_data 2 2 2 C_id C_id g_xy expansion2 (1%N, 0%N)
    [:: 1; 1] erefl erefl erefl (fun=> erefl) erefl erefl erefl erefl
    batch erefl erefl.
have [_ _ H4 _] := H3 0%N erefl.
have [E1 E2] := H4 0%N erefl (up_value_x 0 1).
by exists out; split.
Defined.

(** ** What the evaluation and the single-electron update encode *)

Lemma value_of_sign_logabs (d : R) :
  value_of (sign_logabs d).1 (sign_logabs d).2 = Fin d.
Proof.
rewrite /value_of /sign_logabs /fst /snd xlog_abs.
case: (d =P 0%Re) => [->|ne] /=.
  by rewrite Rsgn_0; congr Fin; lra.
by rewrite exp_ln; [exact: Rabs_pos_lt | rewrite Rsgn_abs].
Qed.

(** X7. On the exact inverse of a nonsingular occupied-orbital matrix,
    [_determinant_lemma] returns the determinant of the matrix with row
    [e] replaced by the new orbital row, divided by the determinant of
    the matrix. *)
Theorem determinant_lemma_is_ratio (n : nat) (A : 'M[R]_n) (mos : seq R)
    (det : seq nat) (e : 'I_n) :
  size det = n -> all (fun i => i < size mos)%N det -> \det A != 0 ->
  _determinant_lemma (F1 mos) (mat_of_mx (invmx A)) det (Z.of_nat e) =
  Ok (Fin (\det (replace_row A (orbital_row n mos det) e) / \det A)%R).
Proof.
move=> sd dk d0; rewrite _determinant_lemma_mx // det_replace_row //.
by rewrite mulfK.
Qed.

Lemma determinant_lemma_is_ratio_witness :
  let A : 'M[R]_2 := 1%:M in
  _determinant_lemma (F1 [:: 2%Re; 3%Re]) (mat_of_mx (invmx A))
    [:: 0%N; 1%N] 0%Z =
  Ok (Fin (\det (replace_row A (orbital_row 2 [:: 2%Re; 3%Re] [:: 0%N; 1%N])
                   ord0) / \det A)%R).
Proof.
move=> A.
apply: (@determinant_lemma_is_ratio 2 A [:: 2%Re; 3%Re] [:: 0%N; 1%N] ord0).
- reflexivity.
- reflexivity.
- by rewrite det1 oner_neq0.
Defined.

(** X8. On finite, well-shaped data [compute_determinants] does not
    raise; the sign and log-magnitude it stores for a determinant encode
    the determinant of the occupied-orbital matrix, and for a nonsingular
    matrix the stored inverse is its two-sided inverse. *)
Theorem compute_determinants_exact (nb norb : nat) (C : seq (seq R))
    (g : vec -> seq R) (n : nat) (cfg : mat) (dets : seq (seq nat)) :
  rect nb norb C -> (0 < nb)%N -> (forall p, size (g p) = nb) ->
  size cfg = n -> all (valid_det norb n) dets ->
  exists st,
    [/\ compute_determinants (F2 C) (gto_ne (fun p => F1 (g p))) dets cfg =
        Ok st,
        forall k, (k < size dets)%N ->
          value_of (nth NaN (sign st) k) (nth NaN (logabsdet st) k) =
          Fin (\det (slater_mx norb C g n cfg (nth [::] dets k)))
      & forall k, (k < size dets)%N ->
          \det (slater_mx norb C g n cfg (nth [::] dets k)) != 0 ->
          exists B : 'M[R]_n,
            [/\ nth [::] (inverse st) k = mat_of_mx B,
                slater_mx norb C g n cfg (nth [::] dets k) *m B = 1%:M
              & B *m slater_mx norb C g n cfg (nth [::] dets k) = 1%:M]].
Proof.
move=> rC nb0 sg sc vd; exists (slater_state norb C g n cfg dets).
split; first exact: (compute_determinants_fin rC).
- move=> k lt; have [-> ->] := @nth_sign_state g norb C n cfg dets k lt.
  exact: value_of_sign_logabs.
- move=> k lt d0; exists (invmx (slater_mx norb C g n cfg (nth [::] dets k))).
  have u : slater_mx norb C g n cfg (nth [::] dets k) \in unitmx.
    by rewrite unitmxE unitfE.
  split; [| exact: mulmxV | exact: mulVmx].
  by rewrite /= (nth_map [::]) // /inverse_of /det_value d0.
Qed.

Lemma compute_determinants_exact_witness :
  exists st,
    compute_determinants (F2 C_id) (gto_ne (fun p => F1 (g_xy p)))
      [:: [:: 0%N]; [:: 1%N]] (config_xy 0 1) = Ok st /\
    value_of (nth NaN (sign st) 0) (nth NaN (logabsdet st) 0) =
    Fin (\det (slater_mx 2 C_id g_xy 1 (config_xy 0 1) [:: 0%N])).
Proof.
have [st [H1 H2 _]] :=
  @compute_determinants_exact 2 2 C_id g_xy 1 (config_xy 0 1)
    [:: [:: 0%N]; [:: 1%N]] erefl erefl (fun=> erefl) erefl erefl.
by exists st; split; [exact: H1 | exact: (H2 0%N erefl)].
Defined.

Section WavefunctionValue.

Variables (nb norb_up norb_down : nat) (Ca Cb : seq (seq R)).
Variables (g : vec -> seq R) (ex : DeterminantExpansion).
Variables (nelec : nat * nat) (c : seq R).

Hypothesis rect_Ca : rect nb norb_up Ca.
Hypothesis rect_Cb : rect nb norb_down Cb.
Hypothesis nb_pos : (0 < nb)%N.
Hypothesis size_g : forall p, size (g p) = nb.
Hypothesis dets_up_ok : all (valid_det norb_up nelec.1) (determinants_up ex).
Hypothesis dets_down_ok :
  all (valid_det norb_down nelec.2) (determinants_down ex).
Hypothesis size_ci : size c = size (mapping_up ex).
Hypothesis size_mapping : size (mapping_up ex) = size (mapping_down ex).
Hypothesis mu_ok :
  all (fun i => i < size (determinants_up ex))%N (mapping_up ex).
Hypothesis md_ok :
  all (fun i => i < size (determinants_down ex))%N (mapping_down ex).
Hypothesis c_pos : (0 < size c)%N.

(** The determinants of a term at a configuration. *)
Definition det_up (xyz : mat) (k : nat) : R :=
  \det (slater_mx norb_up Ca g nelec.1 (take nelec.1 xyz)
          (nth [::] (determinants_up ex) k)).

Definition det_down (xyz : mat) (k : nat) : R :=
  \det (slater_mx norb_down Cb g nelec.2 (drop nelec.1 xyz)
          (nth [::] (determinants_down ex) k)).

(** The expansion: the sum over the terms of coefficient times up
    determinant times down determinant. *)
Definition ci_sum (xyz : mat) : R :=
  \sum_(p <- zip c (zip (mapping_up ex) (mapping_down ex)))
    p.1 * (det_up xyz p.2.1 * det_down xyz p.2.2).

Let evaluate xyz := evaluate_expansion (gto_ne (fin_gto g)) ex nelec
                      (fin_params Ca Cb c) xyz.

Let evaluateE xyz : valid_config nelec xyz ->
  evaluate xyz =
  Ok ((combined norb_up norb_down Ca Cb g ex nelec c xyz).1,
      (combined norb_up norb_down Ca Cb g ex nelec c xyz).2,
      state_up norb_up Ca g ex nelec xyz,
      state_down norb_down Cb g ex nelec xyz).
Proof. by move=> vc; apply: (evaluate_expansion_fin rect_Ca rect_Cb). Qed.

Let ci_sumE xyz :
  ci_sum xyz = wf_value norb_up norb_down Ca Cb g ex nelec c xyz.
Proof. by []. Qed.

(** X5. When [evaluate_expansion] returns a sign that is a number, the
    sign times the exponential of the log-magnitude is the value of the
    expansion: the sum over the terms of coefficient times up determinant
    times down determinant. *)
Theorem evaluate_expansion_value (xyz : mat) (s l : xreal)
    (up down : SlaterState) :
  valid_config nelec xyz ->
  evaluate_expansion (gto_ne (fin_gto g)) ex nelec (fin_params Ca Cb c) xyz =
    Ok (s, l, up, down) ->
  is_fin s ->
  value_of s l = Fin (ci_sum xyz).
Proof.
move=> vc; rewrite -/(evaluate xyz) evaluateE // => -[<- <- _ _] fs.
by rewrite ci_sumE (combined_value size_ci size_mapping mu_ok md_ok).
Qed.

(** X6. When every term of the expansion has a singular determinant,
    [evaluate_expansion] does not raise and returns NaN for the sign and
    for the log-magnitude. *)
Theorem evaluate_expansion_all_terms_singular (xyz : mat) :
  valid_config nelec xyz ->
  all (fun p : R * (nat * nat) =>
         (det_up xyz p.2.1 == 0) || (det_down xyz p.2.2 == 0))
      (zip c (zip (mapping_up ex) (mapping_down ex))) ->
  exists up down,
    evaluate_expansion (gto_ne (fin_gto g)) ex nelec (fin_params Ca Cb c) xyz
    = Ok (NaN, NaN, up, down).
Proof.
move=> vc z; rewrite -/(evaluate xyz) evaluateE //.
rewrite (combined_at_node size_ci size_mapping mu_ok md_ok) //.
  by apply: sub_all z => p; rewrite /term_value mulf_eq0.
by do 2!eexists.
Qed.

Lemma sign_zero_value (xyz : mat) :
  (combined norb_up norb_down Ca Cb g ex nelec c xyz).1 = Fin 0 ->
  ci_sum xyz = 0.
Proof.
move=> E; have fs : is_fin (combined norb_up norb_down Ca Cb g ex nelec c
                              xyz).1 by rewrite E.
have H := combined_fin_sign size_ci size_mapping mu_ok md_ok c_pos fs.
have [r Er] := combined_off_node mu_ok md_ok H.
move: E; rewrite Er /= => -[] /eqP; rewrite Rsgn_eq0 RmultE mulf_eq0.
case/orP => /eqP // E; have := exp_pos (- r); rewrite E => lt0.
by have : (0 < 0)%Re := lt0; lra.
Qed.

Lemma xdiv_zero_not_fin (a : R) : ~~ is_fin (xdiv (Fin a) (Fin 0)).
Proof.
rewrite /xdiv (_ : ((0 : R) == R0) = true); first by apply/eqP.
by case: ifP => // _; case: Rltb.
Qed.

(** X4. At a node of the combined wavefunction (the full evaluation
    returned the sign 0) with every determinant of the moved spin
    nonsingular, the ratio [testvalue_up] ([testvalue_down]) returns for
    a move to any position is not a finite number: the old value in the
    denominator is zero. *)
Theorem testvalue_ratio_at_node (spin : bool) (xyz : mat) (e : nat)
    (pos : vec) (l : xreal) (up down : SlaterState) :
  valid_config nelec xyz ->
  (e < (if spin then nelec.2 else nelec.1))%N ->
  evaluate_expansion (gto_ne (fin_gto g)) ex nelec (fin_params Ca Cb c) xyz =
    Ok (Fin 0, l, up, down) ->
  all nonzero_sign (sign (if spin then down else up)) ->
  exists r mos,
    (if spin then testvalue_down else testvalue_up) (fin_gto g) ex
      (fin_params Ca Cb c) up down (Z.of_nat e) pos = Ok (r, mos) /\
    ~~ is_fin r.
Proof.
move=> vc lt; rewrite -/(evaluate xyz) evaluateE // => -[s0 _ <- <-] ns.
have z := sign_zero_value s0; rewrite ci_sumE in z.
case: spin lt ns => lt ns.
- rewrite (testvalue_down_fin norb_up Ca rect_Cb) // z.
  by do 2!eexists; split; [reflexivity | exact: xdiv_zero_not_fin].
- rewrite (testvalue_up_fin norb_down Cb rect_Ca) // z.
  by do 2!eexists; split; [reflexivity | exact: xdiv_zero_not_fin].
Qed.

End WavefunctionValue.

Lemma combined_sign_zero norb_up norb_down Ca Cb g ex nelec c xyz :
  all (fun i => i < size (determinants_up ex))%N (mapping_up ex) ->
  all (fun i => i < size (determinants_down ex))%N (mapping_down ex) ->
  has (fun p => term_value (up_value norb_up Ca g ex nelec xyz)
                 (down_value norb_down Cb g ex nelec xyz) p != 0)
      (rterms ex c) ->
  wf_value norb_up norb_down Ca Cb g ex nelec c xyz = 0 ->
  (combined norb_up norb_down Ca Cb g ex nelec c xyz).1 = Fin 0.
Proof.
move=> mu md H z; have [r ->] := combined_off_node (c := c) mu md H.
by rewrite z /= RmultE mul0r Rsgn_0.
Qed.

Lemma evaluate_expansion_value_witness :
  exists s l up down,
    evaluate_expansion (gto_ne (fin_gto g_xy)) expansion2 (1%N, 0%N)
      (fin_params C_id C_id [:: 1; 1]) (config_xy 1 1) = Ok (s, l, up, down)
    /\ value_of s l =
       Fin (ci_sum 2 2 C_id C_id g_xy expansion2 (1%N, 0%N) [:: 1; 1]
              (config_xy 1 1)).
Proof.
have ev := evaluate_expansion_xy 1 1 (xyz := config_xy 1 1) erefl.
have fs : is_fin (combined 2 2 C_id C_id g_xy expansion2 (1%N, 0%N)
                    [:: 1; 1] (config_xy 1 1)).1.
  apply: nonzero_sign_fin; apply: nonzero_sign_of_value => //.
  by rewrite wf_value_xy two_neq0_R.
do 4!eexists; split; first exact: ev.
exact: (@evaluate_expansion_value 2 2 2 C_id C_id g_xy expansion2 (1%N, 0%N)
          [:: 1; 1] erefl erefl erefl (fun=> erefl) erefl erefl erefl erefl
          erefl erefl erefl (config_xy 1 1) _ _ _ _ erefl ev fs).
Defined.

Lemma evaluate_expansion_all_terms_singular_witness :
  exists up down,
    evaluate_expansion (gto_ne (fin_gto g_xy)) expansion2 (1%N, 0%N)
      (fin_params C_id C_id [:: 1; 1]) (config_xy 0 0) =
    Ok (NaN, NaN, up, down).
Proof.
apply: (@evaluate_expansion_all_terms_singular 2 2 2 C_id C_id g_xy
          expansion2 (1%N, 0%N) [:: 1; 1] erefl erefl erefl (fun=> erefl)
          erefl erefl erefl erefl erefl erefl erefl (config_xy 0 0) erefl).
rewrite /= /det_up -!/(det_value _ _ _ _ _ _).
rewrite -!/(up_value 2 C_id g_xy expansion2 (1%N, 0%N) (config_xy 0 0) _).
by rewrite up_value_x up_value_y !eqxx.
Defined.

Lemma testvalue_ratio_at_node_witness :
  let xyz := config_xy 1 1 in
  let params := fin_params C_id C_id [:: 1; -1] in
  exists l up down r mos,
    [/\ evaluate_expansion (gto_ne (fin_gto g_xy)) expansion2 (1%N, 0%N)
          params xyz = Ok (Fin 0, l, up, down),
        testvalue_up (fin_gto g_xy) expansion2 params up down 0%Z
          [:: Fin 2; Fin 1; Fin 0] = Ok (r, mos)
      & ~~ is_fin r].
Proof.
move=> xyz params.
have z : wf_value 2 2 C_id C_id g_xy expansion2 (1%N, 0%N) [:: 1; -1] xyz = 0.
  by rewrite wf_value_xy !mulr1 subrr.
have H : has (fun p => term_value
                (up_value 2 C_id g_xy expansion2 (1%N, 0%N) xyz)
                (down_value 2 C_id g_xy expansion2 (1%N, 0%N) xyz) p != 0)
             (rterms expansion2 [:: 1; -1]).
  rewrite /= /term_value /= up_value_x down_value_xy.
  by rewrite RmultE mulr1 oner_neq0.
have s0 := @combined_sign_zero 2 2 C_id C_id g_xy expansion2 (1%N, 0%N)
             [:: 1; -1] xyz erefl erefl H z.
have ev := evaluate_expansion_xy 1 (-1) (xyz := xyz) erefl.
rewrite s0 in ev.
have ns : all nonzero_sign
            (sign (state_up 2 C_id g_xy expansion2 (1%N, 0%N) xyz)).
  by rewrite signs_up_xy /= !Rsgn_eq0 !neq0_R //; exact: R1_neq0_Re.
have [r [mos [H1 H2]]] :=
  @testvalue_ratio_at_node 2 2 2 C_id C_id g_xy expansion2 (1%N, 0%N)
    [:: 1; -1] erefl erefl erefl (fun=> erefl) erefl erefl erefl erefl
    erefl erefl erefl false xyz 0%N [:: Fin 2; Fin 1; Fin 0] _ _ _
    erefl erefl ev ns.
by do 3!eexists; exists r, mos; split; [exact: ev | exact: H1 | exact: H2].
Defined.

(** ** Edge cases of the evaluation *)

(** X9. An expansion without terms cannot be evaluated: with both
    mapping arrays empty, [evaluate_expansion], [testvalue_up] and
    [testvalue_down] raise on every input (the maximum of an empty array
    has no value), and [evaluate_expansion] raises ValueError when the
    determinants of both spins were computed. *)
Theorem no_terms_raise (expansion : DeterminantExpansion) :
  mapping_up expansion = [::] -> mapping_down expansion = [::] ->
  [/\ forall gto_evaluator nelec det_params xyz,
        raises (evaluate_expansion gto_evaluator expansion nelec det_params
                  xyz),
      forall gto_evaluator nelec det_params xyz up down,
        compute_determinants (mo_coeff_alpha det_params) gto_evaluator
          (determinants_up expansion) (take nelec.1 xyz) = Ok up ->
        compute_determinants (mo_coeff_beta det_params) gto_evaluator
          (determinants_down expansion) (drop nelec.1 xyz) = Ok down ->
        evaluate_expansion gto_evaluator expansion nelec det_params xyz =
        Raise ValueError,
      forall gto_evaluator det_params dets_up dets_down e xyz,
        raises (testvalue_up gto_evaluator expansion det_params dets_up
                  dets_down e xyz)
    & forall gto_evaluator det_params dets_up dets_down e xyz,
        raises (testvalue_down gto_evaluator expansion det_params dets_up
                  dets_down e xyz)].
Proof.
move=> mu md; split.
- move=> gto nelec p xyz; rewrite /evaluate_expansion mu md.
  case: compute_determinants => //= up.
  by case: compute_determinants => //= down.
- move=> gto nelec p xyz up down Hu Hd.
  by rewrite /evaluate_expansion mu md Hu Hd.
- move=> gto p up down e xyz; rewrite testvalue_upE mu md.
  case: vecmat => //= mos; case: vmap_lemma => //= ratios.
  by case: bcast2 => //= ns; case: bcast2 => //= nl.
- move=> gto p up down e xyz; rewrite testvalue_downE mu md.
  case: vecmat => //= mos; case: vmap_lemma => //= ratios.
  by case: bcast2 => //= ns; case: bcast2 => //= nl.
Qed.

Lemma no_terms_raise_witness :
  let ex := mkDeterminantExpansion [::] [::] [:: [:: 0%N]] [:: [::]] in
  evaluate_expansion (gto_ne gto_x) ex (1%N, 0%N) params1 (config1 1) =
  Raise ValueError.
Proof.
move=> ex.
have [_ H _ _] := @no_terms_raise ex erefl erefl.
apply: H; [exact: compute_determinants_x | exact: compute_determinants_none].
Defined.



(** ** More on the parameter container *)

(** The call assigns the key. *)
Definition call_sets (key : string) (c : pm_call) : bool :=
  if c is CallSetitem k _ then String.eqb k key else false.

Lemma pm_step_get_other (pm : _parameterMap) (c : pm_call) (key : string) :
  ~~ call_sets key c ->
  dict_get (pm_parameters (pm_step pm c)) key =
  dict_get (pm_parameters pm) key.
Proof.
case: c => //= k v ne.
have E : pm_parameters (pm_setitem k v pm).2 =
         dict_set (pm_parameters pm) k v.
  rewrite /pm_setitem /=.
  by do 3!case: dict_item => [?|?] //=.
rewrite E dict_get_set_neq // => e; move: ne; rewrite e.
by rewrite String.eqb_refl.
Qed.

(** X10. A key that is none of the three parameter names and was never
    assigned is missing after any history of calls: [__getitem__] raises
    KeyError, [has_key] answers False, and the container is unchanged. *)
Theorem parameterMap_missing_key (jp : ndarray * ndarray * ndarray)
    (calls : seq pm_call) (key : string) :
  all (fun k => ~~ String.eqb k key) known_keys ->
  ~~ has (call_sets key) calls ->
  let pm := pm_after jp calls in
  pm_getitem key pm = (Raise KeyError, pm) /\
  pm_has_key key pm = (Ok false, pm).
Proof.
move=> nk ns pm; rewrite {}/pm.
suff E : dict_get (pm_parameters (pm_after jp calls)) key = None.
  by rewrite /pm_getitem /pm_has_key /dict_item E.
rewrite /pm_after.
have: dict_get (pm_parameters (pm_init jp)) key = None.
  move: nk => /andP [/negbTE n1 /andP [/negbTE n2 /andP [/negbTE n3 _]]].
  by cbn [dict_get pm_parameters pm_init]; rewrite n1 n2 n3.
elim: calls (pm_init jp) ns => //= c calls IH pm0.
rewrite negb_or => /andP [nc ns] E0; apply: IH => //.
by rewrite pm_step_get_other.
Qed.

Lemma parameterMap_missing_key_witness :
  let pm := pm_after (Arr1 [::], Arr2 [::], Arr2 [::])
              [:: CallSetitem "det_coeff" (Arr1 [:: Fin 1]); CallLen] in
  pm_getitem "ci_coeff" pm = (Raise KeyError, pm) /\
  pm_has_key "ci_coeff" pm = (Ok false, pm).
Proof.
by apply: parameterMap_missing_key.
Defined.

Definition dict_keys (d : dict) : seq string := [seq kv.1 | kv <- d].

Lemma dict_keys_set (d : dict) (k : string) (v : ndarray) :
  dict_keys (dict_set d k v) =
  if has (fun k' => String.eqb k' k) (dict_keys d) then dict_keys d
  else rcons (dict_keys d) k.
Proof.
elim: d => [|[k' v'] d IH] //=.
by case E: (String.eqb k' k) => //=; rewrite IH; case: ifP.
Qed.

(** The call assigns nothing, or one of the three parameter names. *)
Definition call_known (c : pm_call) : bool :=
  if c is CallSetitem k _ then has (fun k' => String.eqb k' k) known_keys
  else true.

Lemma pm_step_keys (pm : _parameterMap) (c : pm_call) :
  call_known c -> dict_keys (pm_parameters pm) = known_keys ->
  dict_keys (pm_parameters (pm_step pm c)) = known_keys.
Proof.
case: c => // k v kn E.
have -> : pm_parameters (pm_step pm (CallSetitem k v)) =
          dict_set (pm_parameters pm) k v.
  rewrite /pm_step /pm_setitem.
  by do 3!case: dict_item => [?|?] //.
have H : has (fun k' => String.eqb k' k) known_keys = true by exact: kn.
by rewrite dict_keys_set E H.
Qed.

(** X11. As long as only the three parameter names are assigned, the
    container keeps exactly these three entries in their first order:
    [keys] lists the three names, [__len__] is 3, and [values] lists the
    components of the parameter tuple handed to the evaluators. *)
Theorem parameterMap_three_entries (jp : ndarray * ndarray * ndarray)
    (calls : seq pm_call) :
  all call_known calls ->
  let pm := pm_after jp calls in
  [/\ pm_keys pm = (Ok known_keys, pm),
      pm_len pm = (Ok 3%N, pm)
    & pm_values pm =
      (Ok [:: (jax_parameters pm).1.1; (jax_parameters pm).1.2;
              (jax_parameters pm).2], pm)].
Proof.
move=> kn pm.
have K : dict_keys (pm_parameters pm) = known_keys.
  rewrite {}/pm /pm_after.
  have: dict_keys (pm_parameters (pm_init jp)) = known_keys by [].
  elim: calls (pm_init jp) kn => //= c calls IH pm0 /andP [kc kn] E0.
  by apply: IH => //; apply: pm_step_keys.
have [c [a] [b] [Hc Ha Hb Hj]] := pm_after_consistent jp calls.
rewrite -/pm in Hc Ha Hb Hj.
rewrite /pm_keys /pm_len /pm_values -/(dict_keys _) K Hj /=.
split=> //; first by rewrite -(size_map fst) -/(dict_keys _) K.
move: K Hc Ha Hb; case: (pm_parameters pm) => [|[k1 v1] [|[k2 v2] [|[k3 v3] [|? ?]]]] //=.
by case=> -> -> -> /=; case=> -> [->] [->].
Qed.

Lemma parameterMap_three_entries_witness :
  let pm := pm_after (Arr1 [::], Arr2 [::], Arr2 [::])
              [:: CallSetitem "mo_coeff_beta" (Arr2 [:: [:: Fin 1]]);
                  CallSetitem "det_coeff" (Arr1 [:: Fin 1])] in
  [/\ pm_keys pm = (Ok known_keys, pm),
      pm_len pm = (Ok 3%N, pm)
    & pm_values pm =
      (Ok [:: (jax_parameters pm).1.1; (jax_parameters pm).1.2;
              (jax_parameters pm).2], pm)].
Proof.
by apply: parameterMap_three_entries.
Defined.

(** ** The wavefunction object: recompute and propose *)

(** X12. [recompute] either fails, leaving the object as it was (the
    previous cache included), or stores a cache with one sign, one
    log-magnitude and one determinant state of each spin per
    configuration and returns the cached signs and log-magnitudes; the
    evaluators, the expansion, the electron numbers and the parameters
    are kept. *)
Theorem recompute_outcome (configs : seq mat) (self : JAXSlater) :
  match recompute configs self with
  | (Ok (s, l), self') =>
      exists c,
        [/\ cache self' = Some c,
            _sign c = s /\ _logabs c = l,
            [/\ size (_sign c) = size configs,
                size (_logabs c) = size configs,
                size (_dets_up c) = size configs
              & size (_dets_down c) = size configs]
          & [/\ gto_1e self' = gto_1e self,
                expansion self' = expansion self,
                _nelec self' = _nelec self
              & parameters self' = parameters self]]
  | (Raise _, self') => self' = self
  end.
Proof.
rewrite /recompute /_recompute; case: as_det_params => [dp|] //=.
case E: mapM => [out|] //=.
exists (mkCache [seq o.1.1.1 | o <- out] [seq o.1.1.2 | o <- out]
                [seq o.1.2 | o <- out] [seq o.2 | o <- out]).
by split=> //; split; rewrite /= size_map (mapM_size E).
Qed.

Lemma mapM3_size (A B C D : Type) (f : A -> B -> C -> res D)
    (a : seq A) (b : seq B) (c : seq C) (t : seq D) :
  mapM3 f a b c = Ok t ->
  [/\ size t = size a, size t = size b & size t = size c].
Proof.
elim: a b c t => [|x a IH] [|y b] [|z c] t //=; first by case=> <-.
case: (f x y z) => //= d; case E: mapM3 => [ds|] //= [<-] /=.
by have [-> -> ->] := IH _ _ _ E.
Qed.

(** X14. [testvalue] with one position per configuration and a boolean
    mask: when the evaluation of the ratios succeeds, a mask of another
    length than the number of positions is an IndexError; a mask of that
    length selects the ratios of the configurations it marks, in order,
    while the orbital rows saved for the commit are returned for all
    configurations, unmasked. *)
Theorem testvalue_mask (e : Z) (xyz : seq vec) (m : seq bool)
    (self : JAXSlater) (c : Cache) (out : vec * seq vec) :
  cache self = Some c ->
  _testvalue self (spin_of self e) (jax_parameters (parameters self))
    (_dets_up c) (_dets_down c) (local_index self e) xyz = Ok out ->
  [/\ size out.1 = size xyz, size out.2 = size xyz
    & testvalue e (Pos2 xyz) (Some m) self =
      if size m == size xyz
      then (Ok (Arr1 (mask m out.1), Some out.2), self)
      else (Raise IndexError, self)].
Proof.
move=> Hc Ht.
have [s1 s2] : size out.1 = size xyz /\ size out.2 = size xyz.
  move: Ht; rewrite /_testvalue; case: as_det_params => //= dp.
  case E: mapM3 => [o|] //= [<-] /=; rewrite !size_map.
  by have [_ _ ->] := mapM3_size E.
split=> //; rewrite /testvalue Hc Ht /= /mask_select s1.
by case: ifP.
Qed.

Lemma testvalue_mask_witness :
  let self := with_cache wf1 (Some (cache1 [:: 1%Re])) in
  exists out,
    testvalue 0%Z (Pos2 [:: [:: Fin 2; Fin 0; Fin 0]]) (Some [:: true; false])
      self = (Raise IndexError, self) /\
    testvalue 0%Z (Pos2 [:: [:: Fin 2; Fin 0; Fin 0]]) (Some [:: true])
      self = (Ok (Arr1 (mask [:: true] out.1), Some out.2), self).
Proof.
move=> self.
have [out Ht] : exists out,
    _testvalue self (spin_of self 0%Z) (jax_parameters (parameters self))
      (_dets_up (cache1 [:: 1%Re])) (_dets_down (cache1 [:: 1%Re]))
      (local_index self 0%Z) [:: [:: Fin 2; Fin 0; Fin 0]] = Ok out.
  rewrite /_testvalue /= /testvalue_up /vecmat /= /vmap_lemma /mapM2 /=.
  rewrite (negbTE R1_neq0') /=.
  rewrite /_determinant_lemma /column /= /jnp_index /= /dotv /=.
  by rewrite /bcast2 /= /jnp_max /=; eexists.
exists out.
have [_ _ H1] := @testvalue_mask 0%Z [:: [:: Fin 2; Fin 0; Fin 0]]
                   [:: true; false] self _ _ erefl Ht.
have [_ _ H2] := @testvalue_mask 0%Z [:: [:: Fin 2; Fin 0; Fin 0]]
                   [:: true] self _ _ erefl Ht.
by split.
Defined.

(** ** The update step at a zero ratio *)

Section ShermanMorrisonZeroRatio.

Variables (n : nat) (B : 'M[R]_n) (mos : seq R) (det : seq nat) (e : 'I_n).
Hypothesis size_det : size det = n.
Hypothesis det_ok : all (fun i => i < size mos)%N det.

Let vl : seq R := [seq nth 0 mos i | i <- det].
Let Bl : seq (seq R) := seq_of_mx B.
Let tl : seq R := rvecmat n vl Bl.

Let n_pos : (0 < n)%N.
Proof. by case: e => m; case: n. Qed.

Let size_vl : size vl = n.
Proof. by rewrite size_map. Qed.

Let nth_tl_e : nth 0 tl e = lemma_ratio B (orbital_row n mos det) e.
Proof.
rewrite nth_rvecmat // /lemma_ratio mxE size_vl.
apply: eq_bigr => k _; rewrite nth_seq_of_mx mxE (nth_map 0%N) //.
by rewrite size_det.
Qed.

(** X15. When the determinant-ratio scalar is zero (the proposed
    position is a node of the determinant), [_sherman_morrison_row] does
    not raise: it returns the ratio 0 and an array of the shape of the
    inverse whose column [e] has no finite entry. *)
Theorem sherman_morrison_row_zero_ratio :
  lemma_ratio B (orbital_row n mos det) e = 0 ->
  exists M : mat,
    [/\ _sherman_morrison_row (Z.of_nat e) (mat_of_mx B) (F1 mos) det =
        Ok (Fin 0, M),
        size M = n
      & forall i, (i < n)%N -> ~~ is_fin (nth NaN (nth [::] M i) e)].
Proof.
move=> r0; rewrite /_sherman_morrison_row !mat_of_mxE jnp_take_F1 //.
have rB : rect n n Bl by apply: rect_seq_of_mx.
rewrite -/Bl -/vl (vecmat_F size_vl rB n_pos) /=.
rewrite jnp_index_F1 ?size_rvecmat //= -/tl nth_tl_e r0.
rewrite (column_F2 rB) //=.
set ir := [seq xdiv x (Fin 0) | x <- _].
have s_ir : size ir = n by rewrite size_map size_F1 size_map (rect_size rB).
have nf_ir i : (i < n)%N -> ~~ is_fin (nth NaN ir i).
  have sc : size [seq nth 0 r e | r <- Bl] = n by rewrite size_map (rect_size rB).
  move=> lt; rewrite (nth_map NaN) ?size_F1 ?sc // nth_F1 ?sc //.
  exact: xdiv_zero_not_fin.
set O := outer ir (F1 tl).
have sO : size O = n by rewrite /O /outer size_map.
have rowO i : (i < n)%N -> size (nth [::] O i) = n.
  move=> lt; rewrite /O /outer (nth_map NaN) ?s_ir // size_map size_F1.
  exact: size_rvecmat.
have -> : mat_sub (F2 Bl) O = Ok (zipwith (zipwith xsub) (F2 Bl) O).
  rewrite /mat_sub size_F2 (rect_size rB) sO eqxx /=.
  rewrite (_ : all _ _ = true) //.
  apply/(all_nthP ([::], [::])) => i.
  rewrite size_zip size_F2 (rect_size rB) sO minnn => lt.
  rewrite nth_zip ?size_F2 ?(rect_size rB) ?sO //= nth_F2 size_F1.
  by rewrite (rect_row rB) // rowO.
rewrite [bind _ _]/=.
set D := zipwith _ _ _.
have sD : size D = n by rewrite size_zipwith size_F2 (rect_size rB) sO minnn.
have rowD i : (i < n)%N -> size (nth [::] D i) = n.
  move=> lt; rewrite (nth_zipwith _ [::] [::] _) ?size_F2 ?(rect_size rB) ?sO //.
  by rewrite size_zipwith nth_F2 size_F1 (rect_row rB) // rowO // minnn.
rewrite /at_col_set s_ir sD eqxx /=.
eexists; split; first reflexivity.
  by rewrite size_zipwith sD s_ir minnn.
move=> i lt; rewrite (nth_zipwith _ [::] NaN _) ?sD ?s_ir //.
rewrite rowD // norm_index_nat // /set_nth_col rowD // ltn_ord.
by rewrite nth_set_nth /= eqxx nf_ir.
Qed.

End ShermanMorrisonZeroRatio.

Lemma sherman_morrison_row_zero_ratio_witness :
  exists M : mat,
    [/\ _sherman_morrison_row 0%Z (mat_of_mx (1%:M : 'M[R]_1)) (F1 [:: 0])
          [:: 0%N] = Ok (Fin 0, M),
        size M = 1%N
      & forall i, (i < 1)%N -> ~~ is_fin (nth NaN (nth [::] M i) 0)].
Proof.
apply: (@sherman_morrison_row_zero_ratio 1 1%:M [:: 0] [:: 0%N] ord0).
- reflexivity.
- reflexivity.
- by rewrite /lemma_ratio mulmx1 mxE.
Defined.

(** ** Electron indices *)

(** X16. For an electron index within the electron count, the spin and
    the index within the spin that [testvalue] and [updateinternals]
    compute are consistent: the local index is within the electrons of
    that spin, and the up electrons come first. *)
Theorem local_index_in_range (self : JAXSlater) (e : Z) :
  (0 <= e < Z.of_nat ((_nelec self).1 + (_nelec self).2))%Z ->
  let le := local_index self e in
  [/\ (0 <= le)%Z,
      (le < Z.of_nat (if spin_of self e then (_nelec self).2
                      else (_nelec self).1))%Z
    & e = (if spin_of self e then Z.of_nat (_nelec self).1 + le else le)%Z].
Proof.
rewrite /local_index /spin_of Nat2Z.inj_add => -[e0 lt].
by case: Z.leb_spec => h; split; lia.
Qed.

Lemma local_index_in_range_witness :
  [/\ (0 <= local_index wf1 0)%Z,
      (local_index wf1 0 <
         Z.of_nat (if spin_of wf1 0 then (_nelec wf1).2 else (_nelec wf1).1))%Z
    & 0%Z = (if spin_of wf1 0 then Z.of_nat (_nelec wf1).1 + local_index wf1 0
             else local_index wf1 0)%Z].
Proof.
apply: (@local_index_in_range wf1 0%Z).
by rewrite /=; lia.
Defined.

(** ** The wavefunction object on finite data *)

Lemma mapM3_zip (A B C D E : Type) (f : B -> C -> D -> res E) (a : A -> B)
    (b : A -> C) (s : seq A) (t : seq D) :
  size t = size s ->
  mapM3 f [seq a x | x <- s] [seq b x | x <- s] t =
  mapM (fun p => f (a p.1) (b p.1) p.2) (zip s t).
Proof.
elim: s t => [|x s IH] [|y t] //= [/IH ->].
by [].
Qed.

Lemma all_zip_fst (A B : Type) (a : pred A) (s : seq A) (t : seq B) :
  all a s -> all (fun p => a p.1) (zip s t).
Proof.
by elim: s t => [|x s IH] [|y t] //= /andP [-> /IH ->].
Qed.

Lemma eq_map_all (A B : Type) (P : pred A) (f h : A -> B) (s : seq A) :
  (forall x, P x -> f x = h x) -> all P s ->
  [seq f x | x <- s] = [seq h x | x <- s].
Proof.
by move=> H; elim: s => //= x s IH /andP [/H -> /IH ->].
Qed.

Lemma map_fst_zip (A B C : Type) (f : A -> C) (s : seq A) (t : seq B) :
  size t = size s ->
  [seq f p.1 | p <- zip s t] = [seq f x | x <- s].
Proof.
by elim: s t => [|x s IH] [|y t] //= [/IH ->].
Qed.

Section FiniteObject.

Variables (nb norb_up norb_down : nat) (Ca Cb : seq (seq R)).
Variables (g : vec -> seq R) (ex : DeterminantExpansion).
Variables (nelec : nat * nat) (c : seq R).

Hypothesis rect_Ca : rect nb norb_up Ca.
Hypothesis rect_Cb : rect nb norb_down Cb.
Hypothesis nb_pos : (0 < nb)%N.
Hypothesis size_g : forall p, size (g p) = nb.
Hypothesis dets_up_ok : all (valid_det norb_up nelec.1) (determinants_up ex).
Hypothesis dets_down_ok :
  all (valid_det norb_down nelec.2) (determinants_down ex).
Hypothesis size_ci : size c = size (mapping_up ex).
Hypothesis size_mapping : size (mapping_up ex) = size (mapping_down ex).
Hypothesis mu_ok :
  all (fun i => i < size (determinants_up ex))%N (mapping_up ex).
Hypothesis md_ok :
  all (fun i => i < size (determinants_down ex))%N (mapping_down ex).
Hypothesis c_pos : (0 < size c)%N.

Let comb := combined norb_up norb_down Ca Cb g ex nelec c.
Let sup := state_up norb_up Ca g ex nelec.
Let sdn := state_down norb_down Cb g ex nelec.
Let wfv := wf_value norb_up norb_down Ca Cb g ex nelec c.

(** A wavefunction object built on these data. *)
Definition built_on (o : JAXSlater) : Prop :=
  [/\ gto_1e o = fin_gto g, expansion o = ex, _nelec o = nelec
    & jax_parameters (parameters o) =
      (Arr1 (F1 c), Arr2 (F2 Ca), Arr2 (F2 Cb))].

(** The cache of a batch of configurations. *)
Definition fin_cache (configs : seq mat) : Cache :=
  mkCache [seq (comb xyz).1 | xyz <- configs]
          [seq (comb xyz).2 | xyz <- configs]
          [seq sup xyz | xyz <- configs] [seq sdn xyz | xyz <- configs].

Lemma recompute_fin (o : JAXSlater) (configs : seq mat) :
  built_on o -> all (valid_config nelec) configs ->
  recompute configs o =
  (Ok (_sign (fin_cache configs), _logabs (fin_cache configs)),
   with_cache o (Some (fin_cache configs))).
Proof.
case=> go eo no po vc; rewrite /recompute /_recompute po /=.
rewrite go eo no.
rewrite (mapM_ok (P := valid_config nelec)
           (g := fun xyz => ((comb xyz).1, (comb xyz).2, sup xyz, sdn xyz))
           _ vc) /=.
  by move=> xyz v; apply: (evaluate_expansion_fin rect_Ca rect_Cb).
by rewrite /fin_cache /with_cache go eo no -!map_comp.
Qed.

Lemma built_on_with_cache (o : JAXSlater) (cch : option Cache) :
  built_on o -> built_on (with_cache o cch).
Proof. by case. Qed.

(** The state of the spin of electron [e]. *)
Definition moved_state (e : nat) (xyz : mat) : SlaterState :=
  if (nelec.1 <= e)%N then sdn xyz else sup xyz.

Definition moved_row (e : nat) (pos : vec) : seq R :=
  if (nelec.1 <= e)%N then mo_row norb_down Cb g pos
  else mo_row norb_up Ca g pos.

Lemma spin_of_nat (o : JAXSlater) (e : nat) :
  _nelec o = nelec -> spin_of o (Z.of_nat e) = (nelec.1 <= e)%N.
Proof.
move=> no; rewrite /spin_of no; apply/idP/idP.
  by move/Z.leb_le/Nat2Z.inj_le/leP.
by move=> /leP le; apply/Z.leb_le/Nat2Z.inj_le.
Qed.

Lemma testvalue_fin_object (o : JAXSlater) (configs : seq mat)
    (poss : seq vec) (e : nat) (m : seq bool) :
  built_on o -> cache o = Some (fin_cache configs) ->
  all (valid_config nelec) configs -> size poss = size configs ->
  (e < nelec.1 + nelec.2)%N ->
  all (fun xyz => all nonzero_sign (sign (moved_state e xyz))) configs ->
  testvalue (Z.of_nat e) (Pos2 poss) (Some m) o =
  (if size m == size configs
   then Ok (Arr1 (mask m [seq xdiv (Fin (wfv (set_nth [::] p.1 e p.2)))
                               (Fin (wfv p.1)) | p <- zip configs poss]),
            Some [seq F1 (moved_row e p.2) | p <- zip configs poss])
   else Raise IndexError, o).
Proof.
case=> go eo no po Hc vc sp lt ns.
rewrite /testvalue Hc po.
rewrite /_testvalue [as_det_params _]/= [bind _ _]/=.
rewrite go eo mapM3_zip //.
rewrite /local_index (spin_of_nat _ no).
pose P (p : mat * vec) :=
  valid_config nelec p.1 &&
  all nonzero_sign (sign (moved_state e p.1)).
have aP : all P (zip configs poss).
  rewrite /P all_predI; apply/andP; split.
    exact: (all_zip_fst (a := valid_config nelec)).
  exact: (all_zip_fst
            (a := fun xyz => all nonzero_sign (sign (moved_state e xyz)))).
rewrite no; case: (leqP nelec.1 e) => [ge|lte].
- have -> : (Z.of_nat e - Z.of_nat nelec.1 * 1)%Z = Z.of_nat (e - nelec.1).
    by rewrite Z.mul_1_r -Nat2Z.inj_sub //; apply/leP.
  have lt' : (e - nelec.1 < nelec.2)%N by rewrite ltn_subLR.
  rewrite (mapM_ok (P := P)
     (g := fun p => (xdiv (Fin (wfv (set_nth [::] p.1 e p.2)))
                          (Fin (wfv p.1)),
                     F1 (mo_row norb_down Cb g p.2))) _ aP).
    move=> p /andP [v]; rewrite /moved_state ge => n0.
    rewrite (testvalue_down_fin norb_up Ca rect_Cb) //.
    by rewrite subnKC.
  rewrite [bind _ _]/= /mask_select size_map size_map size_zip sp minnn.
  by rewrite -!map_comp /moved_row ge; case: ifP.
- have -> : (Z.of_nat e - Z.of_nat nelec.1 * 0)%Z = Z.of_nat e.
    by rewrite Z.mul_0_r Z.sub_0_r.
  rewrite (mapM_ok (P := P)
     (g := fun p => (xdiv (Fin (wfv (set_nth [::] p.1 e p.2)))
                          (Fin (wfv p.1)),
                     F1 (mo_row norb_up Ca g p.2))) _ aP).
    move=> p /andP [v]; rewrite /moved_state leqNgt lte /= => n0.
    by rewrite (testvalue_up_fin norb_down Cb rect_Ca).
  rewrite [bind _ _]/= /mask_select size_map size_map size_zip sp minnn.
  by rewrite -!map_comp /moved_row leqNgt lte /=; case: ifP.
Qed.

Lemma zip_map_same (A B : Type) (f : A -> B) (s : seq A) :
  zip s [seq f x | x <- s] = [seq (x, f x) | x <- s].
Proof. by elim: s => //= x s ->. Qed.

Lemma cached_nonsingular (o : JAXSlater) (configs : seq mat) (e : nat) :
  _nelec o = nelec ->
  all (fun st => all nonzero_sign (sign st))
      (if spin_of o (Z.of_nat e) then _dets_down (fin_cache configs)
       else _dets_up (fin_cache configs)) ->
  all (fun xyz => all nonzero_sign (sign (moved_state e xyz))) configs.
Proof.
move=> no; rewrite (spin_of_nat _ no) /moved_state.
by case: ifP => _; rewrite /= all_map.
Qed.

(** X17. On an object built on finite, well-shaped data: after
    [recompute] on a batch of configurations whose cached combined signs
    are nonzero numbers and whose cached determinants of the spin of
    electron [e] are nonsingular, [testvalue] for the move of [e] to its
    current position in every configuration returns the ratio 1 for
    every configuration, and leaves the object as it is. *)
Theorem recompute_then_noop_testvalue (o : JAXSlater) (configs : seq mat)
    (e : nat) (s l : vec) (o1 : JAXSlater) :
  built_on o -> all (valid_config nelec) configs ->
  (e < nelec.1 + nelec.2)%N ->
  recompute configs o = (Ok (s, l), o1) ->
  all nonzero_sign s ->
  (forall c1, cache o1 = Some c1 ->
     all (fun st => all nonzero_sign (sign st))
         (if spin_of o (Z.of_nat e) then _dets_down c1 else _dets_up c1)) ->
  exists saved,
    testvalue (Z.of_nat e) (Pos2 [seq nth [::] xyz e | xyz <- configs])
      (Some (nseq (size configs) true)) o1 =
    (Ok (Arr1 (nseq (size configs) (Fin 1)), Some saved), o1).
Proof.
move=> bo vc lt; rewrite recompute_fin // => -[Es _ <-] nzs nsd.
have no : _nelec o = nelec by case: bo.
have ns := cached_nonsingular no (nsd _ erefl).
rewrite (testvalue_fin_object _ (built_on_with_cache _ bo) erefl vc) //;
  first by rewrite size_map.
rewrite size_nseq eqxx; eexists; congr (Ok (Arr1 _, _), _).
rewrite mask_true; first by rewrite size_map size_zip size_map minnn.
rewrite zip_map_same -map_comp -(map_cst (f := fun=> Fin 1) configs) //.
pose P xyz := valid_config nelec xyz && nonzero_sign (comb xyz).1.
apply: (eq_map_all (P := P)) => [xyz /andP [/eqP sz nz]|] /=.
  rewrite set_nth_same ?sz // xdiv_same //.
  exact: (combined_nonzero_sign size_ci size_mapping mu_ok md_ok).
rewrite /P all_predI vc /=.
by move: nzs; rewrite -Es /= all_map.
Qed.

(** X18. On an object built on finite, well-shaped data: let
    [recompute] run on a batch of configurations whose cached
    determinants of the spin of electron [e] are nonsingular, and let a
    second [recompute] run on the batch with [e] moved to the proposed
    positions and return signs that are numbers.  Then [testvalue] on
    the first cache returns, for every configuration, the new sign times
    exp of the new log-magnitude divided by the old sign times exp of
    the old log-magnitude. *)
Theorem propose_matches_recompute (o : JAXSlater) (configs : seq mat)
    (poss : seq vec) (e : nat) (s l s' l' : vec) (o1 o2 : JAXSlater) :
  built_on o -> all (valid_config nelec) configs ->
  size poss = size configs -> (e < nelec.1 + nelec.2)%N ->
  recompute configs o = (Ok (s, l), o1) ->
  recompute [seq set_nth [::] p.1 e p.2 | p <- zip configs poss] o1 =
    (Ok (s', l'), o2) ->
  (forall c1, cache o1 = Some c1 ->
     all (fun st => all nonzero_sign (sign st))
         (if spin_of o (Z.of_nat e) then _dets_down c1 else _dets_up c1)) ->
  all is_fin s' ->
  exists saved,
    testvalue (Z.of_nat e) (Pos2 poss) (Some (nseq (size configs) true)) o1 =
    (Ok (Arr1 (zipwith xdiv (zipwith value_of s' l') (zipwith value_of s l)),
         Some saved), o1).
Proof.
move=> bo vc sp lt; rewrite recompute_fin // => -[<- <- <-].
have no : _nelec o = nelec by case: bo.
have vc' : all (valid_config nelec)
             [seq set_nth [::] p.1 e p.2 | p <- zip configs poss].
  rewrite all_map; apply: sub_all (all_zip_fst poss vc) => p /= v.
  exact: valid_config_set_nth.
rewrite (recompute_fin (built_on_with_cache _ bo) vc') => -[<- <- _] nsd fs'.
have ns := cached_nonsingular no (nsd _ erefl).
rewrite (testvalue_fin_object _ (built_on_with_cache _ bo) erefl vc) //.
rewrite size_nseq eqxx; eexists; congr (Ok (Arr1 _, _), _).
rewrite mask_true; first by rewrite size_map size_zip sp minnn.
rewrite /= !zipwith_map2 -(map_fst_zip _ sp) -map_comp zipwith_map2.
pose P (p : mat * vec) :=
  [&& valid_config nelec p.1,
      all nonzero_sign (sign (moved_state e p.1))
    & is_fin (comb (set_nth [::] p.1 e p.2)).1].
apply: (eq_map_all (P := P)) => [p /and3P [v n0 f']|] /=.
  rewrite (combined_value size_ci size_mapping mu_ok md_ok c_pos f').
  have nz' := combined_fin_sign size_ci size_mapping mu_ok md_ok c_pos f'.
  suff nz : has (fun q => term_value (up_value norb_up Ca g ex nelec p.1)
                            (down_value norb_down Cb g ex nelec p.1) q != 0)
                (rterms ex c).
    by rewrite (combined_value size_ci size_mapping mu_ok md_ok c_pos
                  (sign_of_value mu_ok md_ok nz)).
  move: n0 nz'; rewrite /moved_state; case: (leqP nelec.1 e) => [ge|lte] n0.
    rewrite -{1 2}(subnKC ge) => nz'.
    apply: (old_term_nonzero_down mu_ok md_ok v _ n0 nz').
    by rewrite ltn_subLR.
  exact: (old_term_nonzero_up mu_ok md_ok v lte n0).
rewrite /P !all_predI; apply/and3P; split.
- exact: (all_zip_fst (a := valid_config nelec)).
- exact: (all_zip_fst
            (a := fun xyz => all nonzero_sign (sign (moved_state e xyz)))).
- by move: fs'; rewrite !all_map.
Qed.

End FiniteObject.

(** The two-determinant wavefunction object, before its first
    recompute. *)
Definition wf2 (c : seq R) : JAXSlater :=
  mkJAXSlater (fin_gto g_xy) expansion2 (1%N, 0%N)
    (pm_init (Arr1 (F1 c), Arr2 (F2 C_id), Arr2 (F2 C_id))) None.

Lemma built_on_wf2 (c : seq R) :
  built_on C_id C_id g_xy expansion2 (1%N, 0%N) c (wf2 c).
Proof. by split. Qed.

Lemma recompute_wf2 (c1 c2 : R) (configs : seq mat) :
  all (valid_config (1%N, 0%N)) configs ->
  recompute configs (wf2 [:: c1; c2]) =
  (Ok (_sign (fin_cache 2 2 C_id C_id g_xy expansion2 (1%N, 0%N) [:: c1; c2]
                configs),
       _logabs (fin_cache 2 2 C_id C_id g_xy expansion2 (1%N, 0%N)
                  [:: c1; c2] configs)),
   with_cache (wf2 [:: c1; c2])
     (Some (fin_cache 2 2 C_id C_id g_xy expansion2 (1%N, 0%N) [:: c1; c2]
              configs))).
Proof.
move=> vc.
by apply: (@recompute_fin 2 2 2 C_id C_id g_xy expansion2 (1%N, 0%N)
             [:: c1; c2]) => //; exact: built_on_wf2.
Qed.

Lemma nonzero_sign_xy (c1 c2 x y : R) :
  (c1 * x + c2 * y)%R != 0 ->
  nonzero_sign (combined 2 2 C_id C_id g_xy expansion2 (1%N, 0%N)
                  [:: c1; c2] (config_xy x y)).1.
Proof.
by move=> nz; apply: nonzero_sign_of_value => //; rewrite wf_value_xy.
Qed.

Lemma recompute_then_noop_testvalue_witness :
  let configs := [:: config_xy 1 1; config_xy 2 1] in
  let o1 := (recompute configs (wf2 [:: 1; 1])).2 in
  exists saved,
    testvalue 0%Z (Pos2 [seq nth [::] xyz 0 | xyz <- configs])
      (Some [:: true; true]) o1 =
    (Ok (Arr1 [:: Fin 1; Fin 1], Some saved), o1).
Proof.
move=> configs o1.
have E := recompute_wf2 1 1 (configs := configs) erefl.
rewrite /o1 E [(_, _).2]/=.
apply: (@recompute_then_noop_testvalue 2 2 2 C_id C_id g_xy expansion2
          (1%N, 0%N) [:: 1; 1] erefl erefl erefl (fun=> erefl) erefl erefl
          erefl erefl erefl erefl erefl (wf2 [:: 1; 1]) configs 0%N _ _ _
          (built_on_wf2 _) erefl erefl E).
- rewrite /= !nonzero_sign_xy //.
    by apply/eqP => H; have : (1 * 1 + 1 * 1 = 0)%Re := H; lra.
  by apply/eqP => H; have : (1 * 2 + 1 * 1 = 0)%Re := H; lra.
- move=> c1 [<-]; rewrite /= !det_value_one !mo_row_xy /= !Rsgn_eq0.
  rewrite !neq0_R //; lra.
Defined.

Lemma propose_matches_recompute_witness :
  let configs := [:: config_xy 1 1] in
  let poss := [:: [:: Fin 2; Fin 1; Fin 0]] in
  let r1 := recompute configs (wf2 [:: 1; 1]) in
  let r2 := recompute [:: config_xy 2 1] r1.2 in
  exists s l s' l' saved,
    [/\ r1.1 = Ok (s, l), r2.1 = Ok (s', l')
      & testvalue 0%Z (Pos2 poss) (Some [:: true]) r1.2 =
        (Ok (Arr1 (zipwith xdiv (zipwith value_of s' l')
                     (zipwith value_of s l)), Some saved), r1.2)].
Proof.
move=> configs poss r1 r2.
have E1 := recompute_wf2 1 1 (configs := configs) erefl.
have E2 := @recompute_fin 2 2 2 C_id C_id g_xy expansion2 (1%N, 0%N)
             [:: 1; 1] erefl erefl erefl (fun=> erefl) erefl erefl erefl
             erefl erefl r1.2 [:: config_xy 2 1].
rewrite /r2 /r1 E1 [(_, _).2]/= in E2 *.
have {}E2 := E2 (built_on_with_cache _ (built_on_wf2 _)) erefl.
have nsd c1 :
    cache (with_cache (wf2 [:: 1; 1])
             (Some (fin_cache 2 2 C_id C_id g_xy expansion2 (1%N, 0%N)
                      [:: 1; 1] configs))) = Some c1 ->
    all (fun st => all nonzero_sign (sign st))
        (if spin_of (wf2 [:: 1; 1]) (Z.of_nat 0) then _dets_down c1
         else _dets_up c1).
  move=> [<-]; rewrite /= !det_value_one !mo_row_xy /= !Rsgn_eq0.
  by rewrite !neq0_R //; lra.
have fs' : all is_fin
             (_sign (fin_cache 2 2 C_id C_id g_xy expansion2 (1%N, 0%N)
                       [:: 1; 1] [:: config_xy 2 1])).
  rewrite /= andbT; apply: nonzero_sign_fin; apply: nonzero_sign_xy.
  by apply/eqP => H'; have : (1 * 2 + 1 * 1 = 0)%Re := H'; lra.
have [saved H] :=
  @propose_matches_recompute 2 2 2 C_id C_id g_xy expansion2
    (1%N, 0%N) [:: 1; 1] erefl erefl erefl (fun=> erefl) erefl erefl
    erefl erefl erefl erefl erefl (wf2 [:: 1; 1]) configs poss 0%N _ _ _ _
    _ _ (built_on_wf2 _) erefl erefl erefl E1 E2 nsd fs'.
by do 4!eexists; exists saved; split; [reflexivity | rewrite E2 | exact: H].
Defined.

(** ** Exchange of two electrons of one spin *)

Definition swap_nth (T : Type) (x0 : T) (s : seq T) (i j : nat) : seq T :=
  set_nth x0 (set_nth x0 s i (nth x0 s j)) j (nth x0 s i).

Lemma size_swap_nth (T : Type) (x0 : T) (s : seq T) (i j : nat) :
  (i < size s)%N -> (j < size s)%N -> size (swap_nth x0 s i j) = size s.
Proof.
move=> li lj; rewrite /swap_nth !size_set_nth.
by rewrite (maxn_idPr li) (maxn_idPr lj).
Qed.

Lemma nth_swap_nth (T : Type) (x0 : T) (s : seq T) (i j k : nat) :
  nth x0 (swap_nth x0 s i j) k =
  nth x0 s (if k == j then i else if k == i then j else k).
Proof.
rewrite /swap_nth nth_set_nth /= nth_set_nth /=.
by case: (k == j) => //; case: (k == i).
Qed.

Lemma take_swap_nth (T : Type) (x0 : T) (s : seq T) (n i j : nat) :
  (i < n)%N -> (j < n)%N -> (n <= size s)%N ->
  take n (swap_nth x0 s i j) = swap_nth x0 (take n s) i j.
Proof.
move=> li lj le; rewrite /swap_nth take_set_nth //.
  by rewrite size_set_nth leq_max le orbT.
by rewrite take_set_nth // !nth_take.
Qed.

Lemma drop_swap_nth (T : Type) (x0 : T) (s : seq T) (n i j : nat) :
  (i < n)%N -> (j < n)%N -> (n <= size s)%N ->
  drop n (swap_nth x0 s i j) = drop n s.
Proof.
move=> li lj le; rewrite /swap_nth drop_set_nth //.
  by rewrite size_set_nth leq_max le orbT.
by rewrite drop_set_nth.
Qed.

Lemma slater_mx_swap norb C g n (cfg : mat) (d : seq nat) (i j : 'I_n) :
  size cfg = n -> size d = n ->
  slater_mx norb C g n (swap_nth [::] cfg i j) d =
  xrow i j (slater_mx norb C g n cfg d).
Proof.
move=> sc sd; apply/matrixP => k m; rewrite !mxE.
rewrite !nth_submatrix ?size_map ?size_swap_nth ?sc ?sd //.
rewrite /mo_rows !(nth_map [::]) ?size_swap_nth ?sc // nth_swap_nth.
congr (nth 0 (mo_row _ _ _ (nth [::] cfg _)) _).
case: tpermP => [->|->|/eqP ni /eqP nj].
- by rewrite eqxx; case: eqP.
- by rewrite eqxx.
- by rewrite -!val_eqE /= in ni nj; rewrite (negbTE ni) (negbTE nj).
Qed.

Lemma det_value_swap norb C g n (cfg : mat) (d : seq nat) (i j : 'I_n) :
  size cfg = n -> size d = n -> i != j ->
  det_value norb C g n (swap_nth [::] cfg i j) d =
  - det_value norb C g n cfg d.
Proof.
move=> sc sd ne; rewrite /det_value slater_mx_swap // xrowE det_mulmx.
by rewrite det_perm odd_tperm ne expr1 mulN1r.
Qed.

Lemma take_swap_nth_ge (T : Type) (x0 : T) (s : seq T) (n i j : nat) :
  (n + i < size s)%N -> (n + j < size s)%N ->
  take n (swap_nth x0 s (n + i) (n + j)) = take n s.
Proof.
move=> li lj; rewrite /swap_nth take_set_nth_ge.
  by rewrite size_set_nth leq_max lj orbT.
by rewrite take_set_nth_ge.
Qed.

Lemma drop_swap_nth_ge (T : Type) (x0 : T) (s : seq T) (n i j : nat) :
  (n + i < size s)%N -> (n + j < size s)%N ->
  drop n (swap_nth x0 s (n + i) (n + j)) = swap_nth x0 (drop n s) i j.
Proof.
move=> li lj; rewrite /swap_nth drop_set_nth_ge.
  by rewrite size_set_nth leq_max lj orbT.
by rewrite drop_set_nth_ge // !nth_drop.
Qed.

Lemma zip_map_l (A B C : Type) (f : A -> C) (s : seq A) (t : seq B) :
  zip [seq f x | x <- s] t = [seq (f p.1, p.2) | p <- zip s t].
Proof. by elim: s t => [|x s IH] [|y t] //=; rewrite IH. Qed.

Lemma Rsgn_opp (x : R) : Rsgn (- x)%Re = (- Rsgn x)%Re.
Proof.
case: (Rsgn_cases x) => [[h ->]|[h ->]|[-> ->]].
- by rewrite Rsgn_neg //; lra.
- by rewrite Rsgn_pos; lra.
- have E : (- 0)%Re = 0%Re by lra.
  by rewrite !E Rsgn_0.
Qed.

Lemma log_of_opp (d : R) : log_of (- d)%Re = log_of d.
Proof.
rewrite !log_ofE Rabs_Ropp.
have -> : ((- d)%Re == 0) = (d == 0) by rewrite -[(- d)%Re]/(- d) oppr_eq0.
by [].
Qed.

Section CombinedForm.

Variables (norb_up norb_down : nat) (Ca Cb : seq (seq R)).
Variables (g : vec -> seq R) (ex : DeterminantExpansion).
Variables (nelec : nat * nat).

Hypothesis size_mapping : size (mapping_up ex) = size (mapping_down ex).
Hypothesis mu_ok :
  all (fun i => i < size (determinants_up ex))%N (mapping_up ex).
Hypothesis md_ok :
  all (fun i => i < size (determinants_down ex))%N (mapping_down ex).

Let uval := up_value norb_up Ca g ex nelec.
Let dval := down_value norb_down Cb g ex nelec.

(** The log-magnitudes of the terms at a configuration. *)
Definition term_logs (c : seq R) (xyz : mat) : vec :=
  [seq log_of (term_value (uval xyz) (dval xyz) p) | p <- rterms ex c].

Lemma combinedE (c : seq R) (xyz : mat) :
  size c = size (mapping_up ex) -> (0 < size c)%N ->
  combined norb_up norb_down Ca Cb g ex nelec c xyz =
  if reference (term_logs c xyz) is Some (Fin r) then
    let v := (wf_value norb_up norb_down Ca Cb g ex nelec c xyz *
              exp (- r))%Re in
    (xsign (Fin v), xadd (xlog (xabs (Fin v))) (Fin r))
  else (NaN, NaN).
Proof.
move=> sc c0.
have ir := rterms_in_range c mu_ok md_ok.
have Hu := @Hu_state norb_up Ca g ex nelec xyz.
have Hd := @Hd_state norb_down Cb g ex nelec xyz.
rewrite /combined /fin_terms ci_terms_lift /log_sum_exp_sign.
rewrite (logmags_terms_values Hu Hd ir) -map_comp -/(term_logs c xyz).
case H: (has (fun p => term_value (uval xyz) (dval xyz) p != 0)
           (rterms ex c)).
  have H' : has (fun d => d != 0)
      [seq term_value (uval xyz) (dval xyz) p | p <- rterms ex c].
    by rewrite has_map.
  have [r] := reference_fin H'; rewrite -map_comp -/(term_logs c xyz) => ->.
  by rewrite /= -/(shifted_total _ _ _ _ _ _) (shifted_total_fin Hu Hd ir).
have z : all (fun p => term_value (uval xyz) (dval xyz) p == 0) (rterms ex c).
  rewrite (eq_all (a2 := predC (fun p =>
             term_value (uval xyz) (dval xyz) p != 0))).
    by move=> p /=; rewrite negbK.
  by rewrite all_predC H.
have sr : (0 < size (rterms ex c))%N.
  by rewrite (size_rterms sc size_mapping).
have -> : reference (term_logs c xyz) = Some NInf.
  rewrite /term_logs map_comp reference_ninf ?size_map //.
  by rewrite all_map.
by rewrite /= -/(shifted_total _ _ _ _ _ _) (shifted_total_ninf Hu Hd ir z sr).
Qed.

End CombinedForm.

Section Symmetries.

Variables (nb norb_up norb_down : nat) (Ca Cb : seq (seq R)).
Variables (g : vec -> seq R) (ex : DeterminantExpansion).
Variables (nelec : nat * nat) (c : seq R).

Hypothesis rect_Ca : rect nb norb_up Ca.
Hypothesis rect_Cb : rect nb norb_down Cb.
Hypothesis nb_pos : (0 < nb)%N.
Hypothesis size_g : forall p, size (g p) = nb.
Hypothesis dets_up_ok : all (valid_det norb_up nelec.1) (determinants_up ex).
Hypothesis dets_down_ok :
  all (valid_det norb_down nelec.2) (determinants_down ex).
Hypothesis size_ci : size c = size (mapping_up ex).
Hypothesis size_mapping : size (mapping_up ex) = size (mapping_down ex).
Hypothesis mu_ok :
  all (fun i => i < size (determinants_up ex))%N (mapping_up ex).
Hypothesis md_ok :
  all (fun i => i < size (determinants_down ex))%N (mapping_down ex).
Hypothesis c_pos : (0 < size c)%N.

Let comb := combined norb_up norb_down Ca Cb g ex nelec.
Let wfv := wf_value norb_up norb_down Ca Cb g ex nelec.
Let uval := up_value norb_up Ca g ex nelec.
Let dval := down_value norb_down Cb g ex nelec.

Let evaluateE (c' : seq R) (xyz : mat) :
  size c' = size c -> valid_config nelec xyz ->
  evaluate_expansion (gto_ne (fin_gto g)) ex nelec (fin_params Ca Cb c') xyz =
  Ok ((comb c' xyz).1, (comb c' xyz).2,
      state_up norb_up Ca g ex nelec xyz,
      state_down norb_down Cb g ex nelec xyz).
Proof.
move=> sc vc; apply: (evaluate_expansion_fin rect_Ca rect_Cb) => //.
  by rewrite sc.
by rewrite sc.
Qed.

(** *** Rescaling the coefficients *)

Let scaled (k : R) : seq R := [seq (k * x)%Re | x <- c].

Let rterms_scaled k :
  rterms ex (scaled k) = [seq ((k * p.1)%Re, p.2) | p <- rterms ex c].
Proof. by rewrite /rterms /scaled zip_map_l. Qed.

Let wfv_scaled k xyz : wfv (scaled k) xyz = (k * wfv c xyz)%Re.
Proof.
rewrite /wfv /wf_value /psi rterms_scaled big_map RmultE mulr_sumr.
by apply: eq_bigr => p _; rewrite /term_value /= -RmultE mulrA.
Qed.

Let logs_scaled k xyz :
  term_logs norb_up norb_down Ca Cb g ex nelec (scaled k) xyz =
  term_logs norb_up norb_down Ca Cb g ex nelec c xyz.
Proof. by rewrite /term_logs rterms_scaled -map_comp. Qed.

Lemma sign_log_scaled (k x r : R) :
  (0 < k)%Re ->
  (xsign (Fin (k * x * exp (- r))%Re),
   xadd (xlog (xabs (Fin (k * x * exp (- r))%Re))) (Fin r)) =
  (xsign (Fin (x * exp (- r))%Re),
   xadd (xadd (xlog (xabs (Fin (x * exp (- r))%Re))) (Fin r)) (Fin (ln k))).
Proof.
move=> k0; rewrite Rmult_assoc; set y := (x * exp (- r))%Re.
rewrite /= Rsgn_mul (Rsgn_pos k0) Rmult_1_l !xlog_abs; congr (_, _).
case: (y =P 0%Re) => [->|ny].
  by rewrite Rmult_0_r eqxx.
have ky : (k * y)%Re <> 0%Re by apply: Rmult_integral_contrapositive; lra.
rewrite !eqr_false //=; congr Fin.
have ak : Rabs k = k by apply: Rabs_pos_eq; lra.
have ay : (0 < Rabs y)%Re by apply: Rabs_pos_lt.
have E : ln (k * Rabs y) = (ln k + ln (Rabs y))%Re by apply: ln_mult.
by rewrite Rabs_mult ak E; lra.
Qed.

(** X20. Multiplying every coefficient of the expansion by a positive
    number [k] leaves the sign and the determinant states that
    [evaluate_expansion] returns unchanged and adds [ln k] to the
    log-magnitude. *)
Theorem evaluate_expansion_rescaled (k : R) (xyz : mat) (s l : xreal)
    (up down : SlaterState) :
  (0 < k)%Re -> valid_config nelec xyz ->
  evaluate_expansion (gto_ne (fin_gto g)) ex nelec (fin_params Ca Cb c) xyz =
    Ok (s, l, up, down) ->
  evaluate_expansion (gto_ne (fin_gto g)) ex nelec
    (fin_params Ca Cb [seq (k * x)%Re | x <- c]) xyz =
  Ok (s, xadd l (Fin (ln k)), up, down).
Proof.
move=> k0 vc; rewrite evaluateE // => -[<- <- <- <-].
rewrite -/(scaled k) evaluateE ?size_map //.
have -> : comb (scaled k) xyz =
          ((comb c xyz).1, xadd (comb c xyz).2 (Fin (ln k))); last by [].
rewrite /comb.
rewrite !(@combinedE norb_up norb_down Ca Cb g ex nelec size_mapping mu_ok md_ok)
  ?size_map //.
rewrite logs_scaled; case: reference => [[r| | |]|] //.
rewrite -!/(wfv _ _) wfv_scaled; cbv zeta.
by rewrite sign_log_scaled.
Qed.

(** X21. Multiplying every coefficient by a positive number does not
    change the ratio [testvalue_up] ([testvalue_down]) returns, when the
    cached states come from a full evaluation with every determinant of
    the moved spin nonsingular. *)
Theorem testvalue_rescaled (spin : bool) (k : R) (xyz : mat) (e : nat)
    (pos : vec) (s l : xreal) (up down : SlaterState) :
  (0 < k)%Re -> valid_config nelec xyz ->
  (e < (if spin then nelec.2 else nelec.1))%N ->
  evaluate_expansion (gto_ne (fin_gto g)) ex nelec (fin_params Ca Cb c) xyz =
    Ok (s, l, up, down) ->
  all nonzero_sign (sign (if spin then down else up)) ->
  (if spin then testvalue_down else testvalue_up) (fin_gto g) ex
    (fin_params Ca Cb [seq (k * x)%Re | x <- c]) up down (Z.of_nat e) pos =
  (if spin then testvalue_down else testvalue_up) (fin_gto g) ex
    (fin_params Ca Cb c) up down (Z.of_nat e) pos.
Proof.
move=> k0 vc lt; rewrite evaluateE // => -[_ _ <- <-] ns.
have sk : size (scaled k) = size (mapping_up ex) by rewrite size_map.
have ck : (0 < size (scaled k))%N by rewrite size_map.
have sc xyz' : xdiv (Fin (wfv (scaled k) xyz')) (Fin (wfv (scaled k) xyz)) =
               xdiv (Fin (wfv c xyz')) (Fin (wfv c xyz)).
  rewrite !wfv_scaled [(k * wfv c xyz')%Re]Rmult_comm.
  by rewrite [(k * wfv c xyz)%Re]Rmult_comm xdiv_scale.
rewrite -/(scaled k); case: spin lt ns => lt ns.
- rewrite (testvalue_down_fin norb_up Ca rect_Cb) //.
  by rewrite (testvalue_down_fin norb_up Ca rect_Cb) // -/wfv sc.
- rewrite (testvalue_up_fin norb_down Cb rect_Ca) //.
  by rewrite (testvalue_up_fin norb_down Cb rect_Ca) // -/wfv sc.
Qed.

(** *** Exchange of two electrons of one spin *)

Let off (spin : bool) : nat := if spin then nelec.1 else 0%N.
Let nsp (spin : bool) : nat := if spin then nelec.2 else nelec.1.
Let swapped (spin : bool) (xyz : mat) (i j : nat) : mat :=
  swap_nth [::] xyz (off spin + i) (off spin + j).

Let off_lt spin xyz i :
  valid_config nelec xyz -> (i < nsp spin)%N -> (off spin + i < size xyz)%N.
Proof.
move=> /eqP -> lt; case: spin lt => /= lt; first by rewrite ltn_add2l.
by rewrite add0n ltn_addr.
Qed.

Let valid_swapped spin xyz i j :
  valid_config nelec xyz -> (i < nsp spin)%N -> (j < nsp spin)%N ->
  valid_config nelec (swapped spin xyz i j).
Proof.
move=> vc li lj; rewrite /valid_config size_swap_nth ?off_lt //.
Qed.

Let uval_swapped spin xyz i j k :
  valid_config nelec xyz -> (i < nsp spin)%N -> (j < nsp spin)%N -> i != j ->
  (k < size (determinants_up ex))%N ->
  uval (swapped spin xyz i j) k = if spin then uval xyz k else - uval xyz k.
Proof.
move=> vc li lj ne lk; rewrite /uval /up_value /swapped.
case: spin li lj => /= li lj.
  by rewrite take_swap_nth_ge // (off_lt (spin := true)).
rewrite !add0n take_swap_nth //.
  by move/eqP: vc => ->; exact: leq_addr.
have /andP [/eqP sd _] : valid_det norb_up nelec.1
    (nth [::] (determinants_up ex) k).
  by move/(all_nthP [::]): dets_up_ok; apply.
rewrite (@det_value_swap _ _ _ _ _ _ (Ordinal li) (Ordinal lj)) //.
exact: size_take_up.
Qed.

Let dval_swapped spin xyz i j k :
  valid_config nelec xyz -> (i < nsp spin)%N -> (j < nsp spin)%N -> i != j ->
  (k < size (determinants_down ex))%N ->
  dval (swapped spin xyz i j) k = if spin then - dval xyz k else dval xyz k.
Proof.
move=> vc li lj ne lk; rewrite /dval /down_value /swapped.
case: spin li lj => /= li lj; last first.
  rewrite !add0n drop_swap_nth //.
  by move/eqP: vc => ->; exact: leq_addr.
rewrite drop_swap_nth_ge ?(off_lt (spin := true)) //.
have /andP [/eqP sd _] : valid_det norb_down nelec.2
    (nth [::] (determinants_down ex) k).
  by move/(all_nthP [::]): dets_down_ok; apply.
rewrite (@det_value_swap _ _ _ _ _ _ (Ordinal li) (Ordinal lj)) //.
exact: size_drop_down.
Qed.

Let term_swapped spin xyz i j p :
  valid_config nelec xyz -> (i < nsp spin)%N -> (j < nsp spin)%N -> i != j ->
  (p.2.1 < size (determinants_up ex))%N &&
  (p.2.2 < size (determinants_down ex))%N ->
  term_value (uval (swapped spin xyz i j)) (dval (swapped spin xyz i j)) p =
  - term_value (uval xyz) (dval xyz) p.
Proof.
move=> vc li lj ne /andP [l1 l2].
rewrite /term_value uval_swapped // dval_swapped //.
by case: spin {li lj}; rewrite !RmultE ?mulrN ?mulNr.
Qed.

Let wfv_swapped spin xyz i j :
  valid_config nelec xyz -> (i < nsp spin)%N -> (j < nsp spin)%N -> i != j ->
  wfv c (swapped spin xyz i j) = - wfv c xyz.
Proof.
move=> vc li lj ne; rewrite /wfv /wf_value /psi -sumrN.
have := rterms_in_range c mu_ok md_ok.
elim: (rterms ex c) => [|p t IH] /=; first by rewrite !big_nil.
case/andP => ip /IH E; rewrite !big_cons E; congr (_ + _).
by rewrite -/uval -/dval term_swapped // mulrN.
Qed.

Let logs_swapped spin xyz i j :
  valid_config nelec xyz -> (i < nsp spin)%N -> (j < nsp spin)%N -> i != j ->
  term_logs norb_up norb_down Ca Cb g ex nelec c (swapped spin xyz i j) =
  term_logs norb_up norb_down Ca Cb g ex nelec c xyz.
Proof.
move=> vc li lj ne; rewrite /term_logs.
have := rterms_in_range c mu_ok md_ok.
elim: (rterms ex c) => [|p t IH] //=.
case/andP => ip /IH ->; congr (_ :: _).
by rewrite -/uval -/dval term_swapped // log_of_opp.
Qed.

Lemma sign_log_opp (x r : R) :
  (xsign (Fin (- x * exp (- r))%Re),
   xadd (xlog (xabs (Fin (- x * exp (- r))%Re))) (Fin r)) =
  (xopp (xsign (Fin (x * exp (- r))%Re)),
   xadd (xlog (xabs (Fin (x * exp (- r))%Re))) (Fin r)).
Proof.
have -> : (- x * exp (- r))%Re = (- (x * exp (- r)))%Re by lra.
set y := (x * exp (- r))%Re.
have := log_of_opp y; rewrite !log_ofE -!xlog_abs => ->.
by rewrite /= Rsgn_opp.
Qed.

(** X19. Exchanging the positions of two different electrons of one spin
    changes the sign [evaluate_expansion] returns to its opposite and
    leaves the log-magnitude and the determinant state of the other spin
    unchanged. *)
Theorem evaluate_expansion_exchange (spin : bool) (xyz : mat) (i j : nat)
    (s l : xreal) (up down : SlaterState) :
  valid_config nelec xyz ->
  (i < (if spin then nelec.2 else nelec.1))%N ->
  (j < (if spin then nelec.2 else nelec.1))%N -> i != j ->
  evaluate_expansion (gto_ne (fin_gto g)) ex nelec (fin_params Ca Cb c) xyz =
    Ok (s, l, up, down) ->
  exists st : SlaterState,
    evaluate_expansion (gto_ne (fin_gto g)) ex nelec (fin_params Ca Cb c)
      (swap_nth [::] xyz ((if spin then nelec.1 else 0) + i)
                         ((if spin then nelec.1 else 0) + j)) =
    Ok (xopp s, l, if spin then up else st, if spin then st else down).
Proof.
move=> vc li lj ne; rewrite evaluateE // => -[<- <- <- <-].
rewrite -/(off spin) -/(swapped spin xyz i j) evaluateE ?valid_swapped //.
have -> : comb c (swapped spin xyz i j) =
          (xopp (comb c xyz).1, (comb c xyz).2).
  rewrite /comb.
  rewrite !(@combinedE norb_up norb_down Ca Cb g ex nelec size_mapping
              mu_ok md_ok) //.
  rewrite logs_swapped //; case: reference => [[r| | |]|] //.
  by rewrite -!/(wfv _ _) wfv_swapped //; cbv zeta; rewrite sign_log_opp.
case: spin li lj => li lj.
- exists (state_down norb_down Cb g ex nelec (swapped true xyz i j)).
  congr (Ok (_, _, _, _)); rewrite /state_up /swapped.
  by rewrite take_swap_nth_ge // (off_lt (spin := true)).
- exists (state_up norb_up Ca g ex nelec (swapped false xyz i j)).
  congr (Ok (_, _, _, _)); rewrite /state_down /swapped /= !add0n.
  rewrite drop_swap_nth //.
  by move/eqP: vc => ->; exact: leq_addr.
Qed.

End Symmetries.

(** An instance with two electrons of one spin in one determinant. *)
Definition expansion_pair : DeterminantExpansion :=
  mkDeterminantExpansion [:: 0%N] [:: 0%N] [:: [:: 0%N; 1%N]] [:: [::]].

Definition config_pair : mat :=
  [:: [:: Fin 1; Fin 0; Fin 0]; [:: Fin 0; Fin 1; Fin 0]].

Lemma evaluate_expansion_exchange_witness :
  let params := fin_params C_id C_id [:: 1] in
  exists s l up down st,
    evaluate_expansion (gto_ne (fin_gto g_xy)) expansion_pair (2%N, 0%N)
      params config_pair = Ok (s, l, up, down) /\
    evaluate_expansion (gto_ne (fin_gto g_xy)) expansion_pair (2%N, 0%N)
      params (swap_nth [::] config_pair 0 1) = Ok (xopp s, l, st, down).
Proof.
move=> params.
have E := @evaluate_expansion_fin 2 2 2 C_id C_id g_xy expansion_pair
  (2%N, 0%N) [:: 1] erefl erefl erefl (fun=> erefl) erefl erefl erefl erefl
  config_pair erefl erefl.
have [st H] := @evaluate_expansion_exchange 2 2 2 C_id C_id g_xy
  expansion_pair (2%N, 0%N) [:: 1] erefl erefl erefl (fun=> erefl) erefl
  erefl erefl erefl erefl erefl erefl false config_pair 0%N 1%N _ _ _ _
  erefl erefl erefl erefl E.
by do 4!eexists; exists st; split; [exact: E | exact: H].
Defined.

Lemma evaluate_expansion_rescaled_witness :
  let xyz := config_xy 1 1 in
  exists s l up down,
    evaluate_expansion (gto_ne (fin_gto g_xy)) expansion2 (1%N, 0%N)
      (fin_params C_id C_id [:: 1; 1]) xyz = Ok (s, l, up, down) /\
    evaluate_expansion (gto_ne (fin_gto g_xy)) expansion2 (1%N, 0%N)
      (fin_params C_id C_id [seq (2 * x)%Re | x <- [:: 1; 1]]) xyz =
    Ok (s, xadd l (Fin (ln 2)), up, down).
Proof.
move=> xyz.
have E := evaluate_expansion_xy 1 1 (xyz := xyz) erefl.
have k0 : (0 < 2)%Re by lra.
have H := @evaluate_expansion_rescaled 2 2 2 C_id C_id g_xy expansion2
  (1%N, 0%N) [:: 1; 1] erefl erefl erefl (fun=> erefl) erefl erefl erefl
  erefl erefl erefl erefl 2%Re xyz _ _ _ _ k0 erefl E.
by do 4!eexists; split; [exact: E | exact: H].
Defined.

Lemma testvalue_rescaled_witness :
  let xyz := config_xy 1 1 in
  let pos := [:: Fin 2; Fin 1; Fin 0] in
  exists s l up down,
    evaluate_expansion (gto_ne (fin_gto g_xy)) expansion2 (1%N, 0%N)
      (fin_params C_id C_id [:: 1; 1]) xyz = Ok (s, l, up, down) /\
    testvalue_up (fin_gto g_xy) expansion2
      (fin_params C_id C_id [seq (2 * x)%Re | x <- [:: 1; 1]])
      up down 0%Z pos =
    testvalue_up (fin_gto g_xy) expansion2
      (fin_params C_id C_id [:: 1; 1]) up down 0%Z pos.
Proof.
move=> xyz pos.
have E := evaluate_expansion_xy 1 1 (xyz := xyz) erefl.
have k0 : (0 < 2)%Re by lra.
have ns : all nonzero_sign
            (sign (state_up 2 C_id g_xy expansion2 (1%N, 0%N) xyz)).
  by rewrite signs_up_xy /= !Rsgn_eq0 !neq0_R //; exact: R1_neq0_Re.
have H := @testvalue_rescaled 2 2 2 C_id C_id g_xy expansion2
  (1%N, 0%N) [:: 1; 1] erefl erefl erefl (fun=> erefl) erefl erefl erefl
  erefl erefl erefl erefl false 2%Re xyz 0%N pos _ _ _ _ k0 erefl erefl E ns.
by do 4!eexists; split; [exact: E | exact: H].
Defined.
